(** * Source-map utilities of the React Native debugger (src/debugger/sourceMap.ts)

    A shallow embedding of [SourceMapUtil] and of the platform primitives it
    calls (regular expressions, [String.prototype.replace/match/split],
    [path.posix], [JSON]), followed by the properties of the module.

    Conventions of the model:
    - a JavaScript string is the list of its UTF-16 code units ([jsstring]);
    - the platform is POSIX: [path] is [path.posix], [path.sep] is "/", and
      [process.cwd()] is a parameter;
    - the module is strict code, as every compiled TypeScript module is;
    - a statement that can throw returns [Throw]; the [try]/[catch] of
      [updateSourceMapFile] is the only handler;
    - a JSON number keeps the text of its literal, and [Number::toString]
      is a parameter;
    - the two source-map collaborators ([flatten-source-map] and
      [SourceMapsCombinator.convert]) and the legacy functions [url.parse]
      and [url.format] are parameters.

    Layout: the embedding ([JS], [Regex], [SourceMapText], [Path], [Json],
    [Url], [SourceMapUtil]), the text functions the patterns are compared
    with ([Direct]), the lemmas, the claims C1 to C10, and further
    properties of the module (X1 to X20) at the end. *)

From Stdlib Require Import String Ascii List NArith Bool Arith Lia.
Import ListNotations.

Set Implicit Arguments.

(* ================================================================= *)
(** ** JavaScript strings *)

Module JS.

Definition jsstring := list N.

(** Code units of an ASCII literal. *)
Fixpoint js (s : string) : jsstring :=
  match s with
  | EmptyString => []
  | String c s' => N_of_ascii c :: js s'
  end.

(** The same, with each apostrophe of the literal read as a double quote:
    [jsq "{'a':1}"] is the text of a JSON object. *)
Definition jsq (s : string) : jsstring :=
  map (fun c => if N.eqb c 39 then 34%N else c) (js s).

Fixpoint eqb (a b : jsstring) : bool :=
  match a, b with
  | [], [] => true
  | x :: a', y :: b' => N.eqb x y && eqb a' b'
  | _, _ => false
  end.

(** [strip p s] is [Some t] when [s = p ++ t]. *)
Fixpoint strip (p s : jsstring) : option jsstring :=
  match p with
  | [] => Some s
  | x :: p' =>
      match s with
      | y :: s' => if N.eqb x y then strip p' s' else None
      | [] => None
      end
  end.

Definition startsWith (s p : jsstring) : bool :=
  match strip p s with Some _ => true | None => false end.

(** Line terminators of ECMAScript: LF, CR, LS, PS. *)
Definition isLineTerminator (c : N) : bool :=
  N.eqb c 10 || N.eqb c 13 || N.eqb c 8232 || N.eqb c 8233.

Definition inRange (c : N) (r : N * N) : bool :=
  N.leb (fst r) c && N.leb c (snd r).

Definition inRanges (rs : list (N * N)) (c : N) : bool :=
  existsb (inRange c) rs.

(** The members of the class [\s]: WhiteSpace and LineTerminator. *)
Definition whiteSpaceRanges : list (N * N) :=
  [ (9, 13); (32, 32); (160, 160); (5760, 5760); (8192, 8202);
    (8232, 8233); (8239, 8239); (8287, 8287); (12288, 12288);
    (65279, 65279) ]%N.

Definition isWhiteSpace (c : N) : bool := inRanges whiteSpaceRanges c.

Definition lineTerminatorRanges : list (N * N) :=
  [ (10, 10); (13, 13); (8232, 8233) ]%N.

(** [String.prototype.indexOf] as used by [replace] with a string pattern:
    the text before the first occurrence of [pat] and the text after it. *)
Fixpoint splitAtFirst (pat s : jsstring) : option (jsstring * jsstring) :=
  match strip pat s with
  | Some rest => Some ([], rest)
  | None =>
      match s with
      | [] => None
      | c :: s' =>
          match splitAtFirst pat s' with
          | Some (pre, post) => Some (c :: pre, post)
          | None => None
          end
      end
  end.

Definition isDigit (c : N) : bool := N.leb 48 c && N.leb c 57.

Definition digitVal (c : N) : nat := N.to_nat (c - 48).

(** The capture [n] (1-based) of a match; an undefined capture reads as
    the empty string. [None] when the pattern has fewer than [n] groups. *)
Definition captureText (caps : list (option jsstring)) (n : nat)
  : option jsstring :=
  match n with
  | O => None
  | S i =>
      match nth_error caps i with
      | Some (Some t) => Some t
      | Some None => Some []
      | None => None
      end
  end.

(** [GetSubstitution]: expansion of the [$] patterns of a replacement
    template. [matched] is the matched text, [pre] and [post] the text
    before and after it, [caps] the captures of the match. *)
Fixpoint getSubstitution (matched pre post : jsstring)
    (caps : list (option jsstring)) (template : jsstring) : jsstring :=
  match template with
  | [] => []
  | c :: rest =>
      if negb (N.eqb c 36) then
        c :: getSubstitution matched pre post caps rest
      else
        match rest with
        | [] => [c]
        | d :: rest1 =>
            let literal := c :: getSubstitution matched pre post caps rest in
            if N.eqb d 36 then
              36%N :: getSubstitution matched pre post caps rest1
            else if N.eqb d 38 then
              matched ++ getSubstitution matched pre post caps rest1
            else if N.eqb d 96 then
              pre ++ getSubstitution matched pre post caps rest1
            else if N.eqb d 39 then
              post ++ getSubstitution matched pre post caps rest1
            else if isDigit d then
              let one :=
                match captureText caps (digitVal d) with
                | Some t => t ++ getSubstitution matched pre post caps rest1
                | None => literal
                end in
              match rest1 with
              | e :: rest2 =>
                  if isDigit e then
                    match captureText caps (10 * digitVal d + digitVal e) with
                    | Some t =>
                        t ++ getSubstitution matched pre post caps rest2
                    | None => one
                    end
                  else one
              | [] => one
              end
            else literal
        end
  end.

(** A template without the unit [$]. *)
Definition noDollar (t : jsstring) : bool :=
  forallb (fun c => negb (N.eqb c 36)) t.

(** [String.prototype.replace(pattern, template)] with a string pattern:
    only the first occurrence is replaced, and the pattern has no groups. *)
Definition replaceString (s pat template : jsstring) : jsstring :=
  match splitAtFirst pat s with
  | Some (pre, post) => pre ++ getSubstitution pat pre post [] template ++ post
  | None => s
  end.

(** [String.prototype.split(sep)] for a one-unit separator. *)
Fixpoint splitOn (sep : N) (s : jsstring) : list jsstring :=
  match s with
  | [] => [[]]
  | c :: s' =>
      match splitOn sep s' with
      | seg :: segs =>
          if N.eqb c sep then [] :: seg :: segs else (c :: seg) :: segs
      | [] => [[c]]
      end
  end.

(** [Array.prototype.join(sep)] on strings. *)
Fixpoint joinWith (sep : jsstring) (l : list jsstring) : jsstring :=
  match l with
  | [] => []
  | [x] => x
  | x :: rest => x ++ sep ++ joinWith sep rest
  end.

End JS.

(* ================================================================= *)
(** ** Regular expressions: a backtracking matcher

    The patterns of the module use literals, classes, one alternation,
    capturing groups, a negative lookahead, greedy and lazy quantifiers
    and the assertions [^] and [$]. The matcher below follows the
    continuation semantics of ECMAScript for exactly these forms. *)

Module Regex.
Import JS.

Inductive regex : Type :=
| Chr (c : N)                         (* a literal code unit *)
| Cls (negated : bool) (ranges : list (N * N))   (* [..], [^..], ., \s *)
| Seq (r1 r2 : regex)
| Alt (r1 r2 : regex)
| Grp (n : nat) (r : regex)           (* capturing group number n *)
| NotAhead (r : regex)                (* (?! r) *)
| Rep (greedy : bool) (min : nat) (max : option nat) (r : regex)
| Bol (multiline : bool)              (* ^ *)
| Eol (multiline : bool).             (* $ *)

(** A literal string, as a sequence of literal code units. *)
Fixpoint Lit (l : jsstring) : regex :=
  match l with
  | [] => Rep true 0 (Some 0) (Chr 0)
  | [c] => Chr c
  | c :: l' => Seq (Chr c) (Lit l')
  end.

(** [.] without the [s] flag, and [\s]. *)
Definition Dot : regex := Cls true lineTerminatorRanges.
Definition Space : regex := Cls false whiteSpaceRanges.

Definition classTest (negated : bool) (ranges : list (N * N)) (c : N) : bool :=
  xorb negated (inRanges ranges c).

(** The matcher state: the text before the current position (most recent
    unit first), the text after it, and the captures made so far. *)
Record mstate : Type := MState
  { before : list N;
    after : list N;
    caps : list (nat * jsstring) }.

Definition cont := mstate -> option mstate.

Definition advance (c : N) (t : list N) (st : mstate) : mstate :=
  MState (c :: before st) t (caps st).

(** The text consumed between two states of one match. *)
Definition consumed (st st' : mstate) : jsstring :=
  firstn (length (after st) - length (after st')) (after st).

Definition setCapture (n : nat) (st st' : mstate) : mstate :=
  MState (before st') (after st') ((n, consumed st st') :: caps st').

Fixpoint groupsOf (r : regex) : list nat :=
  match r with
  | Chr _ | Cls _ _ | Bol _ | Eol _ => []
  | Seq a b | Alt a b => groupsOf a ++ groupsOf b
  | Grp n a => n :: groupsOf a
  | NotAhead a => groupsOf a
  | Rep _ _ _ a => groupsOf a
  end.

(** Captures of the groups inside a quantified atom are reset at the start
    of each iteration. *)
Definition clearCaptures (gs : list nat) (st : mstate) : mstate :=
  MState (before st) (after st)
         (filter (fun e => negb (existsb (Nat.eqb (fst e)) gs)) (caps st)).

Definition orElse (a b : option mstate) : option mstate :=
  match a with Some x => Some x | None => b end.

Definition atBol (multiline : bool) (st : mstate) : bool :=
  match before st with
  | [] => true
  | c :: _ => multiline && isLineTerminator c
  end.

Definition atEol (multiline : bool) (st : mstate) : bool :=
  match after st with
  | [] => true
  | c :: _ => multiline && isLineTerminator c
  end.

Definition isZeroMax (mx : option nat) : bool :=
  match mx with Some O => true | _ => false end.

(** [RepeatMatcher]: [step] matches the atom once. An iteration that
    consumes nothing once the minimum is reached is rejected. [fuel]
    bounds the number of iterations; [min + length (after st) + 1] is
    always enough, and it is what [run] supplies. *)
Fixpoint repeatM (step : mstate -> cont -> option mstate) (gs : list nat)
    (greedy : bool) (fuel : nat) (mn : nat) (mx : option nat)
    (st : mstate) (k : cont) : option mstate :=
  match fuel with
  | O => None
  | S fuel' =>
      if isZeroMax mx then k st
      else
        let again :=
          step (clearCaptures gs st)
               (fun st' =>
                  if Nat.eqb mn 0
                     && Nat.eqb (length (after st')) (length (after st))
                  then None
                  else repeatM step gs greedy fuel' (pred mn)
                               (option_map pred mx) st' k) in
        if Nat.ltb 0 mn then again
        else if greedy then orElse again (k st)
        else orElse (k st) again
  end.

Fixpoint run (r : regex) (st : mstate) (k : cont) {struct r} : option mstate :=
  match r with
  | Chr c =>
      match after st with
      | x :: t => if N.eqb x c then k (advance x t st) else None
      | [] => None
      end
  | Cls negated ranges =>
      match after st with
      | x :: t => if classTest negated ranges x then k (advance x t st) else None
      | [] => None
      end
  | Seq a b => run a st (fun st' => run b st' k)
  | Alt a b => orElse (run a st k) (run b st k)
  | Grp n a => run a st (fun st' => k (setCapture n st st'))
  | NotAhead a =>
      match run a st Some with
      | Some _ => None
      | None => k st
      end
  | Rep greedy mn mx a =>
      repeatM (run a) (groupsOf a) greedy (mn + length (after st) + 1) mn mx st k
  | Bol multiline => if atBol multiline st then k st else None
  | Eol multiline => if atEol multiline st then k st else None
  end.

(** An atom that consumes exactly one unit accepted by [p]. *)
Definition unitStep (p : N -> bool) : mstate -> cont -> option mstate :=
  fun st k =>
    match after st with
    | x :: t => if p x then k (advance x t st) else None
    | [] => None
    end.

(** The quantifier on such an atom, by recursion on the text: no fuel. *)
Fixpoint repUnits (p : N -> bool) (greedy : bool) (mn : nat) (mx : option nat)
    (k : cont) (b a : list N) (cs : list (nat * jsstring)) {struct a}
  : option mstate :=
  let here := k (MState b a cs) in
  if isZeroMax mx then here
  else
    let again :=
      match a with
      | x :: t =>
          if p x
          then repUnits p greedy (pred mn) (option_map pred mx) k (x :: b) t cs
          else None
      | [] => None
      end in
    if Nat.ltb 0 mn then again
    else if greedy then orElse again here
    else orElse here again.

(** The result of [RegExp.prototype.exec]: the text before the match, the
    matched text, the text after it, and the captures. *)
Record matchResult : Type := MatchResult
  { m_pre : jsstring;
    m_text : jsstring;
    m_post : jsstring;
    m_caps : list (nat * jsstring) }.

Fixpoint lookupCapture (n : nat) (cs : list (nat * jsstring)) : option jsstring :=
  match cs with
  | [] => None
  | (i, t) :: cs' => if Nat.eqb i n then Some t else lookupCapture n cs'
  end.

(** [match[n]] for a pattern group [n >= 1]. *)
Definition group (n : nat) (m : matchResult) : option jsstring :=
  lookupCapture n (m_caps m).

(** The array of captures 1..[count], as [GetSubstitution] receives it. *)
Definition captureList (count : nat) (m : matchResult) : list (option jsstring) :=
  map (fun i => group (S i) m) (seq 0 count).

(** Try the pattern at the current position, then at each later one. *)
Fixpoint search (r : regex) (bef aft : list N) : option matchResult :=
  match run r (MState bef aft []) Some with
  | Some fin =>
      Some (MatchResult (rev bef)
                        (consumed (MState bef aft []) fin)
                        (after fin) (caps fin))
  | None =>
      match aft with
      | c :: t => search r (c :: bef) t
      | [] => None
      end
  end.

(** [exec] of a pattern without the [g] flag: the first match in [s]. *)
Definition exec (r : regex) (s : jsstring) : option matchResult :=
  search r [] s.

Definition test (r : regex) (s : jsstring) : bool :=
  match exec r s with Some _ => true | None => false end.

(** The loop of [String.prototype.match] for a pattern with the [g] flag:
    the matched texts, left to right. After an empty match the position
    advances by one unit. *)
Fixpoint matchLoop (fuel : nat) (r : regex) (bef aft : list N) : list jsstring :=
  match fuel with
  | O => []
  | S fuel' =>
      match search r bef aft with
      | None => []
      | Some m =>
          let bef' := rev (m_text m) ++ rev (m_pre m) in
          match m_text m, m_post m with
          | [], [] => [[]]
          | [], c :: t => [] :: matchLoop fuel' r (c :: bef') t
          | _ :: _, post => m_text m :: matchLoop fuel' r bef' post
          end
      end
  end.

(** [s.match(r)] with the [g] flag: [None] stands for [null]. *)
Definition matchGlobal (r : regex) (s : jsstring) : option (list jsstring) :=
  match matchLoop (S (length s)) r [] s with
  | [] => None
  | l => Some l
  end.

(** [s.replace(r, template)] for a pattern without the [g] flag and with
    [count] capturing groups. *)
Definition replaceRegex (r : regex) (count : nat) (s template : jsstring)
  : jsstring :=
  match exec r s with
  | Some m =>
      m_pre m
      ++ getSubstitution (m_text m) (m_pre m) (m_post m)
                         (captureList count m) template
      ++ m_post m
  | None => s
  end.

End Regex.

(* ================================================================= *)
(** ** The patterns and the script-text operations of [SourceMapUtil] *)

Module SourceMapText.
Import JS Regex.

(** [/^[a-zA-z]{2,}:\/\//] *)
Definition IS_REMOTE : regex :=
  Seq (Bol false)
      (Seq (Rep true 2 None (Cls false [(97, 122); (65, 122)]%N))
           (Lit (js "://"))).

(** [/\/\/(#|@) sourceMappingURL=((?!data:).+?)\s*$/m]; the same pattern
    carries the [g] flag in [SourceMapURLGlobalRegex]. *)
Definition SourceMapURLRegex : regex :=
  Seq (Lit (js "//"))
  (Seq (Grp 1 (Alt (Chr 35) (Chr 64)))
  (Seq (Lit (js " sourceMappingURL="))
  (Seq (Grp 2 (Seq (NotAhead (Lit (js "data:")))
                   (Rep false 1 None Dot)))
  (Seq (Rep true 0 None Space)
       (Eol true))))).

Definition SourceMapURLGlobalRegex : regex := SourceMapURLRegex.

(** [/^\/\/[#@] ?sourceURL=(.+)$/m] *)
Definition SourceURLRegex : regex :=
  Seq (Bol true)
  (Seq (Lit (js "//"))
  (Seq (Cls false [(35, 35); (64, 64)]%N)
  (Seq (Rep true 0 (Some 1) (Chr 32))
  (Seq (Lit (js "sourceURL="))
  (Seq (Grp 1 (Rep true 1 None Dot))
       (Eol true)))))).

(** Parts of the patterns above, named for the proofs. *)
Definition spacesThenEol : regex := Seq (Rep true 0 None Space) (Eol true).

Definition valuePattern : regex :=
  Seq (Grp 2 (Seq (NotAhead (Lit (js "data:"))) (Rep false 1 None Dot)))
      spacesThenEol.

Definition restOfLinePattern : regex :=
  Seq (Grp 1 (Rep true 1 None Dot)) (Eol true).

Definition getSourceMapRelativeUrl (body : jsstring) : option jsstring :=
  match matchGlobal SourceMapURLGlobalRegex body with
  | Some matchesList =>
      match exec SourceMapURLRegex (last matchesList []) with
      | Some sourceMapMatch => group 2 sourceMapMatch
      | None => None
      end
  | None => None
  end.

Definition appendSourceMapPaths (scriptBody sourceMappingUrl : jsstring)
  : jsstring :=
  scriptBody ++ js "//# sourceMappingURL=" ++ sourceMappingUrl.

Definition removeSourceURL (scriptBody : jsstring) : jsstring :=
  replaceRegex SourceURLRegex 1 scriptBody [].

End SourceMapText.

(* ================================================================= *)
(** ** [path.posix] *)

Module Path.
Import JS.

Definition slash : N := 47.
Definition dot : jsstring := [46%N].
Definition dotdot : jsstring := [46%N; 46%N].

Definition nonEmpty (s : jsstring) : bool :=
  match s with [] => false | _ :: _ => true end.

(** [normalizeString] on the segments of a path, kept most recent first in
    [stack]: empty and [.] segments are dropped, [..] removes the segment
    before it, or is kept when there is none and [allowAboveRoot] holds. *)
Fixpoint normalizeSegments (allowAboveRoot : bool) (stack segs : list jsstring)
  : list jsstring :=
  match segs with
  | [] => rev stack
  | seg :: rest =>
      if negb (nonEmpty seg) || eqb seg dot then
        normalizeSegments allowAboveRoot stack rest
      else if eqb seg dotdot then
        match stack with
        | top :: stack' =>
            if eqb top dotdot then
              normalizeSegments allowAboveRoot
                (if allowAboveRoot then dotdot :: stack else stack) rest
            else normalizeSegments allowAboveRoot stack' rest
        | [] =>
            normalizeSegments allowAboveRoot
              (if allowAboveRoot then [dotdot] else []) rest
        end
      else normalizeSegments allowAboveRoot (seg :: stack) rest
  end.

Definition normalizeString (path : jsstring) (allowAboveRoot : bool) : jsstring :=
  joinWith [slash] (normalizeSegments allowAboveRoot [] (splitOn slash path)).

Definition isAbsolute (path : jsstring) : bool :=
  match path with c :: _ => N.eqb c slash | [] => false end.

Definition endsWithSlash (path : jsstring) : bool :=
  match rev path with c :: _ => N.eqb c slash | [] => false end.

Definition normalize (path : jsstring) : jsstring :=
  match path with
  | [] => dot
  | _ :: _ =>
      let abs := isAbsolute path in
      let trailing := endsWithSlash path in
      match normalizeString path (negb abs) with
      | [] => if abs then [slash] else if trailing then js "./" else dot
      | p =>
          (if abs then [slash] else [])
          ++ p ++ (if trailing then [slash] else [])
      end
  end.

(** [path.posix.join(...args)]: the non-empty arguments joined by "/" and
    normalized; "." when there is nothing to join. *)
Definition join (args : list jsstring) : jsstring :=
  match filter nonEmpty args with
  | [] => dot
  | parts => normalize (joinWith [slash] parts)
  end.

(** [path.posix.resolve(path)] in a process whose working directory is
    [cwd]. *)
Definition resolve (cwd path : jsstring) : jsstring :=
  let step (p : jsstring) (acc : jsstring * bool) :=
    if snd acc || negb (nonEmpty p) then acc
    else (p ++ [slash] ++ fst acc, isAbsolute p) in
  let '(resolvedPath, resolvedAbsolute) := step cwd (step path ([], false)) in
  let normalized := normalizeString resolvedPath (negb resolvedAbsolute) in
  if resolvedAbsolute then slash :: normalized
  else if nonEmpty normalized then normalized else dot.

(** The segments of a resolved path. *)
Definition segments (path : jsstring) : list jsstring :=
  filter nonEmpty (splitOn slash path).

Fixpoint dropCommon (a b : list jsstring) : list jsstring * list jsstring :=
  match a, b with
  | x :: a', y :: b' => if eqb x y then dropCommon a' b' else (a, b)
  | _, _ => (a, b)
  end.

(** [path.posix.relative(from, to)]: both paths are resolved, the shared
    leading segments are dropped, and one [..] is emitted for each
    remaining segment of [from]. *)
Definition relative (cwd from to : jsstring) : jsstring :=
  if eqb from to then []
  else
    let '(up, down) :=
      dropCommon (segments (resolve cwd from)) (segments (resolve cwd to)) in
    joinWith [slash] (map (fun _ => dotdot) up ++ down).

Fixpoint dropWhileSlash (s : jsstring) : jsstring :=
  match s with
  | c :: s' => if N.eqb c slash then dropWhileSlash s' else s
  | [] => []
  end.

Fixpoint takeUntilSlash (s : jsstring) : jsstring :=
  match s with
  | c :: s' => if N.eqb c slash then [] else c :: takeUntilSlash s'
  | [] => []
  end.

(** [path.posix.basename(path)]: the last segment, trailing separators
    ignored. *)
Definition basename (path : jsstring) : jsstring :=
  rev (takeUntilSlash (dropWhileSlash (rev path))).

(** *** Segments in normal form *)

Definition noSlash (seg : jsstring) : bool :=
  forallb (fun c => negb (N.eqb c slash)) seg.

(** A segment as [normalizeString] leaves it in an absolute path: not
    empty, neither [.] nor [..], without separator. *)
Definition isNormal (seg : jsstring) : bool :=
  nonEmpty seg && negb (eqb seg dot) && negb (eqb seg dotdot) && noSlash seg.

(** The text [resolve] normalizes. *)
Definition resolveInput (cwd path : jsstring) : jsstring :=
  match path with
  | [] => cwd ++ [slash]
  | _ :: _ =>
      if isAbsolute path then path ++ [slash]
      else cwd ++ slash :: path ++ [slash]
  end.

(** The segments of [resolve cwd path] when [cwd] is absolute. *)
Definition resolvedSegments (cwd path : jsstring) : list jsstring :=
  normalizeSegments false [] (splitOn slash (resolveInput cwd path)).

(** [up] times [..]. *)
Definition ups (up : list jsstring) : list jsstring :=
  map (fun _ => dotdot) up.

(** [path.posix.resolve(...args)] in a process whose working directory is
    [cwd]: the arguments are read from the last one backwards until the
    path is absolute, the working directory after the first argument. *)
Definition resolveArgs (cwd : jsstring) (args : list jsstring) : jsstring :=
  let step (p : jsstring) (acc : jsstring * bool) :=
    if snd acc || negb (nonEmpty p) then acc
    else (p ++ [slash] ++ fst acc, isAbsolute p) in
  let '(resolvedPath, resolvedAbsolute) :=
    step cwd (fold_right step ([], false) args) in
  let normalized := normalizeString resolvedPath (negb resolvedAbsolute) in
  if resolvedAbsolute then slash :: normalized
  else if nonEmpty normalized then normalized else dot.

Fixpoint dropDotdots (segs : list jsstring) : list jsstring :=
  match segs with
  | seg :: rest => if eqb seg dotdot then dropDotdots rest else segs
  | [] => []
  end.

(** A relative path in normal form: [.], or some [..] segments followed
    by segments that are not empty and are neither [.] nor [..]. *)
Definition isRelativeForm (p : jsstring) : bool :=
  eqb p dot || forallb isNormal (dropDotdots (splitOn slash p)).

End Path.

(* ================================================================= *)
(** ** JSON values, [JSON.parse] and [JSON.stringify] *)

Module Json.
Import JS.

(** A number keeps the text of its literal: the module never computes with
    numbers. An object is the list of its own properties in property
    order. *)
#[local] Unset Elimination Schemes.
Inductive json : Type :=
| JNull
| JBool (b : bool)
| JNumber (literal : jsstring)
| JString (s : jsstring)
| JArray (items : list json)
| JObject (fields : list (jsstring * json)).
#[local] Set Elimination Schemes.

Inductive result (A : Type) : Type :=
| Ok (a : A)
| Throw.
Arguments Throw {A}.

Definition bind {A B : Type} (r : result A) (f : A -> result B) : result B :=
  match r with
  | Ok a => f a
  | Throw => Throw
  end.

Notation "x <- r ;; k" := (bind r (fun x => k))
  (at level 61, r at next level, right associativity).

Fixpoint mapM {A B : Type} (f : A -> result B) (l : list A) : result (list B) :=
  match l with
  | [] => Ok []
  | x :: l' => y <- f x ;; ys <- mapM f l' ;; Ok (y :: ys)
  end.

(** *** Property order of an ordinary object *)

Fixpoint digitsValue (acc : N) (s : jsstring) : option N :=
  match s with
  | [] => Some acc
  | c :: t => if isDigit c then digitsValue (acc * 10 + (c - 48)) t else None
  end.

(** A key is an array index when it is the canonical decimal form of an
    integer below 2^32 - 1. *)
Definition arrayIndex (key : jsstring) : option N :=
  match key with
  | [] => None
  | [c] => if isDigit c then Some (c - 48)%N else None
  | c :: _ =>
      if N.eqb c 48 then None
      else
        match digitsValue 0 key with
        | Some n => if N.ltb n 4294967295 then Some n else None
        | None => None
        end
  end.

Fixpoint lookup (key : jsstring) (fields : list (jsstring * json)) : option json :=
  match fields with
  | [] => None
  | (k, v) :: rest => if eqb k key then Some v else lookup key rest
  end.

Fixpoint replaceField (key : jsstring) (v : json) (fields : list (jsstring * json))
  : list (jsstring * json) :=
  match fields with
  | [] => []
  | (k, w) :: rest =>
      if eqb k key then (k, v) :: rest else (k, w) :: replaceField key v rest
  end.

(** A new index key goes before the first key that is not an index or is a
    larger index; a new string key goes last. *)
Fixpoint insertIndex (n : N) (key : jsstring) (v : json)
    (fields : list (jsstring * json)) : list (jsstring * json) :=
  match fields with
  | [] => [(key, v)]
  | (k, w) :: rest =>
      match arrayIndex k with
      | Some m =>
          if N.ltb m n then (k, w) :: insertIndex n key v rest
          else (key, v) :: fields
      | None => (key, v) :: fields
      end
  end.

(** [o[key] = v] on the own properties of an object. *)
Definition setField (key : jsstring) (v : json) (fields : list (jsstring * json))
  : list (jsstring * json) :=
  match lookup key fields with
  | Some _ => replaceField key v fields
  | None =>
      match arrayIndex key with
      | Some n => insertIndex n key v fields
      | None => fields ++ [(key, v)]
      end
  end.

(** [delete o[key]]: no property named [key] remains. *)
Definition deleteField (key : jsstring) (fields : list (jsstring * json))
  : list (jsstring * json) :=
  filter (fun kv => negb (eqb (fst kv) key)) fields.

(** *** [JSON.parse] *)

Definition isJsonSpace (c : N) : bool :=
  N.eqb c 32 || N.eqb c 9 || N.eqb c 10 || N.eqb c 13.

Fixpoint skipWs (s : jsstring) : jsstring :=
  match s with
  | c :: t => if isJsonSpace c then skipWs t else s
  | [] => []
  end.

Definition hexValue (c : N) : option N :=
  if isDigit c then Some (c - 48)%N
  else if N.leb 97 c && N.leb c 102 then Some (c - 87)%N
  else if N.leb 65 c && N.leb c 70 then Some (c - 55)%N
  else None.

Definition hex4 (a b c d : N) : option N :=
  match hexValue a, hexValue b, hexValue c, hexValue d with
  | Some x, Some y, Some z, Some w => Some (((x * 16 + y) * 16 + z) * 16 + w)%N
  | _, _, _, _ => None
  end.

Definition simpleEscape (c : N) : option N :=
  if N.eqb c 34 then Some 34%N
  else if N.eqb c 92 then Some 92%N
  else if N.eqb c 47 then Some 47%N
  else if N.eqb c 98 then Some 8%N
  else if N.eqb c 102 then Some 12%N
  else if N.eqb c 110 then Some 10%N
  else if N.eqb c 114 then Some 13%N
  else if N.eqb c 116 then Some 9%N
  else None.

(** The characters of a string literal after its opening quote; [acc]
    holds the value read so far, most recent unit first. *)
Fixpoint parseString (s : jsstring) (acc : jsstring) : option (jsstring * jsstring) :=
  match s with
  | [] => None
  | c :: t =>
      if N.eqb c 34 then Some (rev acc, t)
      else if N.ltb c 32 then None
      else if N.eqb c 92 then
        match t with
        | e :: t1 =>
            if N.eqb e 117 then
              match t1 with
              | h1 :: h2 :: h3 :: h4 :: t2 =>
                  match hex4 h1 h2 h3 h4 with
                  | Some u => parseString t2 (u :: acc)
                  | None => None
                  end
              | _ => None
              end
            else
              match simpleEscape e with
              | Some u => parseString t1 (u :: acc)
              | None => None
              end
        | [] => None
        end
      else parseString t (c :: acc)
  end.

Fixpoint spanDigits (s : jsstring) : jsstring * jsstring :=
  match s with
  | c :: t =>
      if isDigit c then let '(ds, r) := spanDigits t in (c :: ds, r)
      else ([], s)
  | [] => ([], [])
  end.

(** The JSON number grammar: an optional minus sign, an integer part
    without leading zero, an optional fraction, an optional exponent. *)
Definition parseNumber (s : jsstring) : option (jsstring * jsstring) :=
  let '(sign, s1) :=
    match s with
    | c :: t => if N.eqb c 45 then ([c], t) else ([], s)
    | [] => ([], s)
    end in
  let intPart :=
    match s1 with
    | c :: t =>
        if N.eqb c 48 then Some ([c], t)
        else if isDigit c then let '(ds, r) := spanDigits t in Some (c :: ds, r)
        else None
    | [] => None
    end in
  match intPart with
  | None => None
  | Some (int, s2) =>
      let fracPart :=
        match s2 with
        | c :: t =>
            if N.eqb c 46 then
              match spanDigits t with
              | ([], _) => None
              | (ds, r) => Some (c :: ds, r)
              end
            else Some ([], s2)
        | [] => Some ([], s2)
        end in
      match fracPart with
      | None => None
      | Some (frac, s3) =>
          let expPart :=
            match s3 with
            | c :: t =>
                if N.eqb c 101 || N.eqb c 69 then
                  let '(esign, t1) :=
                    match t with
                    | d :: t' =>
                        if N.eqb d 43 || N.eqb d 45 then ([d], t') else ([], t)
                    | [] => ([], t)
                    end in
                  match spanDigits t1 with
                  | ([], _) => None
                  | (ds, r) => Some (c :: esign ++ ds, r)
                  end
                else Some ([], s3)
            | [] => Some ([], s3)
            end in
          match expPart with
          | None => None
          | Some (ex, s4) => Some (sign ++ int ++ frac ++ ex, s4)
          end
      end
  end.

Definition parseLiteral (name : jsstring) (v : json) (s : jsstring)
  : option (json * jsstring) :=
  match strip name s with
  | Some r => Some (v, r)
  | None => None
  end.

(** Recursive descent over the JSON grammar. Each call uses one unit of
    [fuel]; a text of [n] units needs at most [2 * n + 1]. *)
Fixpoint parseValue (fuel : nat) (s : jsstring) : option (json * jsstring) :=
  match fuel with
  | O => None
  | S fuel' =>
      match skipWs s with
      | [] => None
      | c :: t =>
          if N.eqb c 34 then
            match parseString t [] with
            | Some (str, r) => Some (JString str, r)
            | None => None
            end
          else if N.eqb c 91 then
            match skipWs t with
            | d :: r =>
                if N.eqb d 93 then Some (JArray [], r)
                else parseElements fuel' t []
            | [] => None
            end
          else if N.eqb c 123 then
            match skipWs t with
            | d :: r =>
                if N.eqb d 125 then Some (JObject [], r)
                else parseMembers fuel' t []
            | [] => None
            end
          else if N.eqb c 116 then parseLiteral (js "true") (JBool true) (c :: t)
          else if N.eqb c 102 then parseLiteral (js "false") (JBool false) (c :: t)
          else if N.eqb c 110 then parseLiteral (js "null") JNull (c :: t)
          else
            match parseNumber (c :: t) with
            | Some (lit, r) => Some (JNumber lit, r)
            | None => None
            end
      end
  end
with parseElements (fuel : nat) (s : jsstring) (acc : list json)
  : option (json * jsstring) :=
  match fuel with
  | O => None
  | S fuel' =>
      match parseValue fuel' s with
      | None => None
      | Some (v, r) =>
          match skipWs r with
          | d :: r' =>
              if N.eqb d 44 then parseElements fuel' r' (v :: acc)
              else if N.eqb d 93 then Some (JArray (rev (v :: acc)), r')
              else None
          | [] => None
          end
      end
  end
with parseMembers (fuel : nat) (s : jsstring) (acc : list (jsstring * json))
  : option (json * jsstring) :=
  match fuel with
  | O => None
  | S fuel' =>
      match skipWs s with
      | q :: t =>
          if N.eqb q 34 then
            match parseString t [] with
            | None => None
            | Some (key, r) =>
                match skipWs r with
                | colon :: r1 =>
                    if N.eqb colon 58 then
                      match parseValue fuel' r1 with
                      | None => None
                      | Some (v, r2) =>
                          match skipWs r2 with
                          | d :: r3 =>
                              if N.eqb d 44 then
                                parseMembers fuel' r3 (setField key v acc)
                              else if N.eqb d 125 then
                                Some (JObject (setField key v acc), r3)
                              else None
                          | [] => None
                          end
                      end
                    else None
                | [] => None
                end
            end
          else None
      | [] => None
      end
  end.

(** [JSON.parse(text)]: [Throw] stands for the [SyntaxError]. *)
Definition parse (text : jsstring) : result json :=
  match parseValue (2 * length text + 1) text with
  | Some (v, r) =>
      match skipWs r with
      | [] => Ok v
      | _ :: _ => Throw
      end
  | None => Throw
  end.

(** *** [JSON.stringify] *)

Definition hexDigit (n : N) : N :=
  if N.ltb n 10 then (48 + n)%N else (87 + n)%N.

Definition unicodeEscape (c : N) : jsstring :=
  [92; 117; hexDigit (c / 4096); hexDigit ((c / 256) mod 16);
   hexDigit ((c / 16) mod 16); hexDigit (c mod 16)]%N.

Definition isHighSurrogate (c : N) : bool := N.leb 55296 c && N.leb c 56319.
Definition isLowSurrogate (c : N) : bool := N.leb 56320 c && N.leb c 57343.

(** [QuoteJSONString] without the surrounding quotes. *)
Fixpoint quoteUnits (s : jsstring) : jsstring :=
  match s with
  | [] => []
  | c :: t =>
      if N.eqb c 34 then [92; 34]%N ++ quoteUnits t
      else if N.eqb c 92 then [92; 92]%N ++ quoteUnits t
      else if N.eqb c 8 then [92; 98]%N ++ quoteUnits t
      else if N.eqb c 12 then [92; 102]%N ++ quoteUnits t
      else if N.eqb c 10 then [92; 110]%N ++ quoteUnits t
      else if N.eqb c 13 then [92; 114]%N ++ quoteUnits t
      else if N.eqb c 9 then [92; 116]%N ++ quoteUnits t
      else if N.ltb c 32 then unicodeEscape c ++ quoteUnits t
      else if isHighSurrogate c then
        match t with
        | d :: t' =>
            if isLowSurrogate d then c :: d :: quoteUnits t'
            else unicodeEscape c ++ quoteUnits t
        | [] => unicodeEscape c
        end
      else if isLowSurrogate c then unicodeEscape c ++ quoteUnits t
      else c :: quoteUnits t
  end.

Definition quote (s : jsstring) : jsstring := [34%N] ++ quoteUnits s ++ [34%N].

Section Numbers.

(** [Number::toString] of the value of a number literal: a primitive of
    the platform. *)
Variable numberToString : jsstring -> jsstring.

(** A number that is not finite is serialized as [null]. *)
Definition numberToJSON (lit : jsstring) : jsstring :=
  let t := numberToString lit in
  if eqb t (js "Infinity") || eqb t (js "-Infinity") || eqb t (js "NaN")
  then js "null" else t.

Fixpoint stringify (v : json) : jsstring :=
  match v with
  | JNull => js "null"
  | JBool true => js "true"
  | JBool false => js "false"
  | JNumber lit => numberToJSON lit
  | JString s => quote s
  | JArray items => [91%N] ++ joinWith [44%N] (map stringify items) ++ [93%N]
  | JObject fields =>
      [123%N]
      ++ joinWith [44%N]
           (map (fun kv => match kv with
                           | (k, w) => quote k ++ [58%N] ++ stringify w
                           end) fields)
      ++ [125%N]
  end.

(** [ToBoolean]. *)
Definition toBoolean (v : json) : bool :=
  match v with
  | JNull => false
  | JBool b => b
  | JNumber lit => negb (eqb (numberToString lit) (js "0")
                         || eqb (numberToString lit) (js "NaN"))
  | JString s => match s with [] => false | _ :: _ => true end
  | JArray _ | JObject _ => true
  end.

(** [ToString]: an array is the join of its elements, where [null] reads
    as the empty string. *)
Fixpoint toString (v : json) : jsstring :=
  match v with
  | JNull => js "null"
  | JBool true => js "true"
  | JBool false => js "false"
  | JNumber lit => numberToString lit
  | JString s => s
  | JArray items =>
      joinWith [44%N]
        (map (fun e => match e with JNull => [] | _ => toString e end) items)
  | JObject _ => js "[object Object]"
  end.

End Numbers.

(** The three fields the rewrite sets: no [sourcesContent], an empty
    [sourceRoot], and [file] equal to [scriptPath]. *)
Definition isRewrittenMap (scriptPath : jsstring) (v : json) : bool :=
  match v with
  | JObject fields =>
      match lookup (js "sourcesContent") fields,
            lookup (js "sourceRoot") fields,
            lookup (js "file") fields with
      | None, Some (JString []), Some (JString f) => eqb f scriptPath
      | _, _, _ => false
      end
  | _ => false
  end.

(** *** Property access on parsed values *)

(** What [v.name] evaluates to. [Inherited] is a method found on the
    prototype of an array. *)
Inductive property : Type :=
| Undefined
| Own (v : json)
| Inherited.

(** Of the names the module reads ([sections], [sources], [map],
    [filter]), the ones a prototype provides: [Array.prototype.map] and
    [Array.prototype.filter]. *)
Definition isArrayMethod (name : jsstring) : bool :=
  eqb name (js "map") || eqb name (js "filter").

(** [v.name]: reading a property of [null] throws. *)
Definition getProperty (v : json) (name : jsstring) : result property :=
  match v with
  | JNull => Throw
  | JObject fields =>
      Ok (match lookup name fields with Some w => Own w | None => Undefined end)
  | JArray _ => Ok (if isArrayMethod name then Inherited else Undefined)
  | JBool _ | JNumber _ | JString _ => Ok Undefined
  end.

(** [v.name = w] in strict code: it throws on [null] and on a primitive;
    on an array it adds a property that [JSON.stringify] does not print. *)
Definition setProperty (v : json) (name : jsstring) (w : json) : result json :=
  match v with
  | JObject fields => Ok (JObject (setField name w fields))
  | JArray _ => Ok v
  | JNull | JBool _ | JNumber _ | JString _ => Throw
  end.

(** [delete v.name]. *)
Definition deleteProperty (v : json) (name : jsstring) : result json :=
  match v with
  | JObject fields => Ok (JObject (deleteField name fields))
  | JNull => Throw
  | JArray _ | JBool _ | JNumber _ | JString _ => Ok v
  end.

End Json.

(* ================================================================= *)
(** ** [url] *)

Module Url.
Import JS.

(** The fields of a [url.Url] object; [None] stands for [null] or a
    missing field. *)
Record Url : Type := MkUrl
  { protocol : option jsstring;
    slashes : option bool;
    auth : option jsstring;
    host : option jsstring;
    port : option jsstring;
    hostname : option jsstring;
    hash : option jsstring;
    search : option jsstring;
    query : option jsstring;
    pathname : option jsstring;
    path : option jsstring;
    href : option jsstring }.

Definition withProtocolAndHost (u : Url) (p h : option jsstring) : Url :=
  MkUrl p (slashes u) (auth u) h (port u) (hostname u) (hash u)
        (search u) (query u) (pathname u) (path u) (href u).

(** [IStrictUrl]: a [url.Url] whose [pathname] and [href] are strings. *)
Record IStrictUrl : Type := MkStrictUrl
  { strict_url : Url;
    strict_pathname : jsstring;
    strict_href : jsstring }.

End Url.

(* ================================================================= *)
(** ** [SourceMapUtil] *)

Module SourceMapUtil.
Import JS Regex SourceMapText Path Json Url.

Section Util.

(** The environment of the module: the working directory of the process,
    the number printer, the two source-map collaborators
    ([flatten-source-map] and [SourceMapsCombinator.convert]) and the
    legacy URL functions of the platform. *)
Variable cwd : jsstring.
Variable numberToString : jsstring -> jsstring.
Variable flattenSourceMap : json -> result json.
Variable convert : json -> result json.
Variable url_parse : jsstring -> Url.
Variable url_format : Url -> jsstring.

Definition truthy (p : property) : bool :=
  match p with
  | Undefined => false
  | Own v => toBoolean numberToString v
  | Inherited => true
  end.

Definition makeUnixStylePath (p : jsstring) : jsstring :=
  let pathArgs := splitOn slash p in
  join pathArgs.

(** An optional string argument is truthy when it is given and not empty. *)
Definition given (arg : option jsstring) : option jsstring :=
  match arg with
  | Some (c :: t) => Some (c :: t)
  | _ => None
  end.

Definition updateSourceMapPath (sourcePath sourcesRootPath : jsstring)
    (packagerRemoteRoot packagerLocalRoot : option jsstring) : jsstring :=
  let sourcePath :=
    match given packagerRemoteRoot, given packagerLocalRoot with
    | Some remote, Some local =>
        let packagerRemoteRoot := makeUnixStylePath remote in
        let packagerLocalRoot := makeUnixStylePath local in
        replaceString sourcePath packagerRemoteRoot packagerLocalRoot
    | _, _ => sourcePath
    end in
  let relativeSourcePath := relative cwd sourcesRootPath sourcePath in
  makeUnixStylePath relativeSourcePath.

(** The callback of [sections.filter]: [value.map != null]. *)
Definition hasMap (value : json) : result bool :=
  p <- getProperty value (js "map") ;;
  Ok (match p with
      | Undefined | Own JNull => false
      | Own _ | Inherited => true
      end).

Fixpoint filterM (f : json -> result bool) (l : list json) : result (list json) :=
  match l with
  | [] => Ok []
  | x :: l' =>
      keep <- f x ;;
      rest <- filterM f l' ;;
      Ok (if keep then x :: rest else rest)
  end.

(** The callback of [sources.map]. [IS_REMOTE.test] converts its argument
    with [ToString]; the path functions throw on anything that is not a
    string. *)
Definition rewriteSource (sourcesRootPath : jsstring)
    (packagerRemoteRoot packagerLocalRoot : option jsstring)
    (sourcePath : json) : result json :=
  if test IS_REMOTE (toString numberToString sourcePath) then Ok sourcePath
  else
    match sourcePath with
    | JString p =>
        Ok (JString (updateSourceMapPath p sourcesRootPath
                       packagerRemoteRoot packagerLocalRoot))
    | _ => Throw
    end.

(** The body of the [try] block of [updateSourceMapFile], up to the call
    of [JSON.stringify]. *)
Definition updateSourceMapDocument (sourceMapBody scriptPath sourcesRootPath : jsstring)
    (packagerRemoteRoot packagerLocalRoot : option jsstring) : result json :=
  sourceMap <- parse sourceMapBody ;;
  sections <- getProperty sourceMap (js "sections") ;;
  sourceMap <-
    (if truthy sections then
       match sections with
       | Own (JArray items) =>
           kept <- filterM hasMap items ;;
           sourceMap <- setProperty sourceMap (js "sections") (JArray kept) ;;
           flattenSourceMap sourceMap
       | _ => Throw
       end
     else Ok sourceMap) ;;
  sourceMap <- convert sourceMap ;;
  sources <- getProperty sourceMap (js "sources") ;;
  sourceMap <-
    (if truthy sources then
       match sources with
       | Own (JArray items) =>
           items' <- mapM (rewriteSource sourcesRootPath
                             packagerRemoteRoot packagerLocalRoot) items ;;
           setProperty sourceMap (js "sources") (JArray items')
       | _ => Throw
       end
     else Ok sourceMap) ;;
  sourceMap <- deleteProperty sourceMap (js "sourcesContent") ;;
  sourceMap <- setProperty sourceMap (js "sourceRoot") (JString []) ;;
  sourceMap <- setProperty sourceMap (js "file") (JString scriptPath) ;;
  Ok sourceMap.

Definition updateSourceMapFile (sourceMapBody scriptPath sourcesRootPath : jsstring)
    (packagerRemoteRoot packagerLocalRoot : option jsstring) : jsstring :=
  match updateSourceMapDocument sourceMapBody scriptPath sourcesRootPath
          packagerRemoteRoot packagerLocalRoot with
  | Ok sourceMap => stringify numberToString sourceMap
  | Throw => sourceMapBody
  end.

(** The two halves of the rewrite on the fields of an object, named for
    the proofs: the [sources] step and the three final statements. *)
Definition rewriteSourcesFields (sourcesRootPath : jsstring)
    (packagerRemoteRoot packagerLocalRoot : option jsstring)
    (fields : list (jsstring * json)) : result (list (jsstring * json)) :=
  match lookup (js "sources") fields with
  | Some w =>
      if toBoolean numberToString w then
        match w with
        | JArray items =>
            items' <- mapM (rewriteSource sourcesRootPath
                              packagerRemoteRoot packagerLocalRoot) items ;;
            Ok (setField (js "sources") (JArray items') fields)
        | _ => Throw
        end
      else Ok fields
  | None => Ok fields
  end.

Definition finalFields (scriptPath : jsstring) (fields : list (jsstring * json))
  : list (jsstring * json) :=
  setField (js "file") (JString scriptPath)
    (setField (js "sourceRoot") (JString [])
       (deleteField (js "sourcesContent") fields)).

(** Both packager roots are given and not empty. *)
Definition bothGiven (packagerRemoteRoot packagerLocalRoot : option jsstring)
  : bool :=
  match given packagerRemoteRoot, given packagerLocalRoot with
  | Some _, Some _ => true
  | _, _ => false
  end.

(** The working directory of the process is the sources root. *)
Definition atSourcesRoot (sourcesRootPath : jsstring) : bool :=
  isAbsolute cwd && eqb (resolve cwd sourcesRootPath) (resolve cwd []).

Definition updateScriptPaths (scriptBody : jsstring) (sourceMappingUrl : IStrictUrl)
  : jsstring :=
  replaceRegex SourceMapURLRegex 2 scriptBody
    (js "//# sourceMappingURL=" ++ basename (strict_pathname sourceMappingUrl)).

(** The object is returned under an unchecked cast to [IStrictUrl]. *)
Definition getSourceMapURL (scriptUrl : Url) (scriptBody : jsstring) : option Url :=
  match getSourceMapRelativeUrl scriptBody with
  | Some (c :: t) =>
      let sourceMappingUrl := url_parse (c :: t) in
      let sourceMappingUrl :=
        withProtocolAndHost sourceMappingUrl (protocol scriptUrl) (host scriptUrl) in
      Some (url_parse (url_format sourceMappingUrl))
  | _ => None
  end.

(** What the callback of [sources.map] makes of an entry that is a
    string. *)
Definition rewriteSourcePath (sourcesRootPath : jsstring)
    (packagerRemoteRoot packagerLocalRoot : option jsstring)
    (sourcePath : jsstring) : jsstring :=
  if test IS_REMOTE sourcePath then sourcePath
  else updateSourceMapPath sourcePath sourcesRootPath
         packagerRemoteRoot packagerLocalRoot.

(** [value.map != null] on a section that is not [null]; an array has the
    method [map] of its prototype. *)
Definition keepsSection (value : json) : bool :=
  match value with
  | JObject fields =>
      match lookup (js "map") fields with
      | Some JNull | None => false
      | Some _ => true
      end
  | JArray _ => true
  | JNull | JBool _ | JNumber _ | JString _ => false
  end.

(** The document [flatten-source-map] is called with. *)
Definition filteredSections (fields : list (jsstring * json)) (items : list json)
  : json :=
  JObject (setField (js "sections") (JArray (filter keepsSection items)) fields).

End Util.

End SourceMapUtil.

(* ================================================================= *)
(** ** The three patterns read as text functions

    What each pattern matches at a position, written directly on the
    text. The theorems below prove that the matcher computes them. *)

Module Direct.
Import JS Regex SourceMapText.

Definition isMarker (c : N) : bool := N.eqb c 35 || N.eqb c 64.

(** [\s*$]: the longest run of white space that stops at the end of the
    text or in front of a line terminator; the run and the text left. *)
Fixpoint spacesToEol (r : jsstring) : option (jsstring * jsstring) :=
  match r with
  | [] => Some ([], [])
  | c :: t =>
      if isWhiteSpace c then
        match spacesToEol t with
        | Some (w, post) => Some (c :: w, post)
        | None => if isLineTerminator c then Some ([], r) else None
        end
      else if isLineTerminator c then Some ([], r) else None
  end.

(** [.+?] after its first unit, followed by [\s*$]: the shortest run of
    units of the line after which only white space is left on it. *)
Fixpoint lazyValue (r : jsstring) : option (jsstring * jsstring * jsstring) :=
  match spacesToEol r with
  | Some (w, post) => Some ([], w, post)
  | None =>
      match r with
      | c :: t =>
          if isLineTerminator c then None
          else
            match lazyValue t with
            | Some (v, w, post) => Some (c :: v, w, post)
            | None => None
            end
      | [] => None
      end
  end.

(** A map reference that starts at the head of [a]: its marker, its
    value, the white space swallowed after the value, and the text left. *)
Definition referenceAt (a : jsstring)
  : option (N * jsstring * jsstring * jsstring) :=
  match strip (js "//") a with
  | Some (m :: r) =>
      if isMarker m then
        match strip (js " sourceMappingURL=") r with
        | Some rest =>
            if startsWith rest (js "data:") then None
            else
              match rest with
              | c :: t =>
                  if isLineTerminator c then None
                  else
                    match lazyValue t with
                    | Some (v, w, post) => Some (m, c :: v, w, post)
                    | None => None
                    end
              | [] => None
              end
        | None => None
        end
      else None
  | _ => None
  end.

(** The text of a reference. *)
Definition referenceText (m : N) (v w : jsstring) : jsstring :=
  js "//" ++ [m] ++ js " sourceMappingURL=" ++ v ++ w.

(** The first reference of a text: the text before it and its parts. *)
Fixpoint firstReference (a : jsstring)
  : option (jsstring * (N * jsstring * jsstring * jsstring)) :=
  match referenceAt a with
  | Some ref => Some ([], ref)
  | None =>
      match a with
      | c :: t =>
          match firstReference t with
          | Some (pre, ref) => Some (c :: pre, ref)
          | None => None
          end
      | [] => None
      end
  end.

(** The references the scan of [String.prototype.match] finds, left to
    right: each search starts where the previous reference ended. *)
Fixpoint scanReferences (fuel : nat) (a : jsstring)
  : list (N * jsstring * jsstring) :=
  match fuel with
  | O => []
  | S fuel' =>
      match firstReference a with
      | Some (_, (m, v, w, post)) => (m, v, w) :: scanReferences fuel' post
      | None => []
      end
  end.

Definition referenceValue (ref : N * jsstring * jsstring) : jsstring :=
  snd (fst ref).

(** *** Lines *)

(** The first line of a text, and the text from its terminator on. *)
Fixpoint lineOf (s : jsstring) : jsstring :=
  match s with
  | c :: t => if isLineTerminator c then [] else c :: lineOf t
  | [] => []
  end.

Fixpoint lineRest (s : jsstring) : jsstring :=
  match s with
  | c :: t => if isLineTerminator c then s else lineRest t
  | [] => []
  end.

Definition isSome {A : Type} (o : option A) : bool :=
  match o with Some _ => true | None => false end.

(** The text is empty or starts with a line terminator. *)
Definition endsLine (post : jsstring) : bool :=
  match post with
  | c :: _ => isLineTerminator c
  | [] => true
  end.

Definition noTerminator (l : jsstring) : bool :=
  forallb (fun c => negb (isLineTerminator c)) l.

(** A text as its first line and the later lines, each with the
    terminator in front of it. *)
Fixpoint textLines (s : jsstring) : jsstring * list (N * jsstring) :=
  match s with
  | [] => ([], [])
  | c :: t =>
      let '(l, ls) := textLines t in
      if isLineTerminator c then ([], (c, l) :: ls) else (c :: l, ls)
  end.

Definition joinLines (first : jsstring) (later : list (N * jsstring)) : jsstring :=
  first ++ flat_map (fun p => fst p :: snd p) later.

(** The contents of the lines, in order. *)
Definition lineTexts (s : jsstring) : list jsstring :=
  fst (textLines s) :: map snd (snd (textLines s)).

(** *** The [sourceURL] comment *)

(** The text after [sourceURL=] when [r] is what follows the marker. *)
Definition sourceURLValue (r : jsstring) : option jsstring :=
  match strip (js " sourceURL=") r with
  | Some x => Some x
  | None => strip (js "sourceURL=") r
  end.

(** A [sourceURL] comment that starts at the head of [a] and runs to the
    end of the line: the comment and the text left. *)
Definition sourceURLAt (a : jsstring) : option (jsstring * jsstring) :=
  match strip (js "//") a with
  | Some (m :: r) =>
      if isMarker m then
        match sourceURLValue r with
        | Some (c :: _) =>
            if isLineTerminator c then None else Some (lineOf a, lineRest a)
        | _ => None
        end
      else None
  | _ => None
  end.

(** The first [sourceURL] comment that starts a line: the text before it
    and the text after it. [start] tells whether the head of [a] starts a
    line. *)
Fixpoint firstSourceURL (start : bool) (a : jsstring)
  : option (jsstring * jsstring) :=
  match (if start then sourceURLAt a else None) with
  | Some (_, post) => Some ([], post)
  | None =>
      match a with
      | c :: t =>
          match firstSourceURL (isLineTerminator c) t with
          | Some (pre, post) => Some (c :: pre, post)
          | None => None
          end
      | [] => None
      end
  end.

(** The line is a [sourceURL] comment: [//#] or [//@], an optional space,
    [sourceURL=] and a value that is not empty. *)
Definition isSourceURLLine (l : jsstring) : bool :=
  match sourceURLAt l with Some _ => true | None => false end.

(** Empty the first of the later lines that satisfies [p]. *)
Fixpoint blankFirst (p : jsstring -> bool) (ls : list (N * jsstring))
  : list (N * jsstring) :=
  match ls with
  | [] => []
  | (c, l) :: rest => if p l then (c, []) :: rest else (c, l) :: blankFirst p rest
  end.

(** [stripSourceURLComment] of the specification: the text of the first
    line that is a [sourceURL] comment is replaced by the empty string. *)
Definition stripSourceURLComment (body : jsstring) : jsstring :=
  let '(l, ls) := textLines body in
  if isSourceURLLine l then joinLines [] ls
  else joinLines l (blankFirst isSourceURLLine ls).

(** *** The map reference of a line *)

(** [s] without the white space at its end. *)
Fixpoint trimEnd (s : jsstring) : jsstring :=
  match s with
  | [] => []
  | c :: t =>
      match trimEnd t with
      | [] => if isWhiteSpace c then [] else [c]
      | t' => c :: t'
      end
  end.

Fixpoint trimStart (s : jsstring) : jsstring :=
  match s with
  | c :: t => if isWhiteSpace c then trimStart t else s
  | [] => []
  end.

(** The value the pattern captures from the text [rest] that follows
    [sourceMappingURL=] on a line: [rest] without the white space at its
    end, except that its first unit is always kept. *)
Definition capturedValue (rest : jsstring) : option jsstring :=
  match rest with
  | c :: t => Some (c :: trimEnd t)
  | [] => None
  end.

(** A reference that starts at the head of the line text [l]. *)
Definition lineReferenceAt (l : jsstring) : option jsstring :=
  match strip (js "//") l with
  | Some (m :: r) =>
      if isMarker m then
        match strip (js " sourceMappingURL=") r with
        | Some rest =>
            if startsWith rest (js "data:") then None else capturedValue rest
        | None => None
        end
      else None
  | _ => None
  end.

(** The value of the first reference on a line. *)
Fixpoint lineReference (l : jsstring) : option jsstring :=
  match lineReferenceAt l with
  | Some v => Some v
  | None =>
      match l with
      | _ :: t => lineReference t
      | [] => None
      end
  end.

Fixpoint lastSome {A : Type} (l : list (option A)) : option A :=
  match l with
  | [] => None
  | x :: l' =>
      match lastSome l' with
      | Some y => Some y
      | None => x
      end
  end.

(** The value of the reference of the last line that has one. *)
Definition lastReference (body : jsstring) : option jsstring :=
  lastSome (map lineReference (lineTexts body)).

(** The locator as the specification words it: the value of the same
    line, with the white space on both sides removed. *)
Definition statedReference (body : jsstring) : option jsstring :=
  option_map trimStart (lastReference body).

(** *** The remote-scheme pattern as the specification words it *)

(** [/^[A-Za-z]{2,}:\/\//]: at least two ASCII letters, then [://]. *)
Definition IS_REMOTE_stated : regex :=
  Seq (Bol false)
      (Seq (Rep true 2 None (Cls false [(65, 90); (97, 122)]%N))
           (Lit (js "://"))).

(** *** The remote-scheme pattern of the code as a text function *)

(** The class [a-zA-z]: the units from [A] to [z]. *)
Definition isSchemeUnit (c : N) : bool := inRanges [(97, 122); (65, 122)]%N c.

Fixpoint dropScheme (s : jsstring) : jsstring :=
  match s with
  | c :: t => if isSchemeUnit c then dropScheme t else s
  | [] => []
  end.

(** Two or more units of the class at the start of the text, then [://]. *)
Definition isRemote (s : jsstring) : bool :=
  match s with
  | c :: d :: t =>
      isSchemeUnit c && isSchemeUnit d && startsWith (dropScheme t) (js "://")
  | _ => false
  end.

(** *** Texts a reference can be built from *)

(** The text is empty or ends with a line terminator. *)
Definition lineComplete (body : jsstring) : bool :=
  match rev body with
  | c :: _ => isLineTerminator c
  | [] => true
  end.

(** A text the pattern reads as a value when it ends a line: not empty,
    on one line, not starting with [data:]. *)
Definition isReferenceValue (v : jsstring) : bool :=
  match v with
  | [] => false
  | _ :: _ => noTerminator v && negb (startsWith v (js "data:"))
  end.

(** Empty the first line that satisfies [p]. *)
Fixpoint blankFirstLine (p : jsstring -> bool) (ls : list jsstring)
  : list jsstring :=
  match ls with
  | [] => []
  | l :: rest => if p l then [] :: rest else l :: blankFirstLine p rest
  end.

End Direct.

(* ================================================================= *)
(** ** An environment for the examples *)

Module Examples.
Import JS Json.

(** The working directory of the process. *)
Definition workDir : jsstring := js "/work".

(** The number printer on literals that are already in the form
    [Number::toString] prints, such as [3]. *)
Definition plainNumber (lit : jsstring) : jsstring := lit.

(** The examples have no [sections]: the flattening routine is never
    reached. *)
Definition noFlatten (sourceMap : json) : result json := Throw.

(** Modelled from the spec: [SourceMapsCombinator.convert] is not part of
    the sources at hand; the specification describes it as a normalizing
    step that is idempotent on a document that is already flat. On the
    flat documents of the examples it hands the document back. *)
Definition flatConvert (sourceMap : json) : result json := Ok sourceMap.

(** A location whose [pathname] is [/maps/new.map]. *)
Definition newMapLocation : Url.IStrictUrl :=
  Url.MkStrictUrl
    (Url.MkUrl (Some (js "http:")) (Some true) None (Some (js "localhost:8081"))
       (Some (js "8081")) (Some (js "localhost")) None None None
       (Some (js "/maps/new.map")) (Some (js "/maps/new.map"))
       (Some (js "http://localhost:8081/maps/new.map")))
    (js "/maps/new.map")
    (js "http://localhost:8081/maps/new.map").

End Examples.

(* ================================================================= *)
(** * Properties *)

Unset Implicit Arguments.

(** ** Strings *)

Module JSFacts.
Import JS.

Lemma eqb_refl (a : jsstring) : eqb a a = true.
Proof.
  induction a as [|x a IH]; simpl; [reflexivity|].
  now rewrite N.eqb_refl, IH.
Qed.

Lemma eqb_eq (a b : jsstring) : eqb a b = true <-> a = b.
Proof.
  split.
  - revert b; induction a as [|x a IH]; intros [|y b]; simpl; try discriminate;
      [reflexivity|].
    intros H. apply andb_true_iff in H as [Hx Hab].
    apply N.eqb_eq in Hx. apply IH in Hab. now subst.
  - intros ->. apply eqb_refl.
Qed.

Lemma eqb_neq (a b : jsstring) : eqb a b = false <-> a <> b.
Proof.
  split.
  - intros H E. apply eqb_eq in E. congruence.
  - intros H. destruct (eqb a b) eqn:E; [|reflexivity].
    apply eqb_eq in E. contradiction.
Qed.

Lemma strip_app (p t : jsstring) : strip p (p ++ t) = Some t.
Proof.
  induction p as [|x p IH]; simpl; [reflexivity|].
  now rewrite N.eqb_refl.
Qed.

Lemma strip_Some (p s t : jsstring) : strip p s = Some t <-> s = p ++ t.
Proof.
  split.
  - revert s; induction p as [|x p IH]; intros s; simpl.
    + now intros [= ->].
    + destruct s as [|y s]; [discriminate|].
      destruct (N.eqb x y) eqn:E; [|discriminate].
      apply N.eqb_eq in E; subst y. intros H. now rewrite (IH _ H).
  - intros ->. apply strip_app.
Qed.

Lemma strip_None (p s : jsstring) :
  strip p s = None <-> forall t, s <> p ++ t.
Proof.
  split.
  - intros H t E. apply strip_Some in E. congruence.
  - intros H. destruct (strip p s) as [t|] eqn:E; [|reflexivity].
    apply strip_Some in E. now apply H in E.
Qed.

(** [splitAtFirst] finds the leftmost occurrence of the pattern. *)
Lemma splitAtFirst_Some (pat s pre post : jsstring) :
  splitAtFirst pat s = Some (pre, post) ->
  s = pre ++ pat ++ post /\
  forall pre' post', s = pre' ++ pat ++ post' -> length pre <= length pre'.
Proof.
  revert pre post; induction s as [|c s IH]; intros pre post; simpl.
  - destruct (strip pat []) as [r|] eqn:E; [|discriminate].
    intros [= <- <-]. apply strip_Some in E. split; [exact E|]. intros; simpl; lia.
  - destruct (strip pat (c :: s)) as [r|] eqn:E.
    + intros [= <- <-]. apply strip_Some in E. split; [exact E|]. intros; simpl; lia.
    + destruct (splitAtFirst pat s) as [[pre0 post0]|] eqn:E0; [|discriminate].
      intros [= <- <-]. destruct (IH _ _ eq_refl) as [-> Hmin].
      split; [reflexivity|].
      intros pre' post' H. destruct pre' as [|c' pre'].
      * simpl in H. apply strip_Some in H. congruence.
      * simpl in H. injection H as _ H. apply Hmin in H. simpl; lia.
Qed.

Lemma splitAtFirst_None (pat s : jsstring) :
  splitAtFirst pat s = None <-> forall pre post, s <> pre ++ pat ++ post.
Proof.
  split.
  - induction s as [|c s IH]; simpl.
    + destruct (strip pat []) eqn:E; [discriminate|]. intros _ pre post H.
      destruct pre; simpl in H.
      * apply strip_Some in H. congruence.
      * discriminate.
    + destruct (strip pat (c :: s)) eqn:E; [discriminate|].
      destruct (splitAtFirst pat s) as [[pre0 post0]|] eqn:E0; [discriminate|].
      intros _ pre post H. destruct pre as [|c' pre]; simpl in H.
      * apply strip_Some in H. congruence.
      * injection H as _ H. now apply (IH eq_refl) in H.
  - intros H. destruct (splitAtFirst pat s) as [[pre post]|] eqn:E; [|reflexivity].
    apply splitAtFirst_Some in E as [E _]. now apply H in E.
Qed.

(** A template without [$] is inserted as it is. *)
Lemma getSubstitution_noDollar matched pre post caps (t : jsstring) :
  noDollar t = true -> getSubstitution matched pre post caps t = t.
Proof.
  induction t as [|c t IH]; simpl; [reflexivity|].
  intros H. apply andb_true_iff in H as [Hc Ht].
  rewrite Hc. now rewrite IH.
Qed.

End JSFacts.

(** ** The matcher on quantified classes and on literals *)

Module RegexFacts.
Import JS JSFacts Regex.

Lemma mstate_eta (st : mstate) : MState (before st) (after st) (caps st) = st.
Proof. now destruct st. Qed.

Lemma filter_all {A : Type} (l : list A) : filter (fun _ => true) l = l.
Proof. induction l as [|x l IH]; simpl; congruence. Qed.

Lemma clearCaptures_nil (st : mstate) : clearCaptures [] st = st.
Proof.
  unfold clearCaptures; simpl. rewrite filter_all. apply mstate_eta.
Qed.

Lemma repUnits_unfold p greedy mn mx k b a cs :
  repUnits p greedy mn mx k b a cs =
  let here := k (MState b a cs) in
  if isZeroMax mx then here
  else
    let again :=
      match a with
      | x :: t =>
          if p x
          then repUnits p greedy (pred mn) (option_map pred mx) k (x :: b) t cs
          else None
      | [] => None
      end in
    if Nat.ltb 0 mn then again
    else if greedy then orElse again here
    else orElse here again.
Proof. destruct a; reflexivity. Qed.

Lemma repeatM_units p greedy fuel : forall mn mx st k,
  mn + length (after st) < fuel ->
  repeatM (unitStep p) [] greedy fuel mn mx st k
  = repUnits p greedy mn mx k (before st) (after st) (caps st).
Proof.
  induction fuel as [|fuel IH]; intros mn mx st k Hfuel; [lia|].
  rewrite repUnits_unfold. simpl repeatM. rewrite clearCaptures_nil.
  cbv zeta. rewrite mstate_eta.
  destruct (isZeroMax mx); [reflexivity|].
  assert (Hagain :
    unitStep p st
      (fun st' =>
         if Nat.eqb mn 0 && Nat.eqb (length (after st')) (length (after st))
         then None
         else repeatM (unitStep p) [] greedy fuel (pred mn) (option_map pred mx) st' k)
    = match after st with
      | x :: t =>
          if p x
          then repUnits p greedy (pred mn) (option_map pred mx) k
                        (x :: before st) t (caps st)
          else None
      | [] => None
      end).
  { unfold unitStep. destruct (after st) as [|x t] eqn:Ea; [reflexivity|].
    destruct (p x); [|reflexivity].
    simpl after. replace (Nat.eqb (length t) (length (x :: t))) with false.
    - rewrite andb_false_r. rewrite IH; [reflexivity|].
      simpl. simpl in Hfuel. lia.
    - symmetry. apply Nat.eqb_neq. simpl. lia. }
  rewrite Hagain. reflexivity.
Qed.

Lemma run_Rep_Cls greedy mn mx negated ranges st k :
  run (Rep greedy mn mx (Cls negated ranges)) st k
  = repUnits (classTest negated ranges) greedy mn mx k
             (before st) (after st) (caps st).
Proof.
  change (run (Rep greedy mn mx (Cls negated ranges)) st k)
    with (repeatM (unitStep (classTest negated ranges)) [] greedy
                  (mn + length (after st) + 1) mn mx st k).
  apply repeatM_units. lia.
Qed.

Lemma run_Rep_Chr greedy mn mx c st k :
  run (Rep greedy mn mx (Chr c)) st k
  = repUnits (fun x => N.eqb x c) greedy mn mx k
             (before st) (after st) (caps st).
Proof.
  change (run (Rep greedy mn mx (Chr c)) st k)
    with (repeatM (unitStep (fun x => N.eqb x c)) [] greedy
                  (mn + length (after st) + 1) mn mx st k).
  apply repeatM_units. lia.
Qed.

(** A literal consumes itself. *)
Lemma run_Lit (l : jsstring) : forall st k,
  run (Lit l) st k
  = match strip l (after st) with
    | Some r => k (MState (rev l ++ before st) r (caps st))
    | None => None
    end.
Proof.
  induction l as [|c l IH]; intros st k.
  - simpl Lit. rewrite run_Rep_Chr. rewrite repUnits_unfold. simpl.
    reflexivity.
  - destruct l as [|d l].
    + simpl. destruct (after st) as [|x t]; [reflexivity|].
      rewrite (N.eqb_sym c x). destruct (N.eqb_spec x c); [subst|]; reflexivity.
    + change (Lit (c :: d :: l)) with (Seq (Chr c) (Lit (d :: l))).
      change (run (Seq (Chr c) (Lit (d :: l))) st k)
        with (run (Chr c) st (fun st' => run (Lit (d :: l)) st' k)).
      simpl run at 1.
      destruct (after st) as [|x t]; [reflexivity|].
      change (strip (c :: d :: l) (x :: t))
        with (if N.eqb c x then strip (d :: l) t else None).
      rewrite (N.eqb_sym c x). destruct (N.eqb_spec x c) as [->|Hne]; [|reflexivity].
      rewrite IH. unfold advance. simpl after. simpl before. simpl caps.
      destruct (strip (d :: l) t) as [r|]; [|reflexivity].
      f_equal. f_equal. simpl. rewrite <- !app_assoc. reflexivity.
Qed.

(** The text consumed up to a later state. *)
Lemma consumed_app (b b' : list N) (v r : jsstring) cs cs' :
  consumed (MState b (v ++ r) cs) (MState b' r cs') = v.
Proof.
  unfold consumed; simpl. rewrite length_app.
  replace (length v + length r - length r) with (length v) by lia.
  rewrite firstn_app, firstn_all, Nat.sub_diag. simpl. apply app_nil_r.
Qed.

End RegexFacts.

(** ** The map-reference pattern *)

Module ReferenceFacts.
Import JS JSFacts Regex RegexFacts SourceMapText Direct.

Lemma range_one (a c : N) : N.leb a c && N.leb c a = N.eqb c a.
Proof.
  destruct (N.leb_spec a c), (N.leb_spec c a), (N.eqb_spec c a);
    simpl; try reflexivity; lia.
Qed.

Lemma lineTerminator_class (c : N) :
  inRanges lineTerminatorRanges c = isLineTerminator c.
Proof.
  unfold inRanges, inRange, isLineTerminator, lineTerminatorRanges; simpl.
  rewrite !range_one, orb_false_r, <- !orb_assoc. f_equal. f_equal.
  destruct (N.leb_spec 8232 c), (N.leb_spec c 8233),
    (N.eqb_spec c 8232), (N.eqb_spec c 8233); simpl; try reflexivity; lia.
Qed.

Lemma dot_class (c : N) :
  classTest true lineTerminatorRanges c = negb (isLineTerminator c).
Proof. unfold classTest. now rewrite lineTerminator_class. Qed.

(** [\s*$] *)
Lemma run_spacesToEol (a : jsstring) : forall b cs,
  repUnits (classTest false whiteSpaceRanges) true 0 None
           (fun st => run (Eol true) st Some) b a cs
  = match spacesToEol a with
    | Some (w, post) => Some (MState (rev w ++ b) post cs)
    | None => None
    end.
Proof.
  induction a as [|c t IH]; intros b cs.
  - reflexivity.
  - rewrite repUnits_unfold. cbv zeta. simpl isZeroMax. simpl Nat.ltb.
    cbv iota. simpl pred. simpl option_map.
    change (classTest false whiteSpaceRanges c) with (isWhiteSpace c).
    simpl spacesToEol.
    change (run (Eol true) (MState b (c :: t) cs) Some)
      with (if isLineTerminator c then Some (MState b (c :: t) cs) else None).
    destruct (isWhiteSpace c).
    + rewrite IH. destruct (spacesToEol t) as [[w post]|].
      * simpl. rewrite <- app_assoc. reflexivity.
      * simpl. destruct (isLineTerminator c); reflexivity.
    + simpl. destruct (isLineTerminator c); reflexivity.
Qed.

Lemma run_spacesThenEol (st : mstate) :
  run spacesThenEol st Some
  = match spacesToEol (after st) with
    | Some (w, post) => Some (MState (rev w ++ before st) post (caps st))
    | None => None
    end.
Proof.
  unfold spacesThenEol.
  change (run (Seq (Rep true 0 None Space) (Eol true)) st Some)
    with (run (Rep true 0 None Space) st (fun st' => run (Eol true) st' Some)).
  unfold Space. rewrite run_Rep_Cls. apply run_spacesToEol.
Qed.

(** [.+?] from its second unit on, inside group 2, followed by [\s*$]:
    [v0] is the part of the value already consumed. *)
Lemma run_lazyValue (t : jsstring) : forall (v0 b0 : list N) cs0,
  repUnits (classTest true lineTerminatorRanges) false 0 None
    (fun st' =>
       run spacesThenEol (setCapture 2 (MState b0 (v0 ++ t) cs0) st') Some)
    (rev v0 ++ b0) t cs0
  = match lazyValue t with
    | Some (v, w, post) =>
        Some (MState (rev w ++ rev (v0 ++ v) ++ b0) post ((2, v0 ++ v) :: cs0))
    | None => None
    end.
Proof.
  induction t as [|c t IH]; intros v0 b0 cs0.
  - rewrite repUnits_unfold. cbv zeta. simpl isZeroMax. simpl Nat.ltb. cbv iota.
    rewrite run_spacesThenEol. simpl. rewrite !app_nil_r.
    unfold consumed; simpl. rewrite Nat.sub_0_r, firstn_all. reflexivity.
  - set (k := fun st' =>
         run spacesThenEol (setCapture 2 (MState b0 (v0 ++ c :: t) cs0) st') Some).
    assert (Hk : k (MState (rev v0 ++ b0) (c :: t) cs0)
                 = match spacesToEol (c :: t) with
                   | Some (w, post) =>
                       Some (MState (rev w ++ rev v0 ++ b0) post ((2, v0) :: cs0))
                   | None => None
                   end).
    { unfold k. rewrite run_spacesThenEol. unfold setCapture.
      cbn [after before caps]. rewrite consumed_app. reflexivity. }
    rewrite repUnits_unfold. cbv zeta. simpl isZeroMax. simpl Nat.ltb. cbv iota.
    simpl pred. simpl option_map. rewrite Hk, dot_class.
    change (lazyValue (c :: t))
      with (match spacesToEol (c :: t) with
            | Some (w, post) => Some ([], w, post)
            | None =>
                if isLineTerminator c then None
                else match lazyValue t with
                     | Some (v, w, post) => Some (c :: v, w, post)
                     | None => None
                     end
            end).
    destruct (spacesToEol (c :: t)) as [[w post]|].
    + simpl. rewrite !app_nil_r. reflexivity.
    + simpl orElse. destruct (isLineTerminator c); simpl; [reflexivity|].
      specialize (IH (v0 ++ [c]) b0 cs0).
      rewrite rev_app_distr in IH. cbn [rev app] in IH.
      rewrite <- app_assoc in IH. cbn [app] in IH. unfold k. rewrite IH.
      destruct (lazyValue t) as [[[v w] post]|]; [|reflexivity].
      rewrite <- !app_assoc. reflexivity.
Qed.

Lemma orElse_None_r (x : option mstate) : orElse x None = x.
Proof. now destruct x. Qed.

(** Group 2 and the end of the pattern. *)
Lemma run_valuePattern (b rest : list N) cs :
  run valuePattern (MState b rest cs) Some
  = if startsWith rest (js "data:") then None
    else
      match rest with
      | c :: t =>
          if isLineTerminator c then None
          else
            match lazyValue t with
            | Some (v, w, post) =>
                Some (MState (rev w ++ rev (c :: v) ++ b) post ((2, c :: v) :: cs))
            | None => None
            end
      | [] => None
      end.
Proof.
  unfold valuePattern.
  match goal with
  | |- run (Seq (Grp 2 (Seq (NotAhead ?l) ?r)) ?t) ?st ?k = _ =>
      change (run (Seq (Grp 2 (Seq (NotAhead l) r)) t) st k)
        with (match run l st Some with
              | Some _ => None
              | None => run r st (fun st' => run t (setCapture 2 st st') k)
              end)
  end.
  rewrite run_Lit. unfold startsWith. cbn [after].
  destruct (strip (js "data:") rest); [reflexivity|].
  unfold Dot. rewrite run_Rep_Cls. cbn [before after caps].
  rewrite repUnits_unfold. cbv zeta. simpl isZeroMax. simpl Nat.ltb. cbv iota.
  destruct rest as [|c t]; [reflexivity|].
  rewrite dot_class. destruct (isLineTerminator c); [reflexivity|].
  simpl negb. cbv iota. simpl pred. simpl option_map.
  pose proof (run_lazyValue t [c] b cs) as H.
  cbn [rev app] in H. rewrite H.
  destruct (lazyValue t) as [[[v w] post]|]; [|reflexivity].
  cbn [rev app]. rewrite <- !app_assoc. reflexivity.
Qed.

(** The whole pattern at one position. *)
Lemma run_SourceMapURLRegex (b a : list N) :
  run SourceMapURLRegex (MState b a []) Some
  = match referenceAt a with
    | Some (m, v, w, post) =>
        Some (MState (rev (referenceText m v w) ++ b) post [(2, v); (1, [m])])
    | None => None
    end.
Proof.
  unfold SourceMapURLRegex.
  change (Seq (Grp 2 (Seq (NotAhead (Lit (js "data:"))) (Rep false 1 None Dot)))
              (Seq (Rep true 0 None Space) (Eol true)))
    with valuePattern.
  match goal with
  | |- run (Seq (Lit ?l) ?r) ?st ?k = _ =>
      change (run (Seq (Lit l) r) st k) with (run (Lit l) st (fun st' => run r st' k))
  end.
  rewrite run_Lit. unfold referenceAt. cbn [after before caps].
  destruct (strip (js "//") a) as [r|]; [|reflexivity].
  destruct r as [|m r]; [reflexivity|].
  match goal with
  | |- run (Seq (Grp 1 (Alt (Chr ?c1) (Chr ?c2))) (Seq (Lit ?l) ?r)) ?st ?k = _ =>
      change (run (Seq (Grp 1 (Alt (Chr c1) (Chr c2))) (Seq (Lit l) r)) st k)
        with (orElse
                (run (Chr c1) st
                   (fun st' => run (Lit l) (setCapture 1 st st')
                                 (fun st'' => run r st'' k)))
                (run (Chr c2) st
                   (fun st' => run (Lit l) (setCapture 1 st st')
                                 (fun st'' => run r st'' k))))
  end.
  cbn [run after]. unfold isMarker.
  assert (Hstep : forall st',
    st' = advance m r (MState (rev (js "//") ++ b) (m :: r) []) ->
    run (Lit (js " sourceMappingURL="))
        (setCapture 1 (MState (rev (js "//") ++ b) (m :: r) []) st')
        (fun st'' => run valuePattern st'' Some)
    = match strip (js " sourceMappingURL=") r with
      | Some rest =>
          if startsWith rest (js "data:") then None
          else
            match rest with
            | c :: t =>
                if isLineTerminator c then None
                else
                  match lazyValue t with
                  | Some (v, w, post) =>
                      Some (MState (rev (referenceText m (c :: v) w) ++ b) post
                                   [(2, c :: v); (1, [m])])
                  | None => None
                  end
            | [] => None
            end
      | None => None
      end).
  { intros st' ->. rewrite run_Lit. unfold setCapture, advance.
    cbn [after before caps].
    destruct (strip (js " sourceMappingURL=") r) as [rest|]; [|reflexivity].
    rewrite run_valuePattern.
    destruct (startsWith rest (js "data:")); [reflexivity|].
    destruct rest as [|c t]; [reflexivity|].
    destruct (isLineTerminator c); [reflexivity|].
    destruct (lazyValue t) as [[[v w] post]|]; [|reflexivity].
    f_equal. f_equal.
    - unfold referenceText. rewrite !rev_app_distr. cbn [rev app js].
      rewrite <- !app_assoc. reflexivity.
    - unfold consumed. cbn [after length]. 
      replace (S (length r) - length r) with 1 by lia. reflexivity. }
  destruct (N.eqb_spec m 35) as [E35|N35].
  - subst m. cbn [N.eqb orb]. rewrite Hstep by reflexivity.
    simpl N.eqb. cbv iota. rewrite orElse_None_r.
    destruct (strip (js " sourceMappingURL=") r) as [rest|]; [|reflexivity].
    destruct (startsWith rest (js "data:")); [reflexivity|].
    destruct rest as [|c t]; [reflexivity|].
    destruct (isLineTerminator c); [reflexivity|].
    destruct (lazyValue t) as [[[v w] post]|]; reflexivity.
  - destruct (N.eqb_spec m 64) as [E64|N64].
    + subst m. rewrite Hstep by reflexivity. cbn [orb orElse].
      destruct (strip (js " sourceMappingURL=") r) as [rest|]; [|reflexivity].
      destruct (startsWith rest (js "data:")); [reflexivity|].
      destruct rest as [|c t]; [reflexivity|].
      destruct (isLineTerminator c); [reflexivity|].
      destruct (lazyValue t) as [[[v w] post]|]; reflexivity.
    + reflexivity.
Qed.

(** What [referenceAt] returns is a split of the text. *)
Lemma spacesToEol_split (r : jsstring) : forall w post,
  spacesToEol r = Some (w, post) -> r = w ++ post.
Proof.
  induction r as [|c t IH]; intros w post; simpl.
  - now intros [= <- <-].
  - destruct (isWhiteSpace c).
    + destruct (spacesToEol t) as [[w0 post0]|].
      * intros [= <- <-]. simpl. f_equal. now apply IH.
      * destruct (isLineTerminator c); [|discriminate]. now intros [= <- <-].
    + destruct (isLineTerminator c); [|discriminate]. now intros [= <- <-].
Qed.

Lemma lazyValue_split (r : jsstring) : forall v w post,
  lazyValue r = Some (v, w, post) -> r = v ++ w ++ post.
Proof.
  induction r as [|c t IH]; intros v w post; simpl.
  - now intros [= <- <- <-].
  - destruct (isWhiteSpace c).
    + destruct (spacesToEol t) as [[w0 post0]|] eqn:E.
      * intros [= <- <- <-]. apply spacesToEol_split in E. simpl. now f_equal.
      * destruct (isLineTerminator c); [now intros [= <- <- <-]|].
        destruct (lazyValue t) as [[[v0 w0] post0]|]; [|discriminate].
        intros [= <- <- <-]. simpl. f_equal. now apply IH.
    + destruct (isLineTerminator c); [now intros [= <- <- <-]|].
      destruct (lazyValue t) as [[[v0 w0] post0]|]; [|discriminate].
      intros [= <- <- <-]. simpl. f_equal. now apply IH.
Qed.

Lemma referenceAt_split (a : jsstring) m v w post :
  referenceAt a = Some (m, v, w, post) ->
  a = referenceText m v w ++ post /\ isMarker m = true.
Proof.
  unfold referenceAt, referenceText.
  destruct (strip (js "//") a) as [[|m0 r]|] eqn:E1; try discriminate.
  destruct (isMarker m0) eqn:Em; [|discriminate].
  destruct (strip (js " sourceMappingURL=") r) as [rest|] eqn:E2; [|discriminate].
  destruct (startsWith rest (js "data:")); [discriminate|].
  destruct rest as [|c t]; [discriminate|].
  destruct (isLineTerminator c); [discriminate|].
  destruct (lazyValue t) as [[[v0 w0] post0]|] eqn:E3; [|discriminate].
  intros [= <- <- <- <-].
  apply strip_Some in E1. apply strip_Some in E2. apply lazyValue_split in E3.
  subst a r t. split; [|exact Em].
  rewrite <- !app_assoc. reflexivity.
Qed.

(** [exec] finds the first reference of the text. *)
Lemma search_SourceMapURLRegex (a : jsstring) : forall b,
  search SourceMapURLRegex b a
  = match firstReference a with
    | Some (pre, (m, v, w, post)) =>
        Some (MatchResult (rev b ++ pre) (referenceText m v w) post
                          [(2, v); (1, [m])])
    | None => None
    end.
Proof.
  induction a as [|c t IH]; intros b.
  - reflexivity.
  - change (search SourceMapURLRegex b (c :: t))
      with (match run SourceMapURLRegex (MState b (c :: t) []) Some with
            | Some fin =>
                Some (MatchResult (rev b)
                        (consumed (MState b (c :: t) []) fin)
                        (after fin) (caps fin))
            | None => search SourceMapURLRegex (c :: b) t
            end).
    rewrite run_SourceMapURLRegex.
    change (firstReference (c :: t))
      with (match referenceAt (c :: t) with
            | Some ref => Some ([], ref)
            | None =>
                match firstReference t with
                | Some (pre, ref) => Some (c :: pre, ref)
                | None => None
                end
            end).
    destruct (referenceAt (c :: t)) as [[[[m v] w] post]|] eqn:E.
    + apply referenceAt_split in E as [E _]. rewrite E.
      rewrite consumed_app. cbn [after caps]. now rewrite app_nil_r.
    + rewrite IH.
      destruct (firstReference t) as [[pre [[[m v] w] post]]|]; [|reflexivity].
      cbn [rev]. now rewrite <- app_assoc.
Qed.

Lemma exec_SourceMapURLRegex (a : jsstring) :
  exec SourceMapURLRegex a
  = match firstReference a with
    | Some (pre, (m, v, w, post)) =>
        Some (MatchResult pre (referenceText m v w) post [(2, v); (1, [m])])
    | None => None
    end.
Proof. unfold exec. now rewrite search_SourceMapURLRegex. Qed.

Lemma firstReference_split (a : jsstring) : forall pre m v w post,
  firstReference a = Some (pre, (m, v, w, post)) ->
  a = pre ++ referenceText m v w ++ post.
Proof.
  induction a as [|c t IH]; intros pre m v w post.
  - simpl. discriminate.
  - change (firstReference (c :: t))
      with (match referenceAt (c :: t) with
            | Some ref => Some ([], ref)
            | None =>
                match firstReference t with
                | Some (pre, ref) => Some (c :: pre, ref)
                | None => None
                end
            end).
    destruct (referenceAt (c :: t)) as [[[[m0 v0] w0] post0]|] eqn:E.
    + intros [= <- <- <- <- <-]. now apply referenceAt_split in E as [E _].
    + destruct (firstReference t) as [[pre0 [[[m0 v0] w0] post0]]|] eqn:E0;
        [|discriminate].
      intros [= <- <- <- <- <-]. simpl. f_equal. now apply IH.
Qed.

End ReferenceFacts.

(** ** Lines *)

Module LineFacts.
Import JS JSFacts Direct.

Lemma line_split (s : jsstring) : s = lineOf s ++ lineRest s.
Proof.
  induction s as [|c t IH]; simpl; [reflexivity|].
  destruct (isLineTerminator c); simpl; congruence.
Qed.

Lemma lineRest_head (s : jsstring) :
  match lineRest s with
  | c :: _ => isLineTerminator c = true
  | [] => True
  end.
Proof.
  induction s as [|c t IH]; simpl; [exact I|].
  destruct (isLineTerminator c) eqn:E; [exact E|exact IH].
Qed.

Lemma lineOf_noTerminator (s : jsstring) : noTerminator (lineOf s) = true.
Proof.
  induction s as [|c t IH]; simpl; [reflexivity|].
  destruct (isLineTerminator c) eqn:E; simpl; [reflexivity|].
  now rewrite E.
Qed.

Lemma lineOf_app (p s : jsstring) :
  noTerminator p = true -> lineOf (p ++ s) = p ++ lineOf s.
Proof.
  induction p as [|c p IH]; simpl; [reflexivity|].
  intros H. apply andb_true_iff in H as [Hc Hp].
  apply negb_true_iff in Hc. rewrite Hc. now rewrite IH.
Qed.

Lemma lineRest_app (p s : jsstring) :
  noTerminator p = true -> lineRest (p ++ s) = lineRest s.
Proof.
  induction p as [|c p IH]; simpl; [reflexivity|].
  intros H. apply andb_true_iff in H as [Hc Hp].
  apply negb_true_iff in Hc. rewrite Hc. now apply IH.
Qed.

Lemma lineOf_whole (l : jsstring) : noTerminator l = true -> lineOf l = l.
Proof.
  intros H. rewrite <- (app_nil_r l) at 1. rewrite lineOf_app by exact H.
  simpl. apply app_nil_r.
Qed.

Lemma lineOf_idem (s : jsstring) : lineOf (lineOf s) = lineOf s.
Proof. apply lineOf_whole, lineOf_noTerminator. Qed.

(** A literal without terminator is found on the first line when it is
    found in the text. *)
Lemma strip_lineOf (p s : jsstring) :
  noTerminator p = true ->
  strip p (lineOf s) = option_map lineOf (strip p s).
Proof.
  revert s; induction p as [|x p IH]; intros s H; [reflexivity|].
  simpl in H. apply andb_true_iff in H as [Hx Hp]. apply negb_true_iff in Hx.
  destruct s as [|y s]; [reflexivity|]. simpl.
  destruct (isLineTerminator y) eqn:Ey.
  - destruct (N.eqb_spec x y) as [->|_]; [congruence|reflexivity].
  - destruct (N.eqb x y); [now apply IH|reflexivity].
Qed.

Lemma startsWith_lineOf (p s : jsstring) :
  noTerminator p = true -> startsWith (lineOf s) p = startsWith s p.
Proof.
  intros H. unfold startsWith. rewrite strip_lineOf by exact H.
  now destruct (strip p s).
Qed.

(** The lines of a text, and the text of its lines. *)
Lemma textLines_first (s : jsstring) : fst (textLines s) = lineOf s.
Proof.
  induction s as [|c t IH]; simpl; [reflexivity|].
  destruct (textLines t) as [l ls]. simpl in IH.
  destruct (isLineTerminator c); simpl; congruence.
Qed.

Lemma textLines_later (s : jsstring) :
  joinLines [] (snd (textLines s)) = lineRest s.
Proof.
  induction s as [|c t IH]; simpl; [reflexivity|].
  pose proof (textLines_first t) as Hf.
  destruct (textLines t) as [l ls]. simpl in IH, Hf.
  destruct (isLineTerminator c); simpl; [|exact IH].
  unfold joinLines in *. simpl in *. rewrite IH, Hf.
  now rewrite <- line_split.
Qed.

Lemma joinLines_textLines (s : jsstring) :
  joinLines (fst (textLines s)) (snd (textLines s)) = s.
Proof.
  pose proof (textLines_later s) as H. unfold joinLines in *. simpl in H.
  rewrite H, textLines_first. symmetry. apply line_split.
Qed.

End LineFacts.

(** ** The [sourceURL] pattern *)

Module SourceURLFacts.
Import JS JSFacts Regex RegexFacts SourceMapText Direct LineFacts ReferenceFacts.

(** [.*] inside group 1, followed by [$]: the rest of the line. [v0] is
    the part of the group already consumed. *)
Lemma run_restOfLine (t : jsstring) : forall (v0 b0 : list N) cs0,
  repUnits (classTest true lineTerminatorRanges) true 0 None
    (fun st' =>
       run (Eol true) (setCapture 1 (MState b0 (v0 ++ t) cs0) st') Some)
    (rev v0 ++ b0) t cs0
  = Some (MState (rev (v0 ++ lineOf t) ++ b0) (lineRest t)
                 ((1, v0 ++ lineOf t) :: cs0)).
Proof.
  induction t as [|c t IH]; intros v0 b0 cs0.
  - rewrite repUnits_unfold. cbv zeta. simpl isZeroMax. simpl Nat.ltb. cbv iota.
    cbn [orElse run atEol after before caps lineOf lineRest].
    change (0 <? 0) with false. cbv iota. unfold setCapture.
    cbn [after before caps]. rewrite consumed_app, !app_nil_r. reflexivity.
  - set (k := fun st' =>
         run (Eol true) (setCapture 1 (MState b0 (v0 ++ c :: t) cs0) st') Some).
    assert (Hk : k (MState (rev v0 ++ b0) (c :: t) cs0)
                 = if isLineTerminator c
                   then Some (MState (rev v0 ++ b0) (c :: t) ((1, v0) :: cs0))
                   else None).
    { unfold k, setCapture. cbn [run]. unfold atEol.
      cbn [after before caps andb]. rewrite consumed_app. reflexivity. }
    rewrite repUnits_unfold. cbv zeta. simpl isZeroMax. simpl Nat.ltb. cbv iota.
    simpl pred. simpl option_map. rewrite Hk, dot_class.
    cbn [lineOf lineRest].
    destruct (isLineTerminator c); cbn [negb orElse].
    + rewrite !app_nil_r. reflexivity.
    + specialize (IH (v0 ++ [c]) b0 cs0).
      rewrite rev_app_distr in IH. cbn [rev app] in IH.
      rewrite <- !app_assoc in IH. cbn [app] in IH. unfold k. rewrite IH.
      reflexivity.
Qed.

Lemma run_restOfLinePattern (b x : list N) cs :
  run restOfLinePattern (MState b x cs) Some
  = match x with
    | c :: _ =>
        if isLineTerminator c then None
        else Some (MState (rev (lineOf x) ++ b) (lineRest x) ((1, lineOf x) :: cs))
    | [] => None
    end.
Proof.
  unfold restOfLinePattern.
  match goal with
  | |- run (Seq (Grp 1 ?r) ?e) ?st ?k = _ =>
      change (run (Seq (Grp 1 r) e) st k)
        with (run r st (fun st' => run e (setCapture 1 st st') k))
  end.
  unfold Dot. rewrite run_Rep_Cls. cbn [before after caps].
  rewrite repUnits_unfold. cbv zeta. simpl isZeroMax. simpl Nat.ltb. cbv iota.
  destruct x as [|c t]; [reflexivity|].
  rewrite dot_class. cbn [lineOf lineRest].
  destruct (isLineTerminator c); [reflexivity|].
  cbn [negb]. simpl pred. simpl option_map.
  pose proof (run_restOfLine t [c] b cs) as H. cbn [rev app] in H.
  rewrite H. reflexivity.
Qed.

Lemma marker_class (c : N) :
  classTest false [(35, 35); (64, 64)]%N c = isMarker c.
Proof.
  unfold classTest, inRanges, inRange, isMarker; simpl.
  now rewrite !range_one, orb_false_r.
Qed.

Lemma marker_noTerminator (m : N) :
  isMarker m = true -> isLineTerminator m = false.
Proof.
  unfold isMarker. intros H. apply orb_true_iff in H as [H|H];
    apply N.eqb_eq in H; subst m; reflexivity.
Qed.

(** [sourceURL=] and the rest of the line. *)
Lemma run_sourceURL_value (b r : list N) cs :
  option_map after
    (run (Seq (Lit (js "sourceURL=")) restOfLinePattern) (MState b r cs) Some)
  = match strip (js "sourceURL=") r with
    | Some (c :: t) =>
        if isLineTerminator c then None else Some (lineRest (c :: t))
    | _ => None
    end.
Proof.
  match goal with
  | |- option_map _ (run (Seq (Lit ?l) ?p) ?st ?k) = _ =>
      change (run (Seq (Lit l) p) st k)
        with (run (Lit l) st (fun st' => run p st' k))
  end.
  rewrite run_Lit. cbn [after before caps].
  destruct (strip (js "sourceURL=") r) as [x|]; [|reflexivity].
  rewrite run_restOfLinePattern.
  destruct x as [|c t]; [reflexivity|].
  destruct (isLineTerminator c); reflexivity.
Qed.

Lemma sourceURLValue_space (t : jsstring) :
  sourceURLValue (32%N :: t) = strip (js "sourceURL=") t.
Proof.
  unfold sourceURLValue.
  change (strip (js " sourceURL=") (32%N :: t)) with (strip (js "sourceURL=") t).
  destruct (strip (js "sourceURL=") t); reflexivity.
Qed.

Lemma sourceURLValue_other (r : jsstring) :
  match r with c :: _ => N.eqb c 32 = false | [] => True end ->
  sourceURLValue r = strip (js "sourceURL=") r.
Proof.
  unfold sourceURLValue. destruct r as [|c t]; [reflexivity|].
  intros H. cbn [js strip]. rewrite (N.eqb_sym _ c).
  change (N_of_ascii " ") with 32%N. now rewrite H.
Qed.

(** After the marker: the optional space, [sourceURL=], the rest of the
    line. *)
Lemma run_sourceURL_afterMarker (b r : list N) cs :
  option_map after
    (run (Seq (Rep true 0 (Some 1) (Chr 32))
              (Seq (Lit (js "sourceURL=")) restOfLinePattern))
         (MState b r cs) Some)
  = match sourceURLValue r with
    | Some (c :: t) =>
        if isLineTerminator c then None else Some (lineRest (c :: t))
    | _ => None
    end.
Proof.
  match goal with
  | |- option_map _ (run (Seq ?q ?p) ?st ?k) = _ =>
      change (run (Seq q p) st k) with (run q st (fun st' => run p st' k))
  end.
  rewrite run_Rep_Chr. cbn [before after caps].
  rewrite repUnits_unfold. cbv zeta. cbn [isZeroMax].
  change (0 <? 0) with false. cbv iota. cbn [pred option_map].
  destruct r as [|x t].
  - cbn [orElse]. rewrite run_sourceURL_value. reflexivity.
  - destruct (N.eqb_spec x 32) as [->|Hx].
    + rewrite repUnits_unfold. cbv zeta. cbn [isZeroMax].
      rewrite sourceURLValue_space.
      pose proof (run_sourceURL_value (32%N :: b) t cs) as H1.
      pose proof (run_sourceURL_value b (32%N :: t) cs) as H2.
      change (strip (js "sourceURL=") (32%N :: t)) with (@None jsstring) in H2.
      destruct (run (Seq (Lit (js "sourceURL=")) restOfLinePattern)
                    (MState (32%N :: b) t cs) Some) as [fin|].
      * exact H1.
      * cbn [orElse].
        destruct (run (Seq (Lit (js "sourceURL=")) restOfLinePattern)
                      (MState b (32%N :: t) cs) Some) as [fin|];
          [discriminate H2|exact H1].
    + cbn [orElse]. rewrite sourceURLValue_other.
      * apply run_sourceURL_value.
      * now apply N.eqb_neq.
Qed.

(** The whole pattern at one position: where the match ends. *)
Lemma run_SourceURLRegex (b a : list N) :
  option_map after (run SourceURLRegex (MState b a []) Some)
  = if atBol true (MState b a []) then option_map snd (sourceURLAt a) else None.
Proof.
  unfold SourceURLRegex.
  change (Seq (Grp 1 (Rep true 1 None Dot)) (Eol true)) with restOfLinePattern.
  match goal with
  | |- option_map _ (run (Seq (Bol true) ?p) ?st ?k) = _ =>
      change (run (Seq (Bol true) p) st k)
        with (if atBol true st then run p st k else None)
  end.
  destruct (atBol true (MState b a [])); [|reflexivity].
  match goal with
  | |- option_map _ (run (Seq (Lit ?l) ?p) ?st ?k) = _ =>
      change (run (Seq (Lit l) p) st k)
        with (run (Lit l) st (fun st' => run p st' k))
  end.
  rewrite run_Lit. unfold sourceURLAt. cbn [after before caps].
  destruct (strip (js "//") a) as [r|] eqn:Ea; [|reflexivity].
  apply strip_Some in Ea.
  destruct r as [|m r]; [reflexivity|].
  match goal with
  | |- option_map _ (run (Seq (Cls ?n ?rs) ?p) ?st ?k) = _ =>
      change (run (Seq (Cls n rs) p) st k)
        with (if classTest n rs m then run p (advance m r st) k else None)
  end.
  rewrite marker_class. destruct (isMarker m) eqn:Em; [|reflexivity].
  unfold advance. cbn [before caps].
  rewrite run_sourceURL_afterMarker.
  destruct (sourceURLValue r) as [[|c t]|] eqn:Ev; try reflexivity.
  destruct (isLineTerminator c) eqn:Ec; [reflexivity|].
  cbn [option_map snd]. f_equal.
  assert (Hr : exists p, noTerminator p = true /\ r = p ++ c :: t).
  { unfold sourceURLValue in Ev.
    destruct (strip (js " sourceURL=") r) as [x|] eqn:E1.
    - injection Ev as ->. apply strip_Some in E1. now exists (js " sourceURL=").
    - apply strip_Some in Ev. now exists (js "sourceURL="). }
  destruct Hr as [p [Hp ->]]. subst a.
  change (js "//" ++ m :: p ++ c :: t) with (js "//" ++ [m] ++ p ++ c :: t).
  rewrite !lineRest_app; try assumption; try reflexivity.
  cbn [noTerminator forallb]. now rewrite (marker_noTerminator _ Em).
Qed.

Lemma sourceURLAt_post (a text post : jsstring) :
  sourceURLAt a = Some (text, post) -> text = lineOf a /\ post = lineRest a.
Proof.
  unfold sourceURLAt.
  destruct (strip (js "//") a) as [[|m r]|]; try discriminate.
  destruct (isMarker m); [|discriminate].
  destruct (sourceURLValue r) as [[|c t]|]; try discriminate.
  destruct (isLineTerminator c); [discriminate|].
  now intros [= <- <-].
Qed.

(** [exec] finds the first comment that starts a line. *)
Lemma search_SourceURLRegex (a : jsstring) : forall b,
  option_map (fun m => (m_pre m, m_post m)) (search SourceURLRegex b a)
  = option_map (fun pp => (rev b ++ fst pp, snd pp))
               (firstSourceURL (atBol true (MState b a [])) a).
Proof.
  induction a as [|c t IH]; intros b.
  - pose proof (run_SourceURLRegex b []) as H.
    cbn [search]. cbn [firstSourceURL]. 
    change (sourceURLAt []) with (@None (jsstring * jsstring)) in *.
    destruct (atBol true (MState b [] [])); cbn [option_map] in *;
      destruct (run SourceURLRegex (MState b [] []) Some); 
      try discriminate H; reflexivity.
  - pose proof (run_SourceURLRegex b (c :: t)) as H.
    change (search SourceURLRegex b (c :: t))
      with (match run SourceURLRegex (MState b (c :: t) []) Some with
            | Some fin =>
                Some (MatchResult (rev b)
                        (consumed (MState b (c :: t) []) fin)
                        (after fin) (caps fin))
            | None => search SourceURLRegex (c :: b) t
            end).
    change (firstSourceURL (atBol true (MState b (c :: t) [])) (c :: t))
      with (match (if atBol true (MState b (c :: t) [])
                   then sourceURLAt (c :: t) else None) with
            | Some (_, post) => Some ([], post)
            | None =>
                match firstSourceURL (isLineTerminator c) t with
                | Some (pre, post) => Some (c :: pre, post)
                | None => None
                end
            end).
    destruct (run SourceURLRegex (MState b (c :: t) []) Some) as [fin|].
    + cbn [option_map] in H.
      destruct (atBol true (MState b (c :: t) [])); [|discriminate H].
      destruct (sourceURLAt (c :: t)) as [[text post]|]; [|discriminate H].
      cbn [option_map snd] in H. injection H as H. subst post.
      cbn [option_map m_pre m_post fst snd]. now rewrite app_nil_r.
    + assert (Hnone : (if atBol true (MState b (c :: t) [])
                       then sourceURLAt (c :: t) else None) = None).
      { destruct (atBol true (MState b (c :: t) [])); [|reflexivity].
        destruct (sourceURLAt (c :: t)); [discriminate H|reflexivity]. }
      rewrite Hnone, IH.
      change (atBol true (MState (c :: b) t [])) with (isLineTerminator c).
      destruct (firstSourceURL (isLineTerminator c) t) as [[pre post]|];
        [|reflexivity].
      cbn [option_map fst snd rev]. now rewrite <- app_assoc.
Qed.

Lemma removeSourceURL_first (body : jsstring) :
  removeSourceURL body
  = match firstSourceURL true body with
    | Some (pre, post) => pre ++ post
    | None => body
    end.
Proof.
  unfold removeSourceURL, replaceRegex, exec.
  pose proof (search_SourceURLRegex body []) as H.
  change (atBol true (MState [] body [])) with true in H.
  destruct (search SourceURLRegex [] body) as [m|];
    destruct (firstSourceURL true body) as [[pre post]|];
    cbn [option_map fst snd rev app] in H; try discriminate H.
  - injection H as H1 H2. cbn [getSubstitution app]. now rewrite H1, H2.
  - reflexivity.
Qed.

(** Whether a comment starts at the head of a text depends on the first
    line only. *)
Lemma sourceURLValue_lineOf (r : jsstring) :
  sourceURLValue (lineOf r) = option_map lineOf (sourceURLValue r).
Proof.
  unfold sourceURLValue. rewrite !strip_lineOf by reflexivity.
  destruct (strip (js " sourceURL=") r); [reflexivity|].
  destruct (strip (js "sourceURL=") r); reflexivity.
Qed.

Lemma isSourceURLLine_lineOf (a : jsstring) :
  isSourceURLLine (lineOf a)
  = match sourceURLAt a with Some _ => true | None => false end.
Proof.
  unfold isSourceURLLine, sourceURLAt.
  rewrite strip_lineOf by reflexivity.
  destruct (strip (js "//") a) as [[|m r]|]; try reflexivity.
  cbn [option_map lineOf].
  destruct (isLineTerminator m) eqn:Em.
  - destruct (isMarker m) eqn:E; [|reflexivity].
    apply marker_noTerminator in E. congruence.
  - destruct (isMarker m); [|reflexivity].
    rewrite sourceURLValue_lineOf.
    destruct (sourceURLValue r) as [[|c t]|]; try reflexivity.
    cbn [option_map lineOf].
    destruct (isLineTerminator c) eqn:Ec; [reflexivity|]. now rewrite Ec.
Qed.

Lemma isSourceURLLine_nil : isSourceURLLine [] = false.
Proof. reflexivity. Qed.

Lemma firstSourceURL_lines (a : jsstring) : forall start,
  match firstSourceURL start a with
  | Some (pre, post) => pre ++ post
  | None => a
  end
  = (let '(l, ls) := textLines a in
     if start && isSourceURLLine l then joinLines [] ls
     else joinLines l (blankFirst isSourceURLLine ls)).
Proof.
  induction a as [|c t IH]; intros start.
  - cbn [firstSourceURL textLines]. 
    change (sourceURLAt []) with (@None (jsstring * jsstring)).
    rewrite isSourceURLLine_nil, andb_false_r.
    destruct start; reflexivity.
  - change (firstSourceURL start (c :: t))
      with (match (if start then sourceURLAt (c :: t) else None) with
            | Some (_, post) => Some ([], post)
            | None =>
                match firstSourceURL (isLineTerminator c) t with
                | Some (pre, post) => Some (c :: pre, post)
                | None => None
                end
            end).
    pose proof (isSourceURLLine_lineOf (c :: t)) as Hline.
    pose proof (textLines_first (c :: t)) as Hfirst.
    pose proof (textLines_later (c :: t)) as Hlater.
    destruct (if start then sourceURLAt (c :: t) else None)
      as [[text post]|] eqn:Hat.
    + destruct start; [|discriminate Hat].
      rewrite Hat in Hline. apply sourceURLAt_post in Hat as [_ ->].
      destruct (textLines (c :: t)) as [l ls]. cbn [fst snd] in *.
      subst l. rewrite Hline. cbn [andb app]. now rewrite Hlater.
    + assert (Hno : start && isSourceURLLine (lineOf (c :: t)) = false).
      { destruct start; [|reflexivity]. rewrite Hline.
        now rewrite Hat. }
      specialize (IH (isLineTerminator c)).
      cbn [textLines] in *.
      destruct (textLines t) as [l ls].
      destruct (isLineTerminator c) eqn:Ec.
      * cbn [fst] in Hfirst. rewrite isSourceURLLine_nil, andb_false_r.
        cbn [andb] in IH. cbn [blankFirst].
        destruct (firstSourceURL true t) as [[pre post]|];
          destruct (isSourceURLLine l); unfold joinLines in *;
          cbn [app flat_map fst snd] in *; now rewrite IH.
      * cbn [fst] in Hfirst. rewrite Hfirst, Hno.
        cbn [andb] in IH.
        destruct (firstSourceURL false t) as [[pre post]|];
          unfold joinLines in *; cbn [app] in *; rewrite <- Hfirst;
          cbn [app]; f_equal; exact IH.
Qed.

End SourceURLFacts.

(** ** Objects *)

Module JsonFacts.
Import JS JSFacts Json.

Lemma lookup_replaceField_same key v fields :
  lookup key fields <> None -> lookup key (replaceField key v fields) = Some v.
Proof.
  induction fields as [|[k w] rest IH]; simpl; [congruence|].
  destruct (eqb k key) eqn:E; simpl; rewrite E; [reflexivity|exact IH].
Qed.

Lemma lookup_replaceField_other key key' v fields :
  key' <> key -> lookup key' (replaceField key v fields) = lookup key' fields.
Proof.
  intros Hne. induction fields as [|[k w] rest IH]; simpl; [reflexivity|].
  destruct (eqb k key) eqn:E; simpl.
  - apply eqb_eq in E; subst k.
    assert (Hk : eqb key key' = false) by (apply eqb_neq; congruence).
    now rewrite Hk.
  - destruct (eqb k key'); [reflexivity|exact IH].
Qed.

Lemma lookup_app_other key key' v fields :
  key' <> key -> lookup key' (fields ++ [(key, v)]) = lookup key' fields.
Proof.
  intros Hne. induction fields as [|[k w] rest IH]; simpl.
  - apply not_eq_sym in Hne. apply eqb_neq in Hne. now rewrite Hne.
  - destruct (eqb k key'); [reflexivity|exact IH].
Qed.

Lemma lookup_app_new key v fields :
  lookup key fields = None -> lookup key (fields ++ [(key, v)]) = Some v.
Proof.
  induction fields as [|[k w] rest IH]; simpl.
  - now rewrite eqb_refl.
  - destruct (eqb k key); [discriminate|exact IH].
Qed.

Lemma lookup_insertIndex_new n key v fields :
  lookup key fields = None -> lookup key (insertIndex n key v fields) = Some v.
Proof.
  induction fields as [|[k w] rest IH]; simpl.
  - now rewrite eqb_refl.
  - destruct (eqb k key) eqn:E; [discriminate|]. intros H.
    destruct (arrayIndex k) as [m|]; [destruct (N.ltb m n)|]; simpl;
      rewrite ?E, ?eqb_refl; auto.
Qed.

Lemma lookup_insertIndex_other n key v key' fields :
  key' <> key -> lookup key' (insertIndex n key v fields) = lookup key' fields.
Proof.
  intros Hne. assert (Hk : eqb key key' = false).
  { apply eqb_neq. congruence. }
  induction fields as [|[k w] rest IH]; simpl.
  - now rewrite Hk.
  - destruct (arrayIndex k) as [m|]; [destruct (N.ltb m n)|]; simpl;
      rewrite ?Hk; try reflexivity.
    destruct (eqb k key'); [reflexivity|exact IH].
Qed.

(** Reading a property after a write or a delete. *)
Lemma lookup_setField_same key v fields :
  lookup key (setField key v fields) = Some v.
Proof.
  unfold setField. destruct (lookup key fields) eqn:E.
  - apply lookup_replaceField_same. congruence.
  - destruct (arrayIndex key).
    + now apply lookup_insertIndex_new.
    + now apply lookup_app_new.
Qed.

Lemma lookup_setField_other key key' v fields :
  key' <> key -> lookup key' (setField key v fields) = lookup key' fields.
Proof.
  intros Hne. unfold setField. destruct (lookup key fields).
  - now apply lookup_replaceField_other.
  - destruct (arrayIndex key).
    + now apply lookup_insertIndex_other.
    + now apply lookup_app_other.
Qed.

Lemma lookup_deleteField_same key fields :
  lookup key (deleteField key fields) = None.
Proof.
  unfold deleteField. induction fields as [|[k w] rest IH]; simpl; [reflexivity|].
  destruct (eqb k key) eqn:E; simpl; [exact IH|]. now rewrite E.
Qed.

Lemma lookup_deleteField_other key key' fields :
  key' <> key -> lookup key' (deleteField key fields) = lookup key' fields.
Proof.
  intros Hne. unfold deleteField.
  induction fields as [|[k w] rest IH]; simpl; [reflexivity|].
  destruct (eqb k key) eqn:E; simpl.
  - apply eqb_eq in E; subst k.
    assert (Hk : eqb key key' = false) by (apply eqb_neq; congruence).
    now rewrite Hk.
  - destruct (eqb k key'); [reflexivity|exact IH].
Qed.

Lemma setField_same key v fields :
  lookup key fields = Some v -> setField key v fields = fields.
Proof.
  intros H. unfold setField. rewrite H.
  induction fields as [|[k w] rest IH]; [discriminate H|].
  cbn [lookup replaceField] in *. destruct (eqb k key); [congruence|].
  now rewrite IH.
Qed.

Lemma deleteField_absent key fields :
  lookup key fields = None -> deleteField key fields = fields.
Proof.
  unfold deleteField. induction fields as [|[k w] rest IH]; [reflexivity|].
  cbn [lookup filter fst]. destruct (eqb k key); [discriminate|].
  intros H. cbn [negb]. now rewrite IH.
Qed.

(** *** The fuel of the parser *)

Lemma skipWs_length (s : jsstring) : length (skipWs s) <= length s.
Proof.
  induction s as [|c s IH]; cbn [skipWs]; [lia|].
  destruct (isJsonSpace c); cbn [length]; lia.
Qed.

Lemma skipWs_cons_length (s r : jsstring) (d : N) :
  skipWs s = d :: r -> length r < length s.
Proof.
  intros H. pose proof (skipWs_length s) as Hl. rewrite H in Hl.
  cbn [length] in Hl. lia.
Qed.

Lemma parseString_length_bounded (n : nat) : forall s acc str r,
  length s <= n ->
  parseString s acc = Some (str, r) -> length r < length s.
Proof.
  induction n as [|n IH]; intros s acc str r Hn.
  - destruct s; [cbn; discriminate|cbn [length] in Hn; lia].
  - destruct s as [|c t]; cbn [parseString]; [discriminate|].
    cbn [length] in Hn.
    destruct (N.eqb c 34).
    + intros [= <- <-]. cbn [length]. lia.
    + destruct (N.ltb c 32); [discriminate|].
      destruct (N.eqb c 92).
      * destruct t as [|e t1]; [discriminate|].
        destruct (N.eqb e 117).
        -- destruct t1 as [|h1 [|h2 [|h3 [|h4 t2]]]]; try discriminate.
           destruct (hex4 h1 h2 h3 h4); [|discriminate].
           intros H. apply IH in H; cbn [length] in *; lia.
        -- destruct (simpleEscape e); [|discriminate].
           intros H. apply IH in H; cbn [length] in *; lia.
      * intros H. apply IH in H; cbn [length] in *; lia.
Qed.

Lemma parseString_length (s acc str r : jsstring) :
  parseString s acc = Some (str, r) -> length r < length s.
Proof. apply (parseString_length_bounded (length s)). lia. Qed.

Lemma spanDigits_length (s : jsstring) : forall ds r,
  spanDigits s = (ds, r) -> length r <= length s.
Proof.
  induction s as [|c s IH]; intros ds r; cbn [spanDigits].
  - intros [= <- <-]. cbn [length]. lia.
  - destruct (isDigit c).
    + destruct (spanDigits s) as [ds0 r0]. intros [= <- <-].
      specialize (IH _ _ eq_refl). cbn [length]. lia.
    + intros [= <- <-]. lia.
Qed.

Lemma parseNumber_length (s lit r : jsstring) :
  parseNumber s = Some (lit, r) -> length r < length s.
Proof.
  unfold parseNumber.
  destruct (match s with
            | c :: t => if N.eqb c 45 then ([c], t) else ([], s)
            | [] => ([], s)
            end) as [sign s1] eqn:Es.
  assert (H1 : length s1 <= length s).
  { destruct s as [|c t]; [injection Es as <- <-; lia|].
    destruct (N.eqb c 45); injection Es as <- <-; cbn [length]; lia. }
  destruct s1 as [|c t]; [discriminate|].
  assert (Hint : forall int s2,
    (if N.eqb c 48 then Some ([c], t)
     else if isDigit c then let '(ds, r0) := spanDigits t in Some (c :: ds, r0)
     else None) = Some (int, s2) -> length s2 < length s).
  { intros int s2. destruct (N.eqb c 48).
    - intros [= <- <-]. cbn [length] in H1. lia.
    - destruct (isDigit c); [|discriminate].
      destruct (spanDigits t) as [ds r0] eqn:E. intros [= <- <-].
      apply spanDigits_length in E. cbn [length] in H1. lia. }
  destruct (if N.eqb c 48 then Some ([c], t)
            else if isDigit c then let '(ds, r0) := spanDigits t in Some (c :: ds, r0)
            else None) as [[int s2]|]; [|discriminate].
  specialize (Hint _ _ eq_refl).
  assert (Hfrac : forall frac s3,
    match s2 with
    | c0 :: t0 =>
        if N.eqb c0 46 then
          match spanDigits t0 with
          | ([], _) => None
          | (ds, r0) => Some (c0 :: ds, r0)
          end
        else Some ([], s2)
    | [] => Some ([], s2)
    end = Some (frac, s3) -> length s3 <= length s2).
  { intros frac s3. destruct s2 as [|c0 t0]; [now intros [= <- <-]|].
    destruct (N.eqb c0 46); [|now intros [= <- <-]].
    destruct (spanDigits t0) as [ds r0] eqn:E. apply spanDigits_length in E.
    destruct ds; [discriminate|]. intros [= <- <-]. cbn [length]. lia. }
  destruct (match s2 with
            | c0 :: t0 =>
                if N.eqb c0 46 then
                  match spanDigits t0 with
                  | ([], _) => None
                  | (ds, r0) => Some (c0 :: ds, r0)
                  end
                else Some ([], s2)
            | [] => Some ([], s2)
            end) as [[frac s3]|]; [|discriminate].
  specialize (Hfrac _ _ eq_refl).
  assert (Hexp : forall ex s4,
    match s3 with
    | c0 :: t0 =>
        if N.eqb c0 101 || N.eqb c0 69 then
          let '(esign, t1) :=
            match t0 with
            | d :: t' =>
                if N.eqb d 43 || N.eqb d 45 then ([d], t') else ([], t0)
            | [] => ([], t0)
            end in
          match spanDigits t1 with
          | ([], _) => None
          | (ds, r0) => Some (c0 :: esign ++ ds, r0)
          end
        else Some ([], s3)
    | [] => Some ([], s3)
    end = Some (ex, s4) -> length s4 <= length s3).
  { intros ex s4. destruct s3 as [|c0 t0]; [now intros [= <- <-]|].
    destruct (N.eqb c0 101 || N.eqb c0 69); [|now intros [= <- <-]].
    destruct (match t0 with
              | d :: t' =>
                  if N.eqb d 43 || N.eqb d 45 then ([d], t') else ([], t0)
              | [] => ([], t0)
              end) as [esign t1] eqn:Et.
    assert (Ht1 : length t1 <= length t0).
    { destruct t0 as [|d t']; [injection Et as <- <-; lia|].
      destruct (N.eqb d 43 || N.eqb d 45); injection Et as <- <-;
        cbn [length]; lia. }
    destruct (spanDigits t1) as [ds r0] eqn:E. apply spanDigits_length in E.
    destruct ds; [discriminate|]. intros [= <- <-]. cbn [length]. lia. }
  destruct (match s3 with
            | c0 :: t0 =>
                if N.eqb c0 101 || N.eqb c0 69 then
                  let '(esign, t1) :=
                    match t0 with
                    | d :: t' =>
                        if N.eqb d 43 || N.eqb d 45 then ([d], t') else ([], t0)
                    | [] => ([], t0)
                    end in
                  match spanDigits t1 with
                  | ([], _) => None
                  | (ds, r0) => Some (c0 :: esign ++ ds, r0)
                  end
                else Some ([], s3)
            | [] => Some ([], s3)
            end) as [[ex s4]|]; [|discriminate].
  specialize (Hexp _ _ eq_refl). intros [= <- <-]. lia.
Qed.

Lemma parseLiteral_length (name : jsstring) (v v' : json) (s r : jsstring) :
  name <> [] -> parseLiteral name v s = Some (v', r) -> length r < length s.
Proof.
  intros Hn. unfold parseLiteral.
  destruct (strip name s) as [r0|] eqn:E; [|discriminate].
  intros [= <- <-]. apply strip_Some in E. subst s.
  rewrite length_app. destruct name; [congruence|]. cbn [length]. lia.
Qed.

(** What the parser leaves is shorter than what it was given. *)
Lemma parse_lengths (n : nat) :
  (forall s v r, parseValue n s = Some (v, r) -> length r < length s)
  /\ (forall s acc v r,
        parseElements n s acc = Some (v, r) -> length r < length s)
  /\ (forall s acc v r,
        parseMembers n s acc = Some (v, r) -> length r < length s).
Proof.
  induction n as [|n [IHv [IHe IHm]]]; [repeat split; discriminate|].
  repeat split.
  - intros s v r. cbn [parseValue].
    destruct (skipWs s) as [|c t] eqn:Es; [discriminate|].
    apply skipWs_cons_length in Es.
    destruct (N.eqb c 34).
    { destruct (parseString t []) as [[str r0]|] eqn:E; [|discriminate].
      intros [= <- <-]. apply parseString_length in E. lia. }
    destruct (N.eqb c 91).
    { destruct (skipWs t) as [|d r0] eqn:Et; [discriminate|].
      apply skipWs_cons_length in Et.
      destruct (N.eqb d 93); [intros [= <- <-]; lia|].
      intros H. apply IHe in H. lia. }
    destruct (N.eqb c 123).
    { destruct (skipWs t) as [|d r0] eqn:Et; [discriminate|].
      apply skipWs_cons_length in Et.
      destruct (N.eqb d 125); [intros [= <- <-]; lia|].
      intros H. apply IHm in H. lia. }
    destruct (N.eqb c 116).
    { intros H. apply parseLiteral_length in H; [|discriminate].
      cbn [length] in H. lia. }
    destruct (N.eqb c 102).
    { intros H. apply parseLiteral_length in H; [|discriminate].
      cbn [length] in H. lia. }
    destruct (N.eqb c 110).
    { intros H. apply parseLiteral_length in H; [|discriminate].
      cbn [length] in H. lia. }
    destruct (parseNumber (c :: t)) as [[lit r0]|] eqn:E; [|discriminate].
    intros [= <- <-]. apply parseNumber_length in E. cbn [length] in E. lia.
  - intros s acc v r. cbn [parseElements].
    destruct (parseValue n s) as [[v0 r0]|] eqn:E; [|discriminate].
    apply IHv in E.
    destruct (skipWs r0) as [|d r1] eqn:Er; [discriminate|].
    apply skipWs_cons_length in Er.
    destruct (N.eqb d 44); [intros H; apply IHe in H; lia|].
    destruct (N.eqb d 93); [|discriminate]. intros [= <- <-]. lia.
  - intros s acc v r. cbn [parseMembers].
    destruct (skipWs s) as [|q t] eqn:Es; [discriminate|].
    apply skipWs_cons_length in Es.
    destruct (N.eqb q 34); [|discriminate].
    destruct (parseString t []) as [[key r0]|] eqn:Ek; [|discriminate].
    apply parseString_length in Ek.
    destruct (skipWs r0) as [|colon r1] eqn:Er; [discriminate|].
    apply skipWs_cons_length in Er.
    destruct (N.eqb colon 58); [|discriminate].
    destruct (parseValue n r1) as [[v0 r2]|] eqn:E; [|discriminate].
    apply IHv in E.
    destruct (skipWs r2) as [|d r3] eqn:Er2; [discriminate|].
    apply skipWs_cons_length in Er2.
    destruct (N.eqb d 44); [intros H; apply IHm in H; lia|].
    destruct (N.eqb d 125); [|discriminate]. intros [= <- <-]. lia.
Qed.

(** More fuel than twice the length of the text changes nothing. *)
Lemma parse_fuel_step (n : nat) :
  (forall s, 2 * length s + 1 <= n -> parseValue (S n) s = parseValue n s)
  /\ (forall s acc,
        2 * length s + 2 <= n ->
        parseElements (S n) s acc = parseElements n s acc)
  /\ (forall s acc,
        2 * length s + 2 <= n ->
        parseMembers (S n) s acc = parseMembers n s acc).
Proof.
  induction n as [|n [IHv [IHe IHm]]]; [repeat split; intros; lia|].
  destruct (parse_lengths n) as [Lv _].
  repeat split.
  - intros s Hs. cbn [parseValue].
    destruct (skipWs s) as [|c t] eqn:Es; [reflexivity|].
    apply skipWs_cons_length in Es.
    destruct (N.eqb c 34); [reflexivity|].
    destruct (N.eqb c 91).
    { destruct (skipWs t) as [|d r0]; [reflexivity|].
      destruct (N.eqb d 93); [reflexivity|]. apply IHe. lia. }
    destruct (N.eqb c 123); [|reflexivity].
    destruct (skipWs t) as [|d r0]; [reflexivity|].
    destruct (N.eqb d 125); [reflexivity|]. apply IHm. lia.
  - intros s acc Hs.
    change (parseElements (S (S n)) s acc)
      with (match parseValue (S n) s with
            | None => None
            | Some (v, r) =>
                match skipWs r with
                | d :: r' =>
                    if N.eqb d 44 then parseElements (S n) r' (v :: acc)
                    else if N.eqb d 93 then Some (JArray (rev (v :: acc)), r')
                    else None
                | [] => None
                end
            end).
    change (parseElements (S n) s acc)
      with (match parseValue n s with
            | None => None
            | Some (v, r) =>
                match skipWs r with
                | d :: r' =>
                    if N.eqb d 44 then parseElements n r' (v :: acc)
                    else if N.eqb d 93 then Some (JArray (rev (v :: acc)), r')
                    else None
                | [] => None
                end
            end).
    rewrite IHv by lia.
    destruct (parseValue n s) as [[v r]|] eqn:E; [|reflexivity].
    apply Lv in E.
    destruct (skipWs r) as [|d r'] eqn:Er; [reflexivity|].
    apply skipWs_cons_length in Er.
    destruct (N.eqb d 44); [|reflexivity]. apply IHe. lia.
  - intros s acc Hs.
    change (parseMembers (S (S n)) s acc)
      with (match skipWs s with
            | q :: t =>
                if N.eqb q 34 then
                  match parseString t [] with
                  | None => None
                  | Some (key, r) =>
                      match skipWs r with
                      | colon :: r1 =>
                          if N.eqb colon 58 then
                            match parseValue (S n) r1 with
                            | None => None
                            | Some (v, r2) =>
                                match skipWs r2 with
                                | d :: r3 =>
                                    if N.eqb d 44 then
                                      parseMembers (S n) r3 (setField key v acc)
                                    else if N.eqb d 125 then
                                      Some (JObject (setField key v acc), r3)
                                    else None
                                | [] => None
                                end
                            end
                          else None
                      | [] => None
                      end
                  end
                else None
            | [] => None
            end).
    change (parseMembers (S n) s acc)
      with (match skipWs s with
            | q :: t =>
                if N.eqb q 34 then
                  match parseString t [] with
                  | None => None
                  | Some (key, r) =>
                      match skipWs r with
                      | colon :: r1 =>
                          if N.eqb colon 58 then
                            match parseValue n r1 with
                            | None => None
                            | Some (v, r2) =>
                                match skipWs r2 with
                                | d :: r3 =>
                                    if N.eqb d 44 then
                                      parseMembers n r3 (setField key v acc)
                                    else if N.eqb d 125 then
                                      Some (JObject (setField key v acc), r3)
                                    else None
                                | [] => None
                                end
                            end
                          else None
                      | [] => None
                      end
                  end
                else None
            | [] => None
            end).
    destruct (skipWs s) as [|q t] eqn:Es; [reflexivity|].
    apply skipWs_cons_length in Es.
    destruct (N.eqb q 34); [|reflexivity].
    destruct (parseString t []) as [[key r]|] eqn:Ek; [|reflexivity].
    apply parseString_length in Ek.
    destruct (skipWs r) as [|colon r1] eqn:Er; [reflexivity|].
    apply skipWs_cons_length in Er.
    destruct (N.eqb colon 58); [|reflexivity].
    rewrite IHv by lia.
    destruct (parseValue n r1) as [[v r2]|] eqn:E; [|reflexivity].
    apply Lv in E.
    destruct (skipWs r2) as [|d r3] eqn:Er2; [reflexivity|].
    apply skipWs_cons_length in Er2.
    destruct (N.eqb d 44); [|reflexivity]. apply IHm. lia.
Qed.

(** The fuel [parse] supplies is enough: any larger amount gives the same
    result. *)
Lemma parse_fuel (s : jsstring) (n : nat) :
  2 * length s + 1 <= n ->
  parseValue n s = parseValue (2 * length s + 1) s.
Proof.
  intros H. induction H as [|n H IH]; [reflexivity|].
  rewrite <- IH. now apply (parse_fuel_step n).
Qed.

End JsonFacts.

(** ** The locator and the lines of the body *)

Module LocatorFacts.
Import JS JSFacts Regex RegexFacts SourceMapText Direct LineFacts ReferenceFacts.

(** [\s*$] succeeds exactly when only white space is left on the line. *)
Lemma spacesToEol_line (r : jsstring) :
  isSome (spacesToEol r) = forallb isWhiteSpace (lineOf r).
Proof.
  induction r as [|c t IH]; [reflexivity|].
  cbn [spacesToEol lineOf].
  destruct (isLineTerminator c) eqn:Ec.
  - destruct (isWhiteSpace c); [|reflexivity].
    destruct (spacesToEol t) as [[w post]|]; reflexivity.
  - cbn [forallb]. destruct (isWhiteSpace c); [|reflexivity].
    rewrite <- IH. destruct (spacesToEol t) as [[w post]|]; reflexivity.
Qed.

Lemma trimEnd_spaces (l : jsstring) :
  forallb isWhiteSpace l = true -> trimEnd l = [].
Proof.
  induction l as [|c l IH]; [reflexivity|].
  cbn [forallb trimEnd]. intros H. apply andb_true_iff in H as [Hc Hl].
  now rewrite (IH Hl), Hc.
Qed.

Lemma trimEnd_cons (c : N) (l : jsstring) :
  forallb isWhiteSpace (c :: l) = false -> trimEnd (c :: l) = c :: trimEnd l.
Proof.
  cbn [forallb trimEnd]. intros H.
  destruct (trimEnd l) eqn:E; [|reflexivity].
  destruct (isWhiteSpace c); [|reflexivity].
  cbn [andb] in H.
  assert (Hl : forallb isWhiteSpace l = true).
  { clear H. revert E. induction l as [|d l IH]; [reflexivity|].
    cbn [trimEnd forallb]. destruct (trimEnd l); [|discriminate].
    destruct (isWhiteSpace d); [|discriminate]. intros _. now apply IH. }
  congruence.
Qed.

(** The value [.+?] stops at: the rest of the line without the white
    space at its end. *)
Lemma lazyValue_line (t : jsstring) :
  exists w post, lazyValue t = Some (trimEnd (lineOf t), w, post).
Proof.
  induction t as [|c t IH].
  - now exists [], [].
  - change (lazyValue (c :: t))
      with (match spacesToEol (c :: t) with
            | Some (w, post) => Some ([], w, post)
            | None =>
                if isLineTerminator c then None
                else match lazyValue t with
                     | Some (v, w, post) => Some (c :: v, w, post)
                     | None => None
                     end
            end).
    pose proof (spacesToEol_line (c :: t)) as Hs.
    destruct (spacesToEol (c :: t)) as [[w post]|].
    + cbn [isSome] in Hs. symmetry in Hs. rewrite (trimEnd_spaces _ Hs).
      now exists w, post.
    + cbn [isSome] in Hs. symmetry in Hs.
      cbn [lineOf] in *. destruct (isLineTerminator c); [discriminate Hs|].
      rewrite (trimEnd_cons _ _ Hs).
      destruct IH as [w [post ->]]. now exists w, post.
Qed.

Lemma spacesToEol_parts (r : jsstring) : forall w post,
  spacesToEol r = Some (w, post) ->
  forallb isWhiteSpace w = true /\ endsLine post = true.
Proof.
  induction r as [|c t IH]; intros w post; cbn [spacesToEol].
  - intros [= <- <-]. now split.
  - destruct (isWhiteSpace c) eqn:Ec.
    + destruct (spacesToEol t) as [[w0 post0]|].
      * intros [= <- <-]. destruct (IH _ _ eq_refl) as [Hw Hp].
        cbn [forallb]. now rewrite Ec, Hw.
      * destruct (isLineTerminator c) eqn:El; [|discriminate].
        intros [= <- <-]. now split.
    + destruct (isLineTerminator c) eqn:El; [|discriminate].
      intros [= <- <-]. now split.
Qed.

Lemma lazyValue_parts (t : jsstring) : forall v w post,
  lazyValue t = Some (v, w, post) ->
  noTerminator v = true /\ forallb isWhiteSpace w = true /\ endsLine post = true.
Proof.
  induction t as [|c t IH]; intros v w post.
  - cbn. intros [= <- <- <-]. now repeat split.
  - change (lazyValue (c :: t))
      with (match spacesToEol (c :: t) with
            | Some (w, post) => Some ([], w, post)
            | None =>
                if isLineTerminator c then None
                else match lazyValue t with
                     | Some (v, w, post) => Some (c :: v, w, post)
                     | None => None
                     end
            end).
    destruct (spacesToEol (c :: t)) as [[w0 post0]|] eqn:Es.
    + intros [= <- <- <-]. apply spacesToEol_parts in Es as [Hw Hp].
      now repeat split.
    + destruct (isLineTerminator c) eqn:Ec; [discriminate|].
      destruct (lazyValue t) as [[[v0 w0] post0]|]; [|discriminate].
      intros [= <- <- <-]. destruct (IH _ _ _ eq_refl) as [Hv [Hw Hp]].
      repeat split; try assumption. cbn [noTerminator forallb].
      fold (noTerminator v0). now rewrite Ec, Hv.
Qed.

Lemma referenceAt_parts (a : jsstring) m v w post :
  referenceAt a = Some (m, v, w, post) ->
  noTerminator v = true /\ forallb isWhiteSpace w = true
  /\ endsLine post = true.
Proof.
  unfold referenceAt.
  destruct (strip (js "//") a) as [[|m0 r]|]; try discriminate.
  destruct (isMarker m0); [|discriminate].
  destruct (strip (js " sourceMappingURL=") r) as [rest|]; [|discriminate].
  destruct (startsWith rest (js "data:")); [discriminate|].
  destruct rest as [|c t]; [discriminate|].
  destruct (isLineTerminator c) eqn:Ec; [discriminate|].
  destruct (lazyValue t) as [[[v0 w0] post0]|] eqn:E; [|discriminate].
  intros [= <- <- <- <-]. apply lazyValue_parts in E as [Hv [Hw Hp]].
  repeat split; try assumption.
  cbn [noTerminator forallb]. fold (noTerminator v0). now rewrite Ec, Hv.
Qed.

(** Whether a reference starts at the head of a text, and its value,
    depend on the first line only. *)
Lemma referenceAt_line (a : jsstring) :
  option_map (fun ref => snd (fst (fst ref))) (referenceAt a)
  = lineReferenceAt (lineOf a).
Proof.
  unfold referenceAt, lineReferenceAt.
  rewrite strip_lineOf by reflexivity.
  destruct (strip (js "//") a) as [[|m r]|]; try reflexivity.
  cbn [option_map lineOf].
  destruct (isLineTerminator m) eqn:Em.
  - destruct (isMarker m) eqn:E; [|reflexivity].
    apply SourceURLFacts.marker_noTerminator in E. congruence.
  - destruct (isMarker m); [|reflexivity].
    rewrite strip_lineOf by reflexivity.
    destruct (strip (js " sourceMappingURL=") r) as [rest|]; [|reflexivity].
    cbn [option_map]. rewrite startsWith_lineOf by reflexivity.
    destruct (startsWith rest (js "data:")); [reflexivity|].
    destruct rest as [|c t]; [reflexivity|].
    cbn [lineOf]. destruct (isLineTerminator c); [reflexivity|].
    destruct (lazyValue_line t) as [w [post ->]]. reflexivity.
Qed.

(** *** The texts of the lines *)

Lemma lineTexts_nil : lineTexts [] = [[]].
Proof. reflexivity. Qed.

Lemma lineTexts_cons (c : N) (t : jsstring) :
  lineTexts (c :: t)
  = if isLineTerminator c then [] :: lineTexts t
    else (c :: lineOf t) :: tl (lineTexts t).
Proof.
  unfold lineTexts. cbn [textLines].
  pose proof (textLines_first t) as Hf.
  destruct (textLines t) as [l ls]. cbn [fst snd] in *. subst l.
  destruct (isLineTerminator c); reflexivity.
Qed.

Lemma lineTexts_head (s : jsstring) :
  lineTexts s = lineOf s :: tl (lineTexts s).
Proof. unfold lineTexts. now rewrite textLines_first. Qed.

Lemma lineTexts_app (x y : jsstring) (c : N) :
  isLineTerminator c = true ->
  lineTexts (x ++ c :: y) = lineTexts x ++ lineTexts y.
Proof.
  intros Hc. induction x as [|d x IH].
  - cbn [app]. rewrite lineTexts_cons, Hc. reflexivity.
  - cbn [app]. rewrite !lineTexts_cons.
    destruct (isLineTerminator d) eqn:Ed.
    + now rewrite IH.
    + rewrite IH. rewrite (lineTexts_head x) at 2. cbn [tl app].
      f_equal. f_equal.
      clear IH. induction x as [|e x IHx]; cbn [app lineOf].
      * now rewrite Hc.
      * destruct (isLineTerminator e); [reflexivity|]. now rewrite IHx.
Qed.

Lemma lineTexts_line (l : jsstring) :
  noTerminator l = true -> lineTexts l = [l].
Proof.
  induction l as [|c l IH]; [reflexivity|].
  cbn [noTerminator forallb]. fold (noTerminator l). intros H.
  apply andb_true_iff in H as [Hc Hl]. apply negb_true_iff in Hc.
  rewrite lineTexts_cons, Hc, (IH Hl). cbn [tl].
  now rewrite (lineOf_whole _ Hl).
Qed.

Lemma lineOf_app_endsLine (x post : jsstring) :
  endsLine post = true -> lineOf (x ++ post) = lineOf x.
Proof.
  intros H. induction x as [|d x IH]; cbn [app lineOf].
  - destruct post as [|c y]; [reflexivity|]. cbn [endsLine] in H.
    cbn [lineOf]. now rewrite H.
  - destruct (isLineTerminator d); [reflexivity|]. now rewrite IH.
Qed.

Lemma lastSome_app {A : Type} (l1 l2 : list (option A)) :
  lastSome (l1 ++ l2)
  = match lastSome l2 with
    | Some y => Some y
    | None => lastSome l1
    end.
Proof.
  induction l1 as [|x l1 IH]; cbn [app lastSome].
  - now destruct (lastSome l2).
  - rewrite IH. now destruct (lastSome l2).
Qed.

(** *** The last reference, line by line *)

Lemma lineReference_nil : lineReference [] = None.
Proof. reflexivity. Qed.

Lemma lastReference_step (c : N) (t : jsstring) :
  referenceAt (c :: t) = None -> lastReference (c :: t) = lastReference t.
Proof.
  intros H. unfold lastReference. rewrite lineTexts_cons.
  destruct (isLineTerminator c) eqn:Ec.
  - cbn [map lastSome]. rewrite lineReference_nil.
    now destruct (lastSome (map lineReference (lineTexts t))).
  - rewrite (lineTexts_head t) at 2. cbn [map lastSome tl].
    replace (lineReference (c :: lineOf t)) with (lineReference (lineOf t));
      [reflexivity|].
    pose proof (referenceAt_line (c :: t)) as Hl. rewrite H in Hl.
    cbn [option_map lineOf] in Hl. rewrite Ec in Hl.
    change (lineReference (c :: lineOf t))
      with (match lineReferenceAt (c :: lineOf t) with
            | Some v => Some v
            | None => lineReference (lineOf t)
            end).
    now rewrite <- Hl.
Qed.

Lemma lastReference_nil : lastReference [] = None.
Proof. reflexivity. Qed.

Lemma lastReference_app (x post : jsstring) :
  endsLine post = true ->
  lastReference (x ++ post)
  = match lastReference post with
    | Some y => Some y
    | None => lastReference x
    end.
Proof.
  intros H. destruct post as [|c y].
  - now rewrite app_nil_r, lastReference_nil.
  - cbn [endsLine] in H. unfold lastReference.
    rewrite (lineTexts_app x y c H), map_app, lastSome_app.
    rewrite lineTexts_cons, H. cbn [map lastSome]. rewrite lineReference_nil.
    now destruct (lastSome (map lineReference (lineTexts y))).
Qed.

Lemma whiteSpace_not_slash (c : N) : isWhiteSpace c = true -> N.eqb 47 c = false.
Proof.
  intros H. destruct (N.eqb_spec 47 c) as [<-|]; [discriminate H|reflexivity].
Qed.

Lemma lastReference_spaces (x : jsstring) :
  forallb isWhiteSpace x = true -> lastReference x = None.
Proof.
  induction x as [|c x IH]; [reflexivity|].
  cbn [forallb]. intros H. apply andb_true_iff in H as [Hc Hx].
  rewrite lastReference_step; [now apply IH|].
  unfold referenceAt. cbn [js strip].
  change (N_of_ascii "/") with 47%N. now rewrite (whiteSpace_not_slash _ Hc).
Qed.

Lemma forallb_lineRest (p : N -> bool) (w : jsstring) :
  forallb p w = true -> forallb p (lineRest w) = true.
Proof.
  induction w as [|c w IH]; [reflexivity|].
  cbn [forallb lineRest]. intros H.
  destruct (isLineTerminator c); [exact H|].
  apply andb_true_iff in H as [_ Hw]. now apply IH.
Qed.

(** A reference at the head of a text is the reference of its first line,
    and no line it swallows has one. *)
Lemma referenceAt_lastReference (a : jsstring) m v w post :
  referenceAt a = Some (m, v, w, post) ->
  lastReference a
  = match lastReference post with
    | Some y => Some y
    | None => Some v
    end.
Proof.
  intros H.
  pose proof (referenceAt_line a) as Hline. rewrite H in Hline.
  cbn [option_map fst snd] in Hline.
  destruct (referenceAt_parts _ _ _ _ _ H) as [Hv [Hw Hp]].
  apply referenceAt_split in H as [Ha Hm].
  set (P := js "//" ++ [m] ++ js " sourceMappingURL=" ++ v).
  assert (HP : noTerminator P = true).
  { unfold P, noTerminator. rewrite !forallb_app. fold (noTerminator v).
    rewrite Hv. cbn [forallb js]. 
    rewrite (SourceURLFacts.marker_noTerminator _ Hm). reflexivity. }
  assert (HT : referenceText m v w = P ++ w).
  { unfold referenceText, P. now rewrite <- !app_assoc. }
  rewrite HT in Ha. subst a.
  rewrite lastReference_app by exact Hp.
  destruct (lastReference post); [reflexivity|].
  rewrite (line_split w), app_assoc.
  rewrite lastReference_app by
    (pose proof (lineRest_head w) as Hh; destruct (lineRest w); [reflexivity|exact Hh]).
  rewrite (lastReference_spaces _ (forallb_lineRest _ _ Hw)).
  unfold lastReference. rewrite lineTexts_line.
  - cbn [map lastSome].
    rewrite <- app_assoc, lineOf_app in Hline by exact HP.
    rewrite lineOf_app_endsLine in Hline by exact Hp.
    unfold P in *. cbn [js app] in *.
    cbn [lineReference]. now rewrite <- Hline.
  - unfold noTerminator. rewrite forallb_app. fold (noTerminator P).
    rewrite HP. apply lineOf_noTerminator.
Qed.

Lemma firstReference_cons (c : N) (t : jsstring) :
  firstReference (c :: t)
  = match referenceAt (c :: t) with
    | Some ref => Some ([], ref)
    | None =>
        match firstReference t with
        | Some (pre, ref) => Some (c :: pre, ref)
        | None => None
        end
    end.
Proof. reflexivity. Qed.

Lemma firstReference_lastReference (a : jsstring) : forall pre m v w post,
  firstReference a = Some (pre, (m, v, w, post)) ->
  lastReference a
  = match lastReference post with
    | Some y => Some y
    | None => Some v
    end.
Proof.
  induction a as [|c t IH]; intros pre m v w post.
  - cbn. discriminate.
  - rewrite firstReference_cons.
    destruct (referenceAt (c :: t)) as [ref|] eqn:E.
    + intros [= <- ->]. now apply referenceAt_lastReference with (m := m) (w := w).
    + destruct (firstReference t) as [[pre0 ref0]|] eqn:E0; [|discriminate].
      intros [= <- ->]. rewrite (lastReference_step _ _ E).
      now apply IH with (pre := pre0) (m := m) (w := w).
Qed.

Lemma firstReference_none (a : jsstring) :
  firstReference a = None -> lastReference a = None.
Proof.
  induction a as [|c t IH]; [reflexivity|].
  rewrite firstReference_cons.
  destruct (referenceAt (c :: t)) as [ref|] eqn:E; [discriminate|].
  destruct (firstReference t) as [[pre0 ref0]|] eqn:E0; [discriminate|].
  intros _. rewrite (lastReference_step _ _ E). now apply IH.
Qed.

(** *** The scan *)

Lemma firstReference_length (a : jsstring) pre m v w post :
  firstReference a = Some (pre, (m, v, w, post)) -> length post < length a.
Proof.
  intros H. apply firstReference_split in H. subst a.
  unfold referenceText. rewrite !length_app. cbn [length js]. lia.
Qed.

Lemma scanReferences_lastReference (fuel : nat) : forall a,
  length a < fuel ->
  lastSome (map (fun ref => Some (referenceValue ref)) (scanReferences fuel a))
  = lastReference a.
Proof.
  induction fuel as [|fuel IH]; intros a Hlen; [lia|].
  cbn [scanReferences].
  destruct (firstReference a) as [[pre [[[m v] w] post]]|] eqn:E.
  - cbn [map lastSome referenceValue fst snd].
    rewrite IH by (apply firstReference_length in E; lia).
    symmetry. now apply firstReference_lastReference with (pre := pre) (m := m) (w := w).
  - symmetry. now apply firstReference_none.
Qed.

Lemma matchLoop_scan (fuel : nat) : forall b a,
  matchLoop fuel SourceMapURLGlobalRegex b a
  = map (fun ref => referenceText (fst (fst ref)) (snd (fst ref)) (snd ref))
        (scanReferences fuel a).
Proof.
  induction fuel as [|fuel IH]; intros b a; [reflexivity|].
  cbn [matchLoop scanReferences]. unfold SourceMapURLGlobalRegex in *.
  rewrite search_SourceMapURLRegex.
  destruct (firstReference a) as [[pre [[[m v] w] post]]|]; [|reflexivity].
  cbn [m_text m_post m_pre map fst snd].
  change (referenceText m v w)
    with (47%N :: 47%N :: m :: js " sourceMappingURL=" ++ v ++ w) at 1.
  cbv iota. now rewrite IH.
Qed.

(** Every reference of the scan is a reference at some position. *)
Lemma firstReference_at (a : jsstring) : forall pre ref,
  firstReference a = Some (pre, ref) -> exists s, referenceAt s = Some ref.
Proof.
  induction a as [|c t IH]; intros pre ref.
  - cbn. discriminate.
  - rewrite firstReference_cons.
    destruct (referenceAt (c :: t)) as [ref0|] eqn:E.
    + intros [= <- <-]. now exists (c :: t).
    + destruct (firstReference t) as [[pre0 ref0]|] eqn:E0; [|discriminate].
      intros [= <- <-]. now apply IH with (pre := pre0).
Qed.

Lemma scanReferences_at (fuel : nat) : forall a,
  Forall (fun ref =>
            exists s post,
              referenceAt s
              = Some (fst (fst ref), snd (fst ref), snd ref, post))
         (scanReferences fuel a).
Proof.
  induction fuel as [|fuel IH]; intros a; [constructor|].
  cbn [scanReferences].
  destruct (firstReference a) as [[pre [[[m v] w] post]]|] eqn:E;
    constructor; [|apply IH].
  apply firstReference_at in E as [s Hs]. now exists s, post.
Qed.

(** Matching the text of a reference again gives the same value. *)
Lemma rematch_value (s : jsstring) m v w post :
  referenceAt s = Some (m, v, w, post) ->
  match exec SourceMapURLRegex (referenceText m v w) with
  | Some sourceMapMatch => group 2 sourceMapMatch
  | None => None
  end = Some v.
Proof.
  intros H.
  pose proof (referenceAt_line s) as Hs. rewrite H in Hs.
  cbn [option_map fst snd] in Hs.
  destruct (referenceAt_parts _ _ _ _ _ H) as [_ [_ Hp]].
  apply referenceAt_split in H as [Ha _]. subst s.
  rewrite lineOf_app_endsLine in Hs by exact Hp.
  pose proof (referenceAt_line (referenceText m v w)) as Ht.
  rewrite <- Hs in Ht.
  rewrite exec_SourceMapURLRegex.
  assert (Hcons : referenceText m v w
                  = 47%N :: (47%N :: m :: js " sourceMappingURL=" ++ v ++ w)).
  { reflexivity. }
  rewrite Hcons in *. rewrite firstReference_cons.
  destruct (referenceAt (47%N :: 47%N :: m :: js " sourceMappingURL=" ++ v ++ w))
    as [[[[m2 v2] w2] post2]|]; [|discriminate Ht].
  cbn [option_map fst snd] in Ht. injection Ht as ->.
  reflexivity.
Qed.

Lemma last_default {A : Type} (l : list A) : forall x d d',
  last (x :: l) d = last (x :: l) d'.
Proof.
  induction l as [|y l IH]; intros x d d'; [reflexivity|].
  change (last (x :: y :: l) d) with (last (y :: l) d).
  change (last (x :: y :: l) d') with (last (y :: l) d').
  apply IH.
Qed.

Lemma last_in {A : Type} (l : list A) : forall x d, In (last (x :: l) d) (x :: l).
Proof.
  induction l as [|y l IH]; intros x d; [now left|].
  right. change (last (x :: y :: l) d) with (last (y :: l) d). apply IH.
Qed.

Lemma lastSome_last {A : Type} (f : A -> jsstring) (x : A) (l : list A) :
  lastSome (map (fun r => Some (f r)) (x :: l)) = Some (f (last (x :: l) x)).
Proof.
  revert x. induction l as [|y l IH]; intros x; [reflexivity|].
  change (lastSome (map (fun r => Some (f r)) (x :: y :: l)))
    with (match lastSome (map (fun r => Some (f r)) (y :: l)) with
          | Some z => Some z
          | None => Some (f x)
          end).
  rewrite IH.
  change (last (x :: y :: l) x) with (last (y :: l) x).
  now rewrite (last_default l y y x).
Qed.

(** [getSourceMapRelativeUrl] returns the value of the last reference of
    the scan. *)
Lemma getSourceMapRelativeUrl_scan (body : jsstring) :
  getSourceMapRelativeUrl body
  = lastSome (map (fun ref => Some (referenceValue ref))
                  (scanReferences (S (length body)) body)).
Proof.
  unfold getSourceMapRelativeUrl, matchGlobal. rewrite matchLoop_scan.
  pose proof (scanReferences_at (S (length body)) body) as Hat.
  destruct (scanReferences (S (length body)) body) as [|ref refs];
    [reflexivity|].
  rewrite lastSome_last.
  set (text := fun ref : N * jsstring * jsstring =>
                 referenceText (fst (fst ref)) (snd (fst ref)) (snd ref)) in *.
  assert (Hlast : last (map text (ref :: refs)) [] = text (last (ref :: refs) ref)).
  { clear Hat. revert ref. induction refs as [|r refs IH]; intros ref;
      [reflexivity|].
    change (last (map text (ref :: r :: refs)) [])
      with (last (map text (r :: refs)) []).
    rewrite IH.
    change (last (ref :: r :: refs) ref) with (last (r :: refs) ref).
    now rewrite (last_default refs r r ref). }
  cbn [map] in Hlast |- *. rewrite Hlast.
  pose proof (last_in refs ref ref) as Hin.
  rewrite Forall_forall in Hat. destruct (Hat _ Hin) as [s [post Hs]].
  destruct (last (ref :: refs) ref) as [[m v] w]. cbn [fst snd] in Hs.
  unfold text, referenceValue. cbn [fst snd].
  now apply rematch_value with (s := s) (post := post).
Qed.

End LocatorFacts.

(** ** Paths *)

Module PathFacts.
Import JS JSFacts Path.

Lemma splitOn_cons (sep c : N) (s : jsstring) :
  splitOn sep (c :: s)
  = if N.eqb c sep then [] :: splitOn sep s
    else (c :: hd [] (splitOn sep s)) :: tl (splitOn sep s).
Proof.
  cbn [splitOn]. destruct (splitOn sep s) as [|seg segs] eqn:E.
  - destruct s; cbn in E; [discriminate|].
    destruct (splitOn sep s); [discriminate|].
    destruct (N.eqb n sep); discriminate.
  - destruct (N.eqb c sep); reflexivity.
Qed.

Lemma splitOn_head (sep : N) (s : jsstring) :
  splitOn sep s = hd [] (splitOn sep s) :: tl (splitOn sep s).
Proof.
  destruct s as [|c s]; [reflexivity|].
  rewrite splitOn_cons. destruct (N.eqb c sep); reflexivity.
Qed.

Lemma splitOn_app_sep (sep : N) (x y : jsstring) :
  splitOn sep (x ++ sep :: y) = splitOn sep x ++ splitOn sep y.
Proof.
  induction x as [|c x IH].
  - cbn [app]. rewrite splitOn_cons, N.eqb_refl. reflexivity.
  - cbn [app]. rewrite !splitOn_cons, IH.
    destruct (N.eqb c sep); [reflexivity|].
    rewrite (splitOn_head sep x) at 1 2. reflexivity.
Qed.

Lemma splitOn_plain (x : jsstring) :
  noSlash x = true -> splitOn slash x = [x].
Proof.
  induction x as [|c x IH]; [reflexivity|].
  cbn [noSlash forallb]. fold (noSlash x). intros H.
  apply andb_true_iff in H as [Hc Hx]. apply negb_true_iff in Hc.
  rewrite splitOn_cons, Hc, (IH Hx). reflexivity.
Qed.

Lemma splitOn_joinWith (l : list jsstring) :
  l <> [] ->
  Forall (fun seg => noSlash seg = true) l ->
  splitOn slash (joinWith [slash] l) = l.
Proof.
  induction l as [|x l IH]; [congruence|]. intros _ H.
  inversion H as [|? ? Hx Hl]; subst.
  destruct l as [|y l].
  - cbn [joinWith]. now apply splitOn_plain.
  - change (joinWith [slash] (x :: y :: l))
      with (x ++ slash :: joinWith [slash] (y :: l)).
    rewrite splitOn_app_sep, (splitOn_plain _ Hx), IH; [reflexivity|discriminate|exact Hl].
Qed.

Lemma splitOn_noSlash (s : jsstring) :
  Forall (fun seg => noSlash seg = true) (splitOn slash s).
Proof.
  induction s as [|c s IH]; [repeat constructor|].
  rewrite splitOn_cons. rewrite (splitOn_head slash s) in IH.
  inversion IH as [|? ? Hh Ht]; subst.
  destruct (N.eqb c slash) eqn:E.
  - constructor; [reflexivity|]. now rewrite (splitOn_head slash s).
  - constructor; [|exact Ht]. cbn [noSlash forallb]. fold (noSlash (hd [] (splitOn slash s))).
    now rewrite E, Hh.
Qed.

(** *** [normalizeSegments] *)

Lemma normalizeSegments_app (al : bool) (l1 l2 : list jsstring) : forall stack,
  normalizeSegments al stack (l1 ++ l2)
  = normalizeSegments al (rev (normalizeSegments al stack l1)) l2.
Proof.
  induction l1 as [|seg l1 IH]; intros stack.
  - cbn [app normalizeSegments]. now rewrite rev_involutive.
  - cbn [app normalizeSegments].
    destruct (negb (nonEmpty seg) || eqb seg dot); [apply IH|].
    destruct (eqb seg dotdot); [|apply IH].
    destruct stack as [|top stack']; [apply IH|].
    destruct (eqb top dotdot); apply IH.
Qed.

Lemma isNormal_parts (seg : jsstring) :
  isNormal seg = true ->
  nonEmpty seg = true /\ eqb seg dot = false /\ eqb seg dotdot = false
  /\ noSlash seg = true.
Proof.
  unfold isNormal. intros H.
  apply andb_true_iff in H as [H H4]. apply andb_true_iff in H as [H H3].
  apply andb_true_iff in H as [H1 H2].
  apply negb_true_iff in H2. apply negb_true_iff in H3. now repeat split.
Qed.

Lemma normalizeSegments_normal (segs : list jsstring) : forall stack,
  Forall (fun seg => isNormal seg = true) stack ->
  Forall (fun seg => noSlash seg = true) segs ->
  Forall (fun seg => isNormal seg = true) (normalizeSegments false stack segs).
Proof.
  induction segs as [|seg segs IH]; intros stack Hst Hsegs.
  - cbn [normalizeSegments]. now apply Forall_rev.
  - inversion Hsegs as [|? ? Hseg Hrest]; subst.
    cbn [normalizeSegments].
    destruct (negb (nonEmpty seg) || eqb seg dot) eqn:E1; [now apply IH|].
    destruct (eqb seg dotdot) eqn:E2.
    + destruct stack as [|top stack']; [now apply IH|].
      inversion Hst as [|? ? Htop Hst']; subst.
      destruct (isNormal_parts _ Htop) as [_ [_ [Hdd _]]]. rewrite Hdd.
      now apply IH.
    + apply IH; [|exact Hrest]. constructor; [|exact Hst].
      apply orb_false_iff in E1 as [E0 E1]. apply negb_false_iff in E0.
      unfold isNormal. now rewrite E0, E1, E2, Hseg.
Qed.

Lemma normalizeSegments_push (al : bool) (l : list jsstring) : forall stack,
  Forall (fun seg => isNormal seg = true) l ->
  normalizeSegments al stack l = rev stack ++ l.
Proof.
  induction l as [|seg l IH]; intros stack H.
  - cbn [normalizeSegments]. now rewrite app_nil_r.
  - inversion H as [|? ? Hseg Hl]; subst.
    destruct (isNormal_parts _ Hseg) as [H1 [H2 [H3 _]]].
    cbn [normalizeSegments]. rewrite H1, H2, H3. cbn [negb orb].
    rewrite (IH _ Hl). cbn [rev]. now rewrite <- app_assoc.
Qed.

Lemma normalizeSegments_pop (popped : list jsstring) : forall st rest,
  Forall (fun seg => isNormal seg = true) popped ->
  normalizeSegments false (popped ++ st) (ups popped ++ rest)
  = normalizeSegments false st rest.
Proof.
  induction popped as [|x popped IH]; intros st rest H; [reflexivity|].
  inversion H as [|? ? Hx Hp]; subst.
  destruct (isNormal_parts _ Hx) as [_ [_ [Hdd _]]].
  cbn [ups map app normalizeSegments]. fold (ups popped).
  change (negb (nonEmpty dotdot) || eqb dotdot dot) with false.
  change (eqb dotdot dotdot) with true. cbv iota. rewrite Hdd.
  now apply IH.
Qed.

Lemma ups_rev (l : list jsstring) : ups (rev l) = ups l.
Proof.
  unfold ups. induction l as [|x l IH]; [reflexivity|].
  cbn [rev map]. rewrite map_app, IH. cbn [map].
  clear IH. induction l as [|y l IH]; [reflexivity|].
  cbn [map app]. now rewrite IH.
Qed.

Lemma ups_stack (l : list jsstring) : rev (ups l) = ups l.
Proof.
  unfold ups. induction l as [|x l IH]; [reflexivity|].
  cbn [map rev]. rewrite IH.
  clear IH. induction l as [|y l IH]; [reflexivity|].
  cbn [map app]. now rewrite IH.
Qed.

(** With [allowAboveRoot], leading [..] segments are kept. *)
Lemma normalizeSegments_keep (l : list jsstring) : forall kept rest,
  normalizeSegments true (ups kept) (ups l ++ rest)
  = normalizeSegments true (ups (l ++ kept)) rest.
Proof.
  induction l as [|x l IH]; intros kept rest; [reflexivity|].
  cbn [ups map app normalizeSegments]. fold (ups l). fold (ups kept).
  change (negb (nonEmpty dotdot) || eqb dotdot dot) with false.
  change (eqb dotdot dotdot) with true. cbv iota.
  assert (Hpush :
    match ups kept with
    | [] => normalizeSegments true [dotdot] (ups l ++ rest)
    | top :: stack' =>
        if eqb top dotdot
        then normalizeSegments true (dotdot :: ups kept) (ups l ++ rest)
        else normalizeSegments true stack' (ups l ++ rest)
    end = normalizeSegments true (ups (x :: kept)) (ups l ++ rest)).
  { destruct kept as [|k kept]; reflexivity. }
  rewrite Hpush. rewrite (IH (x :: kept) rest).
  f_equal. unfold ups. rewrite !map_app. cbn [map].
  clear. induction l as [|y l IH]; [reflexivity|].
  cbn [map app]. now rewrite IH.
Qed.

(** *** [resolve] *)

Lemma resolve_absolute_cwd (cwd path : jsstring) :
  isAbsolute cwd = true ->
  resolve cwd path = slash :: joinWith [slash] (resolvedSegments cwd path).
Proof.
  intros Hcwd. unfold resolve, resolvedSegments, resolveInput, normalizeString.
  assert (Hne : nonEmpty cwd = true) by (destruct cwd; [discriminate|reflexivity]).
  destruct path as [|c path].
  - cbn [snd fst nonEmpty negb orb]. rewrite Hne. cbn [negb].
    rewrite Hcwd. cbn [app negb]. reflexivity.
  - cbn [snd fst nonEmpty negb orb].
    destruct (isAbsolute (c :: path)) eqn:Ea.
    + cbn [orb fst snd negb app]. reflexivity.
    + cbn [orb fst snd]. rewrite Hne. cbn [negb].
      rewrite Hcwd. cbn [negb app]. reflexivity.
Qed.

Lemma resolvedSegments_normal (cwd path : jsstring) :
  Forall (fun seg => isNormal seg = true) (resolvedSegments cwd path).
Proof.
  unfold resolvedSegments. apply normalizeSegments_normal;
    [constructor|apply splitOn_noSlash].
Qed.

Lemma normal_noSlash (l : list jsstring) :
  Forall (fun seg => isNormal seg = true) l ->
  Forall (fun seg => noSlash seg = true) l.
Proof.
  intros H. eapply Forall_impl; [|exact H].
  intros seg Hs. now apply isNormal_parts in Hs.
Qed.

Lemma normal_nonEmpty (l : list jsstring) :
  Forall (fun seg => isNormal seg = true) l -> filter nonEmpty l = l.
Proof.
  induction l as [|x l IH]; [reflexivity|]. intros H.
  inversion H as [|? ? Hx Hl]; subst. apply isNormal_parts in Hx as [Hx _].
  cbn [filter]. now rewrite Hx, (IH Hl).
Qed.

Lemma segments_of_normal (l : list jsstring) :
  Forall (fun seg => isNormal seg = true) l ->
  segments (slash :: joinWith [slash] l) = l.
Proof.
  intros H. unfold segments. rewrite splitOn_cons, N.eqb_refl.
  destruct l as [|x l]; [reflexivity|].
  rewrite splitOn_joinWith; [|discriminate|now apply normal_noSlash].
  change (filter nonEmpty ([] :: x :: l)) with (filter nonEmpty (x :: l)).
  now apply normal_nonEmpty.
Qed.

Lemma segments_resolve (cwd path : jsstring) :
  isAbsolute cwd = true ->
  segments (resolve cwd path) = resolvedSegments cwd path.
Proof.
  intros H. rewrite (resolve_absolute_cwd _ _ H).
  apply segments_of_normal, resolvedSegments_normal.
Qed.

(** *** [relative] *)

Lemma dropCommon_same (a : list jsstring) : dropCommon a a = ([], []).
Proof.
  induction a as [|x a IH]; [reflexivity|].
  cbn [dropCommon]. now rewrite eqb_refl.
Qed.

Lemma dropCommon_split (a : list jsstring) : forall b up down,
  dropCommon a b = (up, down) ->
  exists common, a = common ++ up /\ b = common ++ down.
Proof.
  induction a as [|x a IH]; intros b up down.
  - cbn. intros [= <- <-]. now exists [].
  - destruct b as [|y b]; cbn [dropCommon].
    + intros [= <- <-]. now exists [].
    + destruct (eqb x y) eqn:E.
      * apply eqb_eq in E; subst y. intros H.
        destruct (IH _ _ _ H) as [common [-> ->]]. now exists (x :: common).
      * intros [= <- <-]. now exists [].
Qed.

Lemma relative_segments (cwd from to : jsstring) :
  relative cwd from to
  = let '(up, down) :=
      dropCommon (segments (resolve cwd from)) (segments (resolve cwd to)) in
    joinWith [slash] (ups up ++ down).
Proof.
  unfold relative. destruct (eqb from to) eqn:E; [|reflexivity].
  apply eqb_eq in E; subst to. now rewrite dropCommon_same.
Qed.

(** *** [makeUnixStylePath] on a relative path *)

Lemma ups_normalish (up down : list jsstring) :
  Forall (fun seg => isNormal seg = true) down ->
  Forall (fun seg => nonEmpty seg = true /\ noSlash seg = true) (ups up ++ down).
Proof.
  intros H. apply Forall_app. split.
  - unfold ups. apply Forall_forall. intros seg Hin.
    apply in_map_iff in Hin as [? [<- _]]. now split.
  - eapply Forall_impl; [|exact H]. intros seg Hs.
    apply isNormal_parts in Hs as [H1 [_ [_ H4]]]. now split.
Qed.

Lemma joinWith_not_absolute (l : list jsstring) :
  l <> [] ->
  Forall (fun seg => nonEmpty seg = true /\ noSlash seg = true) l ->
  nonEmpty (joinWith [slash] l) = true
  /\ isAbsolute (joinWith [slash] l) = false.
Proof.
  destruct l as [|x l]; [congruence|]. intros _ H.
  inversion H as [|? ? [Hx Hs] _]; subst.
  destruct x as [|c x]; [discriminate|].
  cbn [noSlash forallb] in Hs. apply andb_true_iff in Hs as [Hc _].
  apply negb_true_iff in Hc.
  destruct l; cbn [joinWith app nonEmpty isAbsolute]; now split.
Qed.

Lemma endsWithSlash_app (y x : jsstring) :
  nonEmpty x = true -> noSlash x = true -> endsWithSlash (y ++ x) = false.
Proof.
  intros Hne Hs. unfold endsWithSlash. rewrite rev_app_distr.
  destruct x as [|c x] using rev_ind; [discriminate|].
  rewrite rev_app_distr. cbn [rev app].
  unfold noSlash in Hs. rewrite forallb_app in Hs.
  apply andb_true_iff in Hs as [_ Hc]. cbn [forallb] in Hc.
  rewrite andb_true_r in Hc. now apply negb_true_iff in Hc.
Qed.

Lemma joinWith_not_trailing (l : list jsstring) :
  l <> [] ->
  Forall (fun seg => nonEmpty seg = true /\ noSlash seg = true) l ->
  endsWithSlash (joinWith [slash] l) = false.
Proof.
  induction l as [|x l IH]; [congruence|]. intros _ H.
  inversion H as [|? ? [Hx Hs] Hl]; subst.
  destruct l as [|y l].
  - cbn [joinWith]. now apply (endsWithSlash_app []).
  - change (joinWith [slash] (x :: y :: l))
      with (x ++ [slash] ++ joinWith [slash] (y :: l)).
    specialize (IH ltac:(discriminate) Hl).
    unfold endsWithSlash in *. rewrite !rev_app_distr.
    destruct (rev (joinWith [slash] (y :: l))) as [|c r] eqn:E; [|exact IH].
    apply (f_equal (@rev N)) in E. rewrite rev_involutive in E. cbn [rev] in E.
    inversion Hl as [|? ? [Hy _] _]; subst.
    destruct y; [discriminate|]. destruct l; discriminate E.
Qed.

Lemma makeUnixStylePath_relative (up down : list jsstring) :
  Forall (fun seg => isNormal seg = true) down ->
  SourceMapUtil.makeUnixStylePath (joinWith [slash] (ups up ++ down))
  = match ups up ++ down with
    | [] => dot
    | _ :: _ => joinWith [slash] (ups up ++ down)
    end.
Proof.
  intros Hdown. pose proof (ups_normalish up down Hdown) as Hud.
  destruct (ups up ++ down) as [|x l] eqn:E; [reflexivity|].
  assert (Hne : x :: l <> []) by discriminate.
  unfold SourceMapUtil.makeUnixStylePath, join.
  rewrite splitOn_joinWith;
    [|exact Hne|eapply Forall_impl; [|exact Hud]; now intros ? [_ ?]].
  assert (Hf : filter nonEmpty (x :: l) = x :: l).
  { clear -Hud. induction Hud as [|y l' [Hy _] _ IH]; [reflexivity|].
    cbn [filter]. now rewrite Hy, IH. }
  rewrite Hf.
  destruct (joinWith_not_absolute _ Hne Hud) as [Hn Ha].
  pose proof (joinWith_not_trailing _ Hne Hud) as Ht.
  unfold normalize. rewrite Ha, Ht.
  destruct (joinWith [slash] (x :: l)) as [|c r] eqn:Ej; [discriminate Hn|].
  rewrite <- Ej. unfold normalizeString.
  rewrite splitOn_joinWith;
    [|exact Hne|eapply Forall_impl; [|exact Hud]; now intros ? [_ ?]].
  rewrite <- E.
  pose proof (normalizeSegments_keep up [] down) as Hk.
  cbn [ups map] in Hk. rewrite app_nil_r in Hk. fold (ups up) in Hk.
  cbn [negb]. rewrite Hk, (normalizeSegments_push true down (ups up) Hdown).
  rewrite ups_stack, E, Ej. cbn [app]. now rewrite app_nil_r.
Qed.

(** *** Resolving a relative path again *)

Lemma resolvedSegments_cwd (cwd : jsstring) :
  resolvedSegments cwd [] = normalizeSegments false [] (splitOn slash cwd).
Proof.
  unfold resolvedSegments, resolveInput.
  rewrite splitOn_app_sep, normalizeSegments_app. cbn [splitOn normalizeSegments].
  cbn [nonEmpty negb orb]. now rewrite rev_involutive.
Qed.

Lemma resolvedSegments_relative (cwd r : jsstring) :
  nonEmpty r = true -> isAbsolute r = false ->
  resolvedSegments cwd r
  = normalizeSegments false (rev (resolvedSegments cwd []))
      (splitOn slash r ++ [[]]).
Proof.
  intros Hn Ha. rewrite resolvedSegments_cwd.
  unfold resolvedSegments, resolveInput.
  destruct r as [|c r]; [discriminate|]. rewrite Ha.
  rewrite splitOn_app_sep, normalizeSegments_app. f_equal.
  change (c :: r ++ [slash]) with ((c :: r) ++ slash :: []).
  now rewrite splitOn_app_sep.
Qed.

(** When the working directory is the root the relative path was computed
    from, the relative path resolves to the path it came from. *)
Lemma resolvedSegments_round (cwd root p : jsstring) :
  isAbsolute cwd = true ->
  resolvedSegments cwd root = resolvedSegments cwd [] ->
  resolvedSegments cwd
    (SourceMapUtil.makeUnixStylePath (relative cwd root p))
  = resolvedSegments cwd p.
Proof.
  intros Hcwd Hroot.
  rewrite relative_segments, !segments_resolve by exact Hcwd.
  destruct (dropCommon (resolvedSegments cwd root) (resolvedSegments cwd p))
    as [up down] eqn:Ed.
  apply dropCommon_split in Ed as [common [Hf Ht]].
  pose proof (resolvedSegments_normal cwd root) as Hnf.
  pose proof (resolvedSegments_normal cwd p) as Hnt.
  rewrite Hf in Hnf. rewrite Ht in Hnt.
  apply Forall_app in Hnf as [Hcommon Hup].
  apply Forall_app in Hnt as [_ Hdown].
  rewrite makeUnixStylePath_relative by exact Hdown.
  pose proof (ups_normalish up down Hdown) as Hud.
  destruct (ups up ++ down) as [|x l] eqn:E.
  - apply app_eq_nil in E as [Eu ->]. destruct up; [|discriminate Eu].
    rewrite resolvedSegments_relative by reflexivity.
    rewrite <- Hroot, Hf, Ht, !app_nil_r.
    change (splitOn slash dot ++ [[]]) with [dot; []].
    cbn [normalizeSegments]. change (eqb dot dot) with true.
    rewrite orb_true_r. cbn [nonEmpty negb orb].
    now rewrite rev_involutive.
  - assert (Hne : x :: l <> []) by discriminate.
    destruct (joinWith_not_absolute _ Hne Hud) as [Hn Ha].
    rewrite resolvedSegments_relative by assumption.
    rewrite splitOn_joinWith;
      [|exact Hne|eapply Forall_impl; [|exact Hud]; now intros ? [_ ?]].
    rewrite <- E, <- Hroot, Hf, Ht, rev_app_distr, <- !app_assoc.
    rewrite <- (ups_rev up).
    rewrite normalizeSegments_pop by (now apply Forall_rev).
    rewrite normalizeSegments_app.
    rewrite (normalizeSegments_push false down (rev common) Hdown).
    rewrite rev_involutive. cbn [normalizeSegments nonEmpty negb orb].
    now rewrite rev_involutive.
Qed.

(** The normalizer without packager roots is idempotent when the working
    directory is the sources root. *)
Lemma relative_round (cwd root p : jsstring) :
  isAbsolute cwd = true ->
  resolvedSegments cwd root = resolvedSegments cwd [] ->
  relative cwd root (SourceMapUtil.makeUnixStylePath (relative cwd root p))
  = relative cwd root p.
Proof.
  intros Hcwd Hroot.
  rewrite (relative_segments cwd root
             (SourceMapUtil.makeUnixStylePath (relative cwd root p))).
  rewrite (relative_segments cwd root p) at 2.
  rewrite !segments_resolve by exact Hcwd.
  now rewrite resolvedSegments_round.
Qed.

End PathFacts.

(** ** The rewrite of a document *)

Module DocumentFacts.
Import JS JSFacts Regex SourceMapText Path PathFacts Json JsonFacts SourceMapUtil.

Lemma string_neq (a b : jsstring) : eqb a b = false -> a <> b.
Proof. apply eqb_neq. Qed.

(** The fields the three final statements leave. *)
Lemma finalFields_lookup (scriptPath : jsstring) (fields : list (jsstring * json)) :
  lookup (js "sourcesContent") (finalFields scriptPath fields) = None
  /\ lookup (js "sourceRoot") (finalFields scriptPath fields) = Some (JString [])
  /\ lookup (js "file") (finalFields scriptPath fields)
     = Some (JString scriptPath).
Proof.
  unfold finalFields. repeat split.
  - rewrite !lookup_setField_other by (apply string_neq; reflexivity).
    apply lookup_deleteField_same.
  - rewrite lookup_setField_other by (apply string_neq; reflexivity).
    apply lookup_setField_same.
  - apply lookup_setField_same.
Qed.

Lemma finalFields_other (scriptPath key : jsstring) (fields : list (jsstring * json)) :
  key <> js "sourcesContent" -> key <> js "sourceRoot" -> key <> js "file" ->
  lookup key (finalFields scriptPath fields) = lookup key fields.
Proof.
  intros H1 H2 H3. unfold finalFields.
  rewrite !lookup_setField_other by assumption.
  now apply lookup_deleteField_other.
Qed.

Lemma finalFields_fixed (scriptPath : jsstring) (fields : list (jsstring * json)) :
  lookup (js "sourcesContent") fields = None ->
  lookup (js "sourceRoot") fields = Some (JString []) ->
  lookup (js "file") fields = Some (JString scriptPath) ->
  finalFields scriptPath fields = fields.
Proof.
  intros H1 H2 H3. unfold finalFields.
  rewrite (deleteField_absent _ _ H1), (setField_same _ _ _ H2).
  now apply setField_same.
Qed.

Section Document.

Variable cwd : jsstring.
Variable numberToString : jsstring -> jsstring.
Variable flattenSourceMap : json -> result json.
Variable convert : json -> result json.

#[local] Abbreviation rewriteSource := (rewriteSource cwd numberToString).
#[local] Abbreviation rewriteSourcesFields :=
  (rewriteSourcesFields cwd numberToString).
#[local] Abbreviation updateSourceMapDocument :=
  (updateSourceMapDocument cwd numberToString flattenSourceMap convert).

(** The end of the [try] block on an object. *)
Lemma rewrite_object (sourcesRootPath scriptPath : jsstring)
    (packagerRemoteRoot packagerLocalRoot : option jsstring)
    (fields : list (jsstring * json)) :
  (sources <- getProperty (JObject fields) (js "sources") ;;
   sourceMap <-
     (if truthy numberToString sources then
        match sources with
        | Own (JArray items) =>
            items' <- mapM (rewriteSource sourcesRootPath
                              packagerRemoteRoot packagerLocalRoot) items ;;
            setProperty (JObject fields) (js "sources") (JArray items')
        | _ => Throw
        end
      else Ok (JObject fields)) ;;
   sourceMap <- deleteProperty sourceMap (js "sourcesContent") ;;
   sourceMap <- setProperty sourceMap (js "sourceRoot") (JString []) ;;
   sourceMap <- setProperty sourceMap (js "file") (JString scriptPath) ;;
   Ok sourceMap)
  = (fs <- rewriteSourcesFields sourcesRootPath
             packagerRemoteRoot packagerLocalRoot fields ;;
     Ok (JObject (finalFields scriptPath fs))).
Proof.
  unfold SourceMapUtil.rewriteSourcesFields. cbn [getProperty bind].
  destruct (lookup (js "sources") fields) as [w|]; [|reflexivity].
  cbn [truthy]. destruct (toBoolean numberToString w); [|reflexivity].
  destruct w as [| | | |items|]; try reflexivity.
  destruct (mapM (rewriteSource sourcesRootPath packagerRemoteRoot
                    packagerLocalRoot) items); reflexivity.
Qed.

(** A completed rewrite whose result is an object. *)
Lemma updateSourceMapDocument_object
    (sourceMapBody scriptPath sourcesRootPath : jsstring)
    (packagerRemoteRoot packagerLocalRoot : option jsstring)
    (fields : list (jsstring * json)) :
  updateSourceMapDocument sourceMapBody scriptPath sourcesRootPath
    packagerRemoteRoot packagerLocalRoot = Ok (JObject fields) ->
  exists converted fs,
    rewriteSourcesFields sourcesRootPath packagerRemoteRoot packagerLocalRoot
      converted = Ok fs
    /\ fields = finalFields scriptPath fs.
Proof.
  unfold SourceMapUtil.updateSourceMapDocument. intros H.
  destruct (parse sourceMapBody) as [v0|]; [|discriminate]. cbn [bind] in H.
  destruct (getProperty v0 (js "sections")) as [sections|]; [|discriminate].
  cbn [bind] in H.
  match type of H with
  | bind ?flat _ = _ => destruct flat as [v1|]; [|discriminate]
  end.
  cbn [bind] in H.
  destruct (convert v1) as [v2|]; [|discriminate]. cbn [bind] in H.
  destruct v2 as [| | | |items|converted].
  - discriminate H.
  - cbn [getProperty bind truthy] in H. discriminate H.
  - cbn [getProperty bind truthy] in H. discriminate H.
  - cbn [getProperty bind truthy] in H. discriminate H.
  - cbn [getProperty bind truthy] in H.
    change (isArrayMethod (js "sources")) with false in H.
    cbn [truthy bind deleteProperty setProperty] in H. discriminate H.
  - rewrite rewrite_object in H.
    destruct (rewriteSourcesFields sourcesRootPath packagerRemoteRoot
                packagerLocalRoot converted) as [fs|] eqn:E; [|discriminate].
    cbn [bind] in H. injection H as <-. now exists converted, fs.
Qed.

(** The rewrite of a text that parses to a flat object the combinator
    hands back. *)
Lemma updateSourceMapDocument_flat
    (sourceMapBody scriptPath sourcesRootPath : jsstring)
    (packagerRemoteRoot packagerLocalRoot : option jsstring)
    (fields : list (jsstring * json)) :
  parse sourceMapBody = Ok (JObject fields) ->
  lookup (js "sections") fields = None ->
  convert (JObject fields) = Ok (JObject fields) ->
  updateSourceMapDocument sourceMapBody scriptPath sourcesRootPath
    packagerRemoteRoot packagerLocalRoot
  = (fs <- rewriteSourcesFields sourcesRootPath
             packagerRemoteRoot packagerLocalRoot fields ;;
     Ok (JObject (finalFields scriptPath fs))).
Proof.
  intros Hp Hs Hc. unfold SourceMapUtil.updateSourceMapDocument.
  rewrite Hp. cbn [bind getProperty]. rewrite Hs. cbn [truthy bind].
  rewrite Hc. cbn [bind]. apply rewrite_object.
Qed.

(** An entry that was rewritten can be rewritten again. *)
Lemma rewriteSource_again (sourcesRootPath : jsstring)
    (packagerRemoteRoot packagerLocalRoot : option jsstring) (e e' : json) :
  rewriteSource sourcesRootPath packagerRemoteRoot packagerLocalRoot e = Ok e' ->
  exists e'',
    rewriteSource sourcesRootPath packagerRemoteRoot packagerLocalRoot e'
    = Ok e''.
Proof.
  unfold SourceMapUtil.rewriteSource.
  destruct (test IS_REMOTE (toString numberToString e)) eqn:E.
  - intros [= <-]. rewrite E. now exists e.
  - destruct e; try discriminate. intros [= <-].
    match goal with
    | |- exists _, (if ?c then _ else _) = _ =>
        destruct c; eexists; reflexivity
    end.
Qed.

Lemma mapM_rewriteSource_again (sourcesRootPath : jsstring)
    (packagerRemoteRoot packagerLocalRoot : option jsstring)
    (items : list json) : forall items',
  mapM (rewriteSource sourcesRootPath packagerRemoteRoot packagerLocalRoot)
       items = Ok items' ->
  exists items'',
    mapM (rewriteSource sourcesRootPath packagerRemoteRoot packagerLocalRoot)
         items' = Ok items''.
Proof.
  induction items as [|e items IH]; intros items'; cbn [mapM].
  - intros [= <-]. now exists [].
  - destruct (rewriteSource sourcesRootPath packagerRemoteRoot
                packagerLocalRoot e) as [e'|] eqn:E; [|discriminate].
    cbn [bind].
    destruct (mapM _ items) as [rest|] eqn:E'; [|discriminate].
    cbn [bind]. intros [= <-].
    destruct (rewriteSource_again _ _ _ _ _ E) as [e'' He].
    destruct (IH _ eq_refl) as [rest'' Hr].
    exists (e'' :: rest''). cbn [mapM]. rewrite He. cbn [bind].
    rewrite Hr. reflexivity.
Qed.

(** Without packager roots and with the working directory at the sources
    root, rewriting an entry twice is rewriting it once. *)
Lemma rewriteSource_idempotent (sourcesRootPath : jsstring)
    (packagerRemoteRoot packagerLocalRoot : option jsstring) (e e' : json) :
  isAbsolute cwd = true ->
  resolve cwd sourcesRootPath = resolve cwd [] ->
  bothGiven packagerRemoteRoot packagerLocalRoot = false ->
  rewriteSource sourcesRootPath packagerRemoteRoot packagerLocalRoot e = Ok e' ->
  rewriteSource sourcesRootPath packagerRemoteRoot packagerLocalRoot e' = Ok e'.
Proof.
  intros Hcwd Hroot Hgiven. unfold SourceMapUtil.rewriteSource.
  destruct (test IS_REMOTE (toString numberToString e)) eqn:E.
  - intros [= <-]. now rewrite E.
  - destruct e as [| | |p| |]; try discriminate. intros [= <-].
    match goal with
    | |- (if ?c then _ else _) = _ => destruct c; [reflexivity|]
    end.
    f_equal. f_equal.
    assert (Hpath : forall q,
      updateSourceMapPath cwd q sourcesRootPath packagerRemoteRoot
        packagerLocalRoot
      = makeUnixStylePath (relative cwd sourcesRootPath q)).
    { intros q. unfold updateSourceMapPath. unfold bothGiven in Hgiven.
      destruct (given packagerRemoteRoot); [|reflexivity].
      destruct (given packagerLocalRoot); [discriminate|reflexivity]. }
    rewrite !Hpath. f_equal. apply relative_round; [exact Hcwd|].
    apply (f_equal segments) in Hroot.
    now rewrite !segments_resolve in Hroot by exact Hcwd.
Qed.

Lemma mapM_rewriteSource_idempotent (sourcesRootPath : jsstring)
    (packagerRemoteRoot packagerLocalRoot : option jsstring)
    (items : list json) : forall items',
  isAbsolute cwd = true ->
  resolve cwd sourcesRootPath = resolve cwd [] ->
  bothGiven packagerRemoteRoot packagerLocalRoot = false ->
  mapM (rewriteSource sourcesRootPath packagerRemoteRoot packagerLocalRoot)
       items = Ok items' ->
  mapM (rewriteSource sourcesRootPath packagerRemoteRoot packagerLocalRoot)
       items' = Ok items'.
Proof.
  induction items as [|e items IH]; intros items' Hcwd Hroot Hgiven; cbn [mapM].
  - now intros [= <-].
  - destruct (rewriteSource sourcesRootPath packagerRemoteRoot
                packagerLocalRoot e) as [e'|] eqn:E; [|discriminate].
    cbn [bind].
    destruct (mapM _ items) as [rest|] eqn:E'; [|discriminate].
    cbn [bind]. intros [= <-]. cbn [mapM].
    rewrite (rewriteSource_idempotent _ _ _ _ _ Hcwd Hroot Hgiven E).
    cbn [bind]. now rewrite (IH _ Hcwd Hroot Hgiven eq_refl).
Qed.

(** The [sources] step on the result of a first pass. *)
Lemma rewriteSourcesFields_again (sourcesRootPath scriptPath : jsstring)
    (packagerRemoteRoot packagerLocalRoot : option jsstring)
    (converted fs : list (jsstring * json)) :
  rewriteSourcesFields sourcesRootPath packagerRemoteRoot packagerLocalRoot
    converted = Ok fs ->
  exists fs2,
    rewriteSourcesFields sourcesRootPath packagerRemoteRoot packagerLocalRoot
      (finalFields scriptPath fs) = Ok fs2
    /\ (atSourcesRoot cwd sourcesRootPath
        && negb (bothGiven packagerRemoteRoot packagerLocalRoot) = true ->
        fs2 = finalFields scriptPath fs).
Proof.
  assert (Hsrc : forall f,
    lookup (js "sources") (finalFields scriptPath f) = lookup (js "sources") f).
  { intros f. apply finalFields_other; apply string_neq; reflexivity. }
  unfold SourceMapUtil.rewriteSourcesFields at 1.
  destruct (lookup (js "sources") converted) as [w|] eqn:El.
  - destruct (toBoolean numberToString w) eqn:Eb.
    + destruct w as [| | | |items|]; try discriminate.
      destruct (mapM _ items) as [items'|] eqn:Em; [|discriminate].
      cbn [bind]. intros [= <-].
      unfold SourceMapUtil.rewriteSourcesFields.
      rewrite Hsrc, lookup_setField_same. cbn [toBoolean].
      destruct (mapM_rewriteSource_again _ _ _ _ _ Em) as [items'' Hm].
      rewrite Hm. cbn [bind]. eexists. split; [reflexivity|].
      intros Hc. apply andb_true_iff in Hc as [Hroot Hg].
      apply negb_true_iff in Hg. unfold atSourcesRoot in Hroot.
      apply andb_true_iff in Hroot as [Hcwd Hroot]. apply eqb_eq in Hroot.
      rewrite (mapM_rewriteSource_idempotent _ _ _ _ _ Hcwd Hroot Hg Em) in Hm.
      injection Hm as <-. apply setField_same.
      now rewrite Hsrc, lookup_setField_same.
    + intros [= <-]. unfold SourceMapUtil.rewriteSourcesFields.
      rewrite Hsrc, El, Eb. eexists. split; [reflexivity|]. reflexivity.
  - intros [= <-]. unfold SourceMapUtil.rewriteSourcesFields.
    rewrite Hsrc, El. eexists. split; [reflexivity|]. reflexivity.
Qed.

End Document.

End DocumentFacts.

(** ** The location of the map *)

Module UrlFacts.
Import JS JSFacts Regex SourceMapText Direct LocatorFacts Url SourceMapUtil.

Lemma lineReferenceAt_nonEmpty (l v : jsstring) :
  lineReferenceAt l = Some v -> v <> [].
Proof.
  unfold lineReferenceAt.
  destruct (strip (js "//") l) as [[|m r]|]; try discriminate.
  destruct (isMarker m); [|discriminate].
  destruct (strip (js " sourceMappingURL=") r) as [rest|]; [|discriminate].
  destruct (startsWith rest (js "data:")); [discriminate|].
  destruct rest; cbn [capturedValue]; [discriminate|].
  intros [= <-]. discriminate.
Qed.

Lemma lineReference_nonEmpty (l : jsstring) : forall v,
  lineReference l = Some v -> v <> [].
Proof.
  induction l as [|c l IH]; intros v.
  - cbn. discriminate.
  - change (lineReference (c :: l))
      with (match lineReferenceAt (c :: l) with
            | Some v => Some v
            | None => lineReference l
            end).
    destruct (lineReferenceAt (c :: l)) as [v0|] eqn:E.
    + intros [= <-]. now apply lineReferenceAt_nonEmpty in E.
    + apply IH.
Qed.

Lemma lastReference_nonEmpty (body v : jsstring) :
  lastReference body = Some v -> v <> [].
Proof.
  unfold lastReference. generalize (lineTexts body) as ls.
  induction ls as [|l ls IH]; cbn [map lastSome]; [discriminate|].
  destruct (lastSome (map lineReference ls)) as [y|].
  - intros [= <-]. now apply IH.
  - apply lineReference_nonEmpty.
Qed.

(** [getSourceMapURL] returns [null] exactly when the body has no
    reference; what it returns otherwise is what the URL functions of the
    platform make of the value. *)
Lemma getSourceMapURL_absent (url_parse : jsstring -> Url)
    (url_format : Url -> jsstring) (scriptUrl : Url) (scriptBody : jsstring) :
  match lastReference scriptBody with
  | Some value =>
      getSourceMapURL url_parse url_format scriptUrl scriptBody
      = Some (url_parse
                (url_format
                   (withProtocolAndHost (url_parse value)
                      (protocol scriptUrl) (host scriptUrl))))
  | None => getSourceMapURL url_parse url_format scriptUrl scriptBody = None
  end.
Proof.
  unfold getSourceMapURL.
  rewrite getSourceMapRelativeUrl_scan,
    (scanReferences_lastReference (S (length scriptBody)) scriptBody)
    by lia.
  destruct (lastReference scriptBody) as [v|] eqn:E; [|reflexivity].
  apply lastReference_nonEmpty in E. destruct v; [congruence|reflexivity].
Qed.

End UrlFacts.

(* ================================================================= *)
(** * The claims *)

Import JS JSFacts Regex RegexFacts SourceMapText Path Json JsonFacts Url.
Import SourceMapUtil Direct LineFacts ReferenceFacts SourceURLFacts Examples.

(** C1: when [JSON.parse] fails on [sourceMapBody], [updateSourceMapFile]
    returns [sourceMapBody] unchanged, whatever the other arguments and the
    environment are; the function is total, nothing escapes the [catch]. *)
Theorem updateSourceMapFile_parse_failure
    (cwd : jsstring) (numberToString : jsstring -> jsstring)
    (flattenSourceMap convert : json -> result json)
    (sourceMapBody scriptPath sourcesRootPath : jsstring)
    (packagerRemoteRoot packagerLocalRoot : option jsstring) :
  parse sourceMapBody = Throw ->
  updateSourceMapFile cwd numberToString flattenSourceMap convert
    sourceMapBody scriptPath sourcesRootPath
    packagerRemoteRoot packagerLocalRoot
  = sourceMapBody.
Proof.
  intros H. unfold updateSourceMapFile, updateSourceMapDocument.
  rewrite H. reflexivity.
Qed.

(** The text [{not json] is not JSON: it comes back as it is. *)
Lemma updateSourceMapFile_parse_failure_witness :
  parse (js "{not json") = Throw /\
  updateSourceMapFile workDir plainNumber noFlatten flatConvert
    (js "{not json") (js "/out/index.bundle") (js "/root/src")
    (Some (js "/remote")) (Some (js "/local"))
  = js "{not json".
Proof.
  split; [reflexivity|].
  apply (updateSourceMapFile_parse_failure workDir plainNumber noFlatten
           flatConvert (js "{not json") (js "/out/index.bundle")
           (js "/root/src") (Some (js "/remote")) (Some (js "/local"))).
  reflexivity.
Defined.

(** C3, at the entry [__://y]: the pattern of the code accepts it (the
    class [A-z] contains the underscore), the pattern of the specification
    does not; the entry is kept as it is although the path normalizer
    would rewrite it. *)
Theorem IS_REMOTE_accepts_underscore :
  test IS_REMOTE (js "__://y") = true /\
  test IS_REMOTE_stated (js "__://y") = false /\
  rewriteSource workDir plainNumber (js "/root/src") None None
    (JString (js "__://y")) = Ok (JString (js "__://y")) /\
  updateSourceMapPath workDir (js "__://y") (js "/root/src") None None
  = js "../../work/__:/y" /\
  updateSourceMapFile workDir plainNumber noFlatten flatConvert
    (jsq "{'sources':['__://y','ab://z','/root/src/a.js']}")
    (js "/out/index.bundle") (js "/root/src") None None
  = jsq "{'sources':['__://y','ab://z','a.js'],'sourceRoot':'','file':'/out/index.bundle'}".
Proof. repeat split; vm_compute; reflexivity. Qed.

(** C4 as stated fails on the text [null]: it parses, reading [sections]
    of [null] throws, and the raw text comes back; its document has no
    [file] field. *)
Lemma updateSourceMapFile_null_document :
  parse (js "null") = Ok JNull /\
  updateSourceMapFile workDir plainNumber noFlatten flatConvert
    (js "null") (js "/out/index.bundle") (js "/root/src") None None
  = js "null" /\
  (forall v,
     parse (updateSourceMapFile workDir plainNumber noFlatten flatConvert
              (js "null") (js "/out/index.bundle") (js "/root/src") None None)
     = Ok v ->
     isRewrittenMap (js "/out/index.bundle") v = false).
Proof.
  split; [reflexivity|]. split; [reflexivity|].
  intros v. vm_compute. intros [= <-]. reflexivity.
Qed.

(** C4, amended: when the rewrite completes (no step throws) and its
    result is an object, that object is what is serialized, and it has no
    [sourcesContent], an empty [sourceRoot] and [file] equal to
    [scriptPath]. *)
Theorem updateSourceMapFile_fields
    (cwd : jsstring) (numberToString : jsstring -> jsstring)
    (flattenSourceMap convert : json -> result json)
    (sourceMapBody scriptPath sourcesRootPath : jsstring)
    (packagerRemoteRoot packagerLocalRoot : option jsstring)
    (fields : list (jsstring * json)) :
  updateSourceMapDocument cwd numberToString flattenSourceMap convert
    sourceMapBody scriptPath sourcesRootPath
    packagerRemoteRoot packagerLocalRoot
  = Ok (JObject fields) ->
  updateSourceMapFile cwd numberToString flattenSourceMap convert
    sourceMapBody scriptPath sourcesRootPath
    packagerRemoteRoot packagerLocalRoot
  = stringify numberToString (JObject fields)
  /\ lookup (js "sourcesContent") fields = None
  /\ lookup (js "sourceRoot") fields = Some (JString [])
  /\ lookup (js "file") fields = Some (JString scriptPath)
  /\ isRewrittenMap scriptPath (JObject fields) = true.
Proof.
  intros H. unfold updateSourceMapFile. rewrite H. split; [reflexivity|].
  unfold updateSourceMapDocument in H.
  destruct (parse sourceMapBody) as [v0|]; [|discriminate]. cbn [bind] in H.
  destruct (getProperty v0 (js "sections")) as [sections|]; [|discriminate].
  cbn [bind] in H.
  match type of H with
  | bind ?flat _ = _ => destruct flat as [v1|]; [|discriminate]
  end.
  cbn [bind] in H.
  destruct (convert v1) as [v2|]; [|discriminate]. cbn [bind] in H.
  destruct (getProperty v2 (js "sources")) as [sources|]; [|discriminate].
  cbn [bind] in H.
  match type of H with
  | bind ?rewritten _ = _ => destruct rewritten as [v3|]; [|discriminate]
  end.
  cbn [bind] in H.
  assert (Hfields :
    lookup (js "sourcesContent") fields = None
    /\ lookup (js "sourceRoot") fields = Some (JString [])
    /\ lookup (js "file") fields = Some (JString scriptPath)).
  { destruct v3 as [| | | |items|fs]; try discriminate H.
    cbn [deleteProperty setProperty bind] in H. injection H as <-.
    repeat split.
    - rewrite !lookup_setField_other by (intros E; discriminate E).
      apply lookup_deleteField_same.
    - rewrite lookup_setField_other by (intros E; discriminate E).
      apply lookup_setField_same.
    - apply lookup_setField_same. }
  destruct Hfields as [H1 [H2 H3]]. repeat split; try assumption.
  unfold isRewrittenMap. rewrite H1, H2, H3. apply eqb_refl.
Qed.

(** A flat map with [sourcesContent] and a [sourceRoot]: the rewrite
    completes with an object, and the three fields are as stated. *)
Lemma updateSourceMapFile_fields_witness :
  updateSourceMapDocument workDir plainNumber noFlatten flatConvert
    (jsq "{'version':3,'sources':['/root/src/a.js'],'sourcesContent':['x'],'sourceRoot':'r'}")
    (js "/out/index.bundle") (js "/root/src") None None
  = Ok (JObject
          [(js "version", JNumber (js "3"));
           (js "sources", JArray [JString (js "a.js")]);
           (js "sourceRoot", JString []);
           (js "file", JString (js "/out/index.bundle"))])
  /\ updateSourceMapFile workDir plainNumber noFlatten flatConvert
       (jsq "{'version':3,'sources':['/root/src/a.js'],'sourcesContent':['x'],'sourceRoot':'r'}")
       (js "/out/index.bundle") (js "/root/src") None None
     = jsq "{'version':3,'sources':['a.js'],'sourceRoot':'','file':'/out/index.bundle'}".
Proof.
  split; [reflexivity|].
  destruct (updateSourceMapFile_fields workDir plainNumber noFlatten
    flatConvert
    (jsq "{'version':3,'sources':['/root/src/a.js'],'sourcesContent':['x'],'sourceRoot':'r'}")
    (js "/out/index.bundle") (js "/root/src") None None
    [(js "version", JNumber (js "3"));
     (js "sources", JArray [JString (js "a.js")]);
     (js "sourceRoot", JString []);
     (js "file", JString (js "/out/index.bundle"))]
    eq_refl) as [Hout _].
  rewrite Hout. reflexivity.
Defined.

(** C8: [removeSourceURL] is the line-wise [stripSourceURLComment]: the
    text of the first line of the form [//#] or [//@], an optional space,
    [sourceURL=] and a non-empty value is replaced by the empty string
    and every other line is kept; a body without such a line comes back
    unchanged. *)
Theorem removeSourceURL_strips_first_comment (body : jsstring) :
  removeSourceURL body = stripSourceURLComment body
  /\ (if existsb isSourceURLLine (lineTexts body) then True
      else removeSourceURL body = body).
Proof.
  assert (H : removeSourceURL body = stripSourceURLComment body).
  { rewrite removeSourceURL_first.
    pose proof (firstSourceURL_lines body true) as Hl.
    unfold stripSourceURLComment. cbn [andb] in Hl. exact Hl. }
  split; [exact H|].
  destruct (existsb isSourceURLLine (lineTexts body)) eqn:E; [exact I|].
  rewrite H. unfold stripSourceURLComment, lineTexts in *.
  pose proof (joinLines_textLines body) as Hj.
  destruct (textLines body) as [l ls]. cbn [fst snd existsb] in *.
  apply orb_false_iff in E as [El Els]. rewrite El.
  transitivity (joinLines l ls); [|exact Hj]. f_equal.
  clear Hj H El. induction ls as [|[c x] ls IH]; [reflexivity|].
  cbn [map existsb snd] in Els. apply orb_false_iff in Els as [Ex Els].
  cbn [blankFirst]. rewrite Ex. f_equal. now apply IH.
Qed.

(** C10: without packager roots, a [sourcePath] equal to [sourcesRootPath]
    is normalized to ".": [path.relative] gives the empty string, and
    [makeUnixStylePath] turns the empty string into ".". *)
Theorem updateSourceMapPath_same_path
    (cwd p : jsstring) (packagerRemoteRoot packagerLocalRoot : option jsstring) :
  relative cwd p p = []
  /\ makeUnixStylePath [] = js "."
  /\ match given packagerRemoteRoot, given packagerLocalRoot with
     | Some _, Some _ => True
     | _, _ =>
         updateSourceMapPath cwd p p packagerRemoteRoot packagerLocalRoot
         = js "."
     end.
Proof.
  assert (Hrel : relative cwd p p = []).
  { unfold relative. now rewrite eqb_refl. }
  split; [exact Hrel|]. split; [reflexivity|].
  unfold updateSourceMapPath.
  destruct (given packagerRemoteRoot), (given packagerLocalRoot);
    try exact I; now rewrite Hrel.
Qed.

(** C5 as stated fails on a body that uses the [//@] marker: the whole
    match is replaced by a text that starts with [//#]. *)
Lemma updateScriptPaths_rewrites_marker :
  updateScriptPaths (js "//@ sourceMappingURL=old.map") newMapLocation
  = js "//# sourceMappingURL=new.map"
  /\ updateScriptPaths (js "//@ sourceMappingURL=old.map") newMapLocation
     <> js "//@ sourceMappingURL=new.map".
Proof. split; [reflexivity|]. vm_compute. discriminate. Qed.

(** C5, amended: the first reference of the body (its marker, its value
    and the white space the pattern swallows after the value) is replaced
    by [//# sourceMappingURL=] followed by the base name of the new
    location, the base name being read as a replacement template; the text
    before the reference and the text after the swallowed white space are
    kept. A body without reference comes back unchanged. *)
Theorem updateScriptPaths_first_reference
    (scriptBody : jsstring) (sourceMappingUrl : IStrictUrl) :
  let name := basename (strict_pathname sourceMappingUrl) in
  match firstReference scriptBody with
  | Some (pre, (m, v, w, post)) =>
      scriptBody = pre ++ referenceText m v w ++ post
      /\ updateScriptPaths scriptBody sourceMappingUrl
         = pre
           ++ js "//# sourceMappingURL="
           ++ getSubstitution (referenceText m v w) pre post
                [Some [m]; Some v] name
           ++ post
      /\ (if noDollar name
          then updateScriptPaths scriptBody sourceMappingUrl
               = pre ++ js "//# sourceMappingURL=" ++ name ++ post
          else True)
  | None => updateScriptPaths scriptBody sourceMappingUrl = scriptBody
  end.
Proof.
  intros name. unfold updateScriptPaths, replaceRegex.
  rewrite exec_SourceMapURLRegex.
  destruct (firstReference scriptBody) as [[pre [[[m v] w] post]]|] eqn:E;
    [|reflexivity].
  apply firstReference_split in E.
  cbn [m_pre m_text m_post].
  assert (Hsub :
    getSubstitution (referenceText m v w) pre post
      (captureList 2
         (MatchResult pre (referenceText m v w) post [(2, v); (1, [m])]))
      (js "//# sourceMappingURL=" ++ name)
    = js "//# sourceMappingURL="
      ++ getSubstitution (referenceText m v w) pre post
           [Some [m]; Some v] name).
  { reflexivity. }
  fold name. rewrite Hsub. split; [exact E|]. split.
  - now rewrite <- !app_assoc.
  - destruct (noDollar name) eqn:Hd; [|exact I].
    rewrite getSubstitution_noDollar by exact Hd.
    now rewrite <- !app_assoc.
Qed.

(** C6 as stated fails on a path that is not under the remote root but
    contains it further on: the substitution step rewrites it. *)
Lemma updateSourceMapPath_inner_occurrence :
  startsWith (js "/other/remote/b.js") (js "/remote") = false
  /\ startsWith (js "/other/remote/b.js") (makeUnixStylePath (js "/remote"))
     = false
  /\ replaceString (js "/other/remote/b.js")
       (makeUnixStylePath (js "/remote")) (makeUnixStylePath (js "/local"))
     = js "/other/local/b.js"
  /\ updateSourceMapPath workDir (js "/other/remote/b.js") (js "/local")
       (Some (js "/remote")) (Some (js "/local"))
     = js "../other/local/b.js"
  /\ updateSourceMapPath workDir (js "/other/remote/b.js") (js "/local")
       None None
     = js "../other/remote/b.js".
Proof. repeat split; vm_compute; reflexivity. Qed.

(** C6, amended: with both roots given (and not empty), both are put in
    forward-slash form and the first occurrence of the remote root in
    [sourcePath], wherever it is, is replaced by the local root, read as a
    replacement template, before the relative path is computed; a
    [sourcePath] that does not contain the remote root is left as it is by
    the substitution step. *)
Theorem updateSourceMapPath_substitution
    (cwd sourcePath sourcesRootPath : jsstring)
    (packagerRemoteRoot packagerLocalRoot : option jsstring) :
  match given packagerRemoteRoot, given packagerLocalRoot with
  | Some remote, Some local =>
      let remoteRoot := makeUnixStylePath remote in
      let localRoot := makeUnixStylePath local in
      match splitAtFirst remoteRoot sourcePath with
      | Some (pre, post) =>
          sourcePath = pre ++ remoteRoot ++ post
          /\ (forall pre' post',
                sourcePath = pre' ++ remoteRoot ++ post' ->
                length pre <= length pre')
          /\ updateSourceMapPath cwd sourcePath sourcesRootPath
               packagerRemoteRoot packagerLocalRoot
             = makeUnixStylePath
                 (relative cwd sourcesRootPath
                    (pre ++ getSubstitution remoteRoot pre post [] localRoot
                         ++ post))
          /\ (if noDollar localRoot
              then updateSourceMapPath cwd sourcePath sourcesRootPath
                     packagerRemoteRoot packagerLocalRoot
                   = makeUnixStylePath
                       (relative cwd sourcesRootPath (pre ++ localRoot ++ post))
              else True)
      | None =>
          (forall pre post, sourcePath <> pre ++ remoteRoot ++ post)
          /\ updateSourceMapPath cwd sourcePath sourcesRootPath
               packagerRemoteRoot packagerLocalRoot
             = makeUnixStylePath (relative cwd sourcesRootPath sourcePath)
      end
  | _, _ =>
      updateSourceMapPath cwd sourcePath sourcesRootPath
        packagerRemoteRoot packagerLocalRoot
      = makeUnixStylePath (relative cwd sourcesRootPath sourcePath)
  end.
Proof.
  unfold updateSourceMapPath.
  destruct (given packagerRemoteRoot) as [remote|]; [|reflexivity].
  destruct (given packagerLocalRoot) as [local|]; [|reflexivity].
  cbv zeta. unfold replaceString.
  destruct (splitAtFirst (makeUnixStylePath remote) sourcePath)
    as [[pre post]|] eqn:E.
  - apply splitAtFirst_Some in E as [E Hmin].
    repeat split; try assumption.
    destruct (noDollar (makeUnixStylePath local)) eqn:Hd; [|exact I].
    now rewrite getSubstitution_noDollar by exact Hd.
  - split; [|reflexivity]. now apply splitAtFirst_None.
Qed.

(** C2 as stated fails on a value that starts with white space: the white
    space in front of the value is kept. *)
Lemma getSourceMapRelativeUrl_keeps_leading_space :
  getSourceMapRelativeUrl (js "//# sourceMappingURL= a.map ") = Some (js " a.map")
  /\ statedReference (js "//# sourceMappingURL= a.map ") = Some (js "a.map")
  /\ getSourceMapRelativeUrl (js "//# sourceMappingURL= a.map ")
     <> statedReference (js "//# sourceMappingURL= a.map ").
Proof. repeat split; try reflexivity. vm_compute. discriminate. Qed.

(** C2, amended: [getSourceMapRelativeUrl] looks at the lines that contain
    [//#] or [//@], [ sourceMappingURL=] and a value that is not empty and
    does not begin with [data:]; it returns the value of the last such
    line, taken from the first reference of that line, without the white
    space at its end (the white space in front of it is kept, and the
    first unit of the value is always kept); it returns [null] when no
    line has a reference. *)
Theorem getSourceMapRelativeUrl_last_line (body : jsstring) :
  getSourceMapRelativeUrl body = lastReference body.
Proof.
  rewrite LocatorFacts.getSourceMapRelativeUrl_scan.
  apply LocatorFacts.scanReferences_lastReference. lia.
Qed.

(** C9 as stated fails on a flat document with an absolute source path,
    in a process that does not run in the sources root: the second pass
    resolves the relative path of the first pass against the working
    directory. The fields [file] and [sourceRoot] are the same. *)
Lemma updateSourceMapFile_second_pass_differs :
  updateSourceMapFile workDir plainNumber noFlatten flatConvert
    (jsq "{'version':3,'sources':['/root/src/a/b.js'],'mappings':'AAAA'}")
    (js "/out/index.bundle") (js "/root/src") None None
  = jsq "{'version':3,'sources':['a/b.js'],'mappings':'AAAA','sourceRoot':'','file':'/out/index.bundle'}"
  /\ updateSourceMapFile workDir plainNumber noFlatten flatConvert
       (updateSourceMapFile workDir plainNumber noFlatten flatConvert
          (jsq "{'version':3,'sources':['/root/src/a/b.js'],'mappings':'AAAA'}")
          (js "/out/index.bundle") (js "/root/src") None None)
       (js "/out/index.bundle") (js "/root/src") None None
     = jsq "{'version':3,'sources':['../../work/a/b.js'],'mappings':'AAAA','sourceRoot':'','file':'/out/index.bundle'}"
  /\ JArray [JString (js "a/b.js")] <> JArray [JString (js "../../work/a/b.js")].
Proof. repeat split; try (vm_compute; reflexivity). discriminate. Qed.

(** C9, amended: when the first pass completes with a flat object that
    its output text reads back to and that the combinator hands back
    unchanged, the second pass completes too and yields the same [file]
    and [sourceRoot]; it yields the same document, hence the same
    [sources] and the same text, when no packager roots are given and the
    working directory of the process is the sources root. *)
Theorem updateSourceMapFile_second_pass
    (cwd : jsstring) (numberToString : jsstring -> jsstring)
    (flattenSourceMap convert : json -> result json)
    (sourceMapBody scriptPath sourcesRootPath : jsstring)
    (packagerRemoteRoot packagerLocalRoot : option jsstring)
    (fields : list (jsstring * json)) :
  updateSourceMapDocument cwd numberToString flattenSourceMap convert
    sourceMapBody scriptPath sourcesRootPath
    packagerRemoteRoot packagerLocalRoot = Ok (JObject fields) ->
  parse (stringify numberToString (JObject fields)) = Ok (JObject fields) ->
  lookup (js "sections") fields = None ->
  convert (JObject fields) = Ok (JObject fields) ->
  let firstPass :=
    updateSourceMapFile cwd numberToString flattenSourceMap convert
      sourceMapBody scriptPath sourcesRootPath
      packagerRemoteRoot packagerLocalRoot in
  let secondPass :=
    updateSourceMapFile cwd numberToString flattenSourceMap convert
      firstPass scriptPath sourcesRootPath
      packagerRemoteRoot packagerLocalRoot in
  exists fields2,
    updateSourceMapDocument cwd numberToString flattenSourceMap convert
      firstPass scriptPath sourcesRootPath
      packagerRemoteRoot packagerLocalRoot = Ok (JObject fields2)
    /\ secondPass = stringify numberToString (JObject fields2)
    /\ lookup (js "file") fields2 = lookup (js "file") fields
    /\ lookup (js "sourceRoot") fields2 = lookup (js "sourceRoot") fields
    /\ (if atSourcesRoot cwd sourcesRootPath
           && negb (bothGiven packagerRemoteRoot packagerLocalRoot)
        then fields2 = fields
             /\ lookup (js "sources") fields2 = lookup (js "sources") fields
             /\ secondPass = firstPass
        else True).
Proof.
  intros H1 H2 H3 H4 firstPass secondPass.
  assert (Hfirst : firstPass = stringify numberToString (JObject fields)).
  { unfold firstPass, updateSourceMapFile. now rewrite H1. }
  destruct (DocumentFacts.updateSourceMapDocument_object _ _ _ _ _ _ _ _ _ _ H1)
    as [converted [fs [Hfs Hfields]]].
  destruct (DocumentFacts.rewriteSourcesFields_again cwd numberToString
              sourcesRootPath scriptPath packagerRemoteRoot packagerLocalRoot
              converted fs Hfs) as [fs2 [Hfs2 Hsame]].
  rewrite <- Hfields in Hfs2, Hsame.
  assert (Hsecond :
    updateSourceMapDocument cwd numberToString flattenSourceMap convert
      firstPass scriptPath sourcesRootPath packagerRemoteRoot packagerLocalRoot
    = Ok (JObject (finalFields scriptPath fs2))).
  { rewrite Hfirst.
    rewrite (DocumentFacts.updateSourceMapDocument_flat cwd numberToString
               flattenSourceMap convert _ scriptPath sourcesRootPath
               packagerRemoteRoot packagerLocalRoot fields H2 H3 H4).
    now rewrite Hfs2. }
  exists (finalFields scriptPath fs2).
  destruct (DocumentFacts.finalFields_lookup scriptPath fs2) as [Ha [Hb Hc]].
  destruct (DocumentFacts.finalFields_lookup scriptPath fs) as [Ha1 [Hb1 Hc1]].
  rewrite <- Hfields in Ha1, Hb1, Hc1.
  assert (Hout : secondPass
                 = stringify numberToString (JObject (finalFields scriptPath fs2))).
  { unfold secondPass, updateSourceMapFile. now rewrite Hsecond. }
  split; [exact Hsecond|]. split; [exact Hout|].
  split; [congruence|]. split; [congruence|].
  destruct (atSourcesRoot cwd sourcesRootPath
            && negb (bothGiven packagerRemoteRoot packagerLocalRoot)) eqn:Ec;
    [|exact I].
  specialize (Hsame eq_refl). subst fs2.
  assert (Hfix : finalFields scriptPath fields = fields)
    by now apply DocumentFacts.finalFields_fixed.
  rewrite Hfix in *. repeat split. congruence.
Qed.

(** A process that runs in the sources root [/root/src]: the second pass
    gives the text of the first. *)
Lemma updateSourceMapFile_second_pass_witness :
  updateSourceMapDocument (js "/root/src") plainNumber noFlatten flatConvert
    (jsq "{'version':3,'sources':['/root/src/a/b.js','/lib/c.js'],'mappings':'AAAA'}")
    (js "/out/index.bundle") (js "/root/src") None None
  = Ok (JObject
          [(js "version", JNumber (js "3"));
           (js "sources",
            JArray [JString (js "a/b.js"); JString (js "../../lib/c.js")]);
           (js "mappings", JString (js "AAAA"));
           (js "sourceRoot", JString []);
           (js "file", JString (js "/out/index.bundle"))])
  /\ updateSourceMapFile (js "/root/src") plainNumber noFlatten flatConvert
       (updateSourceMapFile (js "/root/src") plainNumber noFlatten flatConvert
          (jsq "{'version':3,'sources':['/root/src/a/b.js','/lib/c.js'],'mappings':'AAAA'}")
          (js "/out/index.bundle") (js "/root/src") None None)
       (js "/out/index.bundle") (js "/root/src") None None
     = jsq "{'version':3,'sources':['a/b.js','../../lib/c.js'],'mappings':'AAAA','sourceRoot':'','file':'/out/index.bundle'}".
Proof.
  split; [reflexivity|].
  destruct (updateSourceMapFile_second_pass (js "/root/src") plainNumber
    noFlatten flatConvert
    (jsq "{'version':3,'sources':['/root/src/a/b.js','/lib/c.js'],'mappings':'AAAA'}")
    (js "/out/index.bundle") (js "/root/src") None None
    [(js "version", JNumber (js "3"));
     (js "sources", JArray [JString (js "a/b.js"); JString (js "../../lib/c.js")]);
     (js "mappings", JString (js "AAAA"));
     (js "sourceRoot", JString []);
     (js "file", JString (js "/out/index.bundle"))]
    eq_refl eq_refl eq_refl eq_refl) as [fields2 [_ [_ [_ [_ H]]]]].
  change (atSourcesRoot (js "/root/src") (js "/root/src") && negb (bothGiven None None))
    with true in H.
  destruct H as [_ [_ H]]. rewrite H. reflexivity.
Defined.

(* ================================================================= *)
(** * Further properties of the module *)

(** ** Paths in normal form *)

Module NormalFormFacts.
Import JS JSFacts Path PathFacts SourceMapUtil.

Lemma normalizeSegments_filter (al : bool) (segs : list jsstring) : forall stack,
  normalizeSegments al stack (filter nonEmpty segs)
  = normalizeSegments al stack segs.
Proof.
  induction segs as [|seg segs IH]; intros stack; [reflexivity|].
  cbn [filter]. destruct (nonEmpty seg) eqn:E.
  - cbn [normalizeSegments]. rewrite E. cbn [negb orb].
    destruct (eqb seg dot); [apply IH|].
    destruct (eqb seg dotdot); [|apply IH].
    destruct stack as [|top stack']; [apply IH|].
    destruct (eqb top dotdot); apply IH.
  - cbn [normalizeSegments]. rewrite E. cbn [negb orb]. apply IH.
Qed.

(** With [allowAboveRoot], the stack is always some ordinary segments on
    top of some [..] segments. *)
Lemma normalizeSegments_form (segs : list jsstring) : forall up rdown,
  Forall (fun seg => noSlash seg = true) segs ->
  Forall (fun seg => isNormal seg = true) rdown ->
  exists up' down',
    normalizeSegments true (rdown ++ ups up) segs = ups up' ++ down'
    /\ Forall (fun seg => isNormal seg = true) down'.
Proof.
  induction segs as [|seg segs IH]; intros up rdown Hsegs Hdown.
  - exists up, (rev rdown). cbn [normalizeSegments].
    rewrite rev_app_distr, ups_stack. split; [reflexivity|].
    now apply Forall_rev.
  - inversion Hsegs as [|? ? Hseg Hrest]; subst.
    cbn [normalizeSegments].
    destruct (negb (nonEmpty seg) || eqb seg dot) eqn:E1; [now apply IH|].
    destruct (eqb seg dotdot) eqn:E2.
    + destruct rdown as [|d rdown].
      * cbn [app]. destruct up as [|u up].
        -- cbn [ups map]. apply (IH [dotdot] []); [exact Hrest|constructor].
        -- cbn [ups map]. change (eqb dotdot dotdot) with true. cbv iota.
           apply (IH (u :: u :: up) []); [exact Hrest|constructor].
      * inversion Hdown as [|? ? Hd Hdown']; subst.
        destruct (isNormal_parts _ Hd) as [_ [_ [Hdd _]]].
        cbn [app]. rewrite Hdd. now apply IH.
    + apply (IH up (seg :: rdown)); [exact Hrest|].
      constructor; [|exact Hdown].
      apply orb_false_iff in E1 as [E0 E1]. apply negb_false_iff in E0.
      unfold isNormal. now rewrite E0, E1, E2, Hseg.
Qed.

Lemma joinWith_nonEmpty (l : list jsstring) :
  l <> [] -> Forall (fun seg => nonEmpty seg = true) l ->
  nonEmpty (joinWith [slash] l) = true.
Proof.
  destruct l as [|x l]; [congruence|]. intros _ H.
  inversion H as [|? ? Hx _]; subst.
  destruct x; [discriminate|]. destruct l; reflexivity.
Qed.

Lemma ups_nonEmpty (up down : list jsstring) :
  Forall (fun seg => isNormal seg = true) down ->
  Forall (fun seg => nonEmpty seg = true) (ups up ++ down).
Proof.
  intros H. eapply Forall_impl; [|apply (ups_normalish up down H)].
  now intros seg [Hn _].
Qed.

(** [makeUnixStylePath] on the segments of its argument. *)
Lemma makeUnixStylePath_segments (p : jsstring) :
  makeUnixStylePath p
  = match normalizeSegments true [] (splitOn slash p) with
    | [] => dot
    | x :: l => joinWith [slash] (x :: l)
    end.
Proof.
  unfold makeUnixStylePath, join.
  rewrite <- (normalizeSegments_filter true (splitOn slash p) []).
  assert (Hparts : Forall (fun seg => nonEmpty seg = true /\ noSlash seg = true)
                     (filter nonEmpty (splitOn slash p))).
  { apply Forall_forall. intros seg Hin. apply filter_In in Hin as [Hin Hne].
    split; [exact Hne|].
    pose proof (splitOn_noSlash p) as Hs. rewrite Forall_forall in Hs.
    now apply Hs. }
  destruct (filter nonEmpty (splitOn slash p)) as [|x l] eqn:E; [reflexivity|].
  assert (Hne : x :: l <> []) by discriminate.
  destruct (joinWith_not_absolute _ Hne Hparts) as [Hn Ha].
  pose proof (joinWith_not_trailing _ Hne Hparts) as Ht.
  assert (Hslash : Forall (fun seg => noSlash seg = true) (x :: l)).
  { eapply Forall_impl; [|exact Hparts]. now intros ? [_ ?]. }
  unfold normalize. rewrite Ha, Ht.
  destruct (joinWith [slash] (x :: l)) as [|c r] eqn:Ej; [discriminate Hn|].
  rewrite <- Ej. unfold normalizeString.
  rewrite splitOn_joinWith by assumption. cbn [negb].
  destruct (normalizeSegments_form (x :: l) [] [] Hslash (Forall_nil _))
    as [up [down [Hform Hdown]]].
  cbn [app ups map] in Hform. rewrite Hform.
  destruct (ups up ++ down) as [|y k] eqn:Ek; [reflexivity|].
  assert (Hk : nonEmpty (joinWith [slash] (y :: k)) = true).
  { apply joinWith_nonEmpty; [discriminate|].
    rewrite <- Ek. now apply ups_nonEmpty. }
  destruct (joinWith [slash] (y :: k)); [discriminate Hk|].
  cbn [app]. now rewrite app_nil_r.
Qed.

(** The result of [makeUnixStylePath]: [.], or [..] segments followed by
    ordinary ones. *)
Lemma makeUnixStylePath_form (p : jsstring) :
  exists up down,
    Forall (fun seg => isNormal seg = true) down
    /\ makeUnixStylePath p
       = match ups up ++ down with
         | [] => dot
         | x :: l => joinWith [slash] (x :: l)
         end.
Proof.
  rewrite makeUnixStylePath_segments.
  destruct (normalizeSegments_form (splitOn slash p) [] []
              (splitOn_noSlash p) (Forall_nil _))
    as [up [down [Hform Hdown]]].
  cbn [app ups map] in Hform. rewrite Hform. now exists up, down.
Qed.

Lemma dropDotdots_ups (up down : list jsstring) :
  Forall (fun seg => isNormal seg = true) down ->
  dropDotdots (ups up ++ down) = down.
Proof.
  intros H. induction up as [|u up IH]; cbn [ups map app dropDotdots].
  - destruct down as [|d down]; [reflexivity|].
    inversion H as [|? ? Hd _]; subst.
    destruct (isNormal_parts _ Hd) as [_ [_ [Hdd _]]].
    cbn [dropDotdots]. now rewrite Hdd.
  - change (eqb dotdot dotdot) with true. cbv iota. exact IH.
Qed.

Lemma form_isRelativeForm (up down : list jsstring) :
  Forall (fun seg => isNormal seg = true) down ->
  isRelativeForm (match ups up ++ down with
                  | [] => dot
                  | x :: l => joinWith [slash] (x :: l)
                  end) = true.
Proof.
  intros H. destruct (ups up ++ down) as [|x l] eqn:E; [reflexivity|].
  unfold isRelativeForm. apply orb_true_iff. right.
  rewrite splitOn_joinWith.
  - rewrite <- E, dropDotdots_ups by exact H. now apply forallb_forall, Forall_forall.
  - discriminate.
  - rewrite <- E. eapply Forall_impl; [|apply (ups_normalish up down H)].
    now intros ? [_ ?].
Qed.

Lemma form_relative (up down : list jsstring) :
  Forall (fun seg => isNormal seg = true) down ->
  forall r,
    r = match ups up ++ down with
        | [] => dot
        | x :: l => joinWith [slash] (x :: l)
        end ->
    nonEmpty r = true /\ isAbsolute r = false /\ endsWithSlash r = false.
Proof.
  intros H r ->. destruct (ups up ++ down) as [|x l] eqn:E.
  - now repeat split.
  - assert (Hne : x :: l <> []) by discriminate.
    pose proof (ups_normalish up down H) as Hud. rewrite E in Hud.
    destruct (joinWith_not_absolute _ Hne Hud) as [Hn Ha].
    pose proof (joinWith_not_trailing _ Hne Hud) as Ht. now repeat split.
Qed.

End NormalFormFacts.

(** ** The paths [makeUnixStylePath] leaves as they are *)

Module FixpointFacts.
Import JS JSFacts Path PathFacts SourceMapUtil NormalFormFacts.

Lemma joinWith_splitOn (p : jsstring) :
  joinWith [slash] (splitOn slash p) = p.
Proof.
  induction p as [|c p IH]; [reflexivity|].
  rewrite splitOn_cons. rewrite (splitOn_head slash p) in IH.
  destruct (N.eqb_spec c slash) as [->|Hc].
  - rewrite (splitOn_head slash p).
    change (joinWith [slash] ([] :: hd [] (splitOn slash p) :: tl (splitOn slash p)))
      with (slash :: joinWith [slash] (hd [] (splitOn slash p) :: tl (splitOn slash p))).
    now rewrite IH.
  - destruct (tl (splitOn slash p)) as [|x l].
    + cbn [joinWith] in *. now rewrite IH.
    + change (joinWith [slash] ((c :: hd [] (splitOn slash p)) :: x :: l))
        with (c :: joinWith [slash] (hd [] (splitOn slash p) :: x :: l)).
      now rewrite IH.
Qed.

Lemma dropDotdots_split (segs : list jsstring) :
  exists up, segs = ups up ++ dropDotdots segs.
Proof.
  induction segs as [|seg segs [up IH]]; [now exists []|].
  cbn [dropDotdots]. destruct (eqb seg dotdot) eqn:E.
  - apply eqb_eq in E. subst seg. exists (dotdot :: up).
    cbn [ups map app]. now rewrite IH at 1.
  - now exists [].
Qed.

(** A relative path in normal form is left as it is. *)
Lemma makeUnixStylePath_fixed (p : jsstring) :
  isRelativeForm p = true -> makeUnixStylePath p = p.
Proof.
  unfold isRelativeForm. intros H. apply orb_true_iff in H as [H|H].
  - apply eqb_eq in H. now subst p.
  - destruct (dropDotdots_split (splitOn slash p)) as [up Hsplit].
    assert (Hdown : Forall (fun seg => isNormal seg = true)
                      (dropDotdots (splitOn slash p)))
      by (now apply Forall_forall, forallb_forall).
    pose proof (makeUnixStylePath_relative up _ Hdown) as Hmk.
    rewrite <- Hsplit, joinWith_splitOn in Hmk. rewrite Hmk.
    rewrite (splitOn_head slash p). reflexivity.
Qed.

End FixpointFacts.

(** ** Resolving a rewritten path *)

Module RoundTripFacts.
Import JS JSFacts Path PathFacts SourceMapUtil NormalFormFacts.

Lemma resolve_absolute_path (cwd path : jsstring) :
  isAbsolute path = true ->
  resolve cwd path = slash :: joinWith [slash] (resolvedSegments cwd path).
Proof.
  intros Hp. unfold resolve, resolvedSegments, resolveInput, normalizeString.
  destruct path as [|c path]; [discriminate|].
  cbn [snd fst nonEmpty negb orb]. rewrite Hp.
  cbn [orb fst snd negb app]. reflexivity.
Qed.

Lemma segments_resolve_path (cwd path : jsstring) :
  isAbsolute path = true ->
  segments (resolve cwd path) = resolvedSegments cwd path.
Proof.
  intros H. rewrite (resolve_absolute_path _ _ H).
  apply segments_of_normal, resolvedSegments_normal.
Qed.

(** Normalizing a text that continues after a separator. *)
Lemma normalizeSegments_continue (z y : jsstring) :
  normalizeSegments false [] (splitOn slash (z ++ slash :: y))
  = normalizeSegments false
      (rev (normalizeSegments false [] (splitOn slash (z ++ [slash]))))
      (splitOn slash y).
Proof.
  rewrite !splitOn_app_sep, !normalizeSegments_app. f_equal. f_equal.
  cbn [splitOn normalizeSegments nonEmpty negb orb].
  now rewrite rev_involutive.
Qed.

Lemma dropCommon_prefix (a b : list jsstring) :
  dropCommon a (a ++ b) = ([], b).
Proof.
  induction a as [|x a IH]; [now destruct b|].
  cbn [app dropCommon]. now rewrite eqb_refl.
Qed.

Lemma resolvedSegments_under (cwd root : jsstring) (down : list jsstring) :
  isAbsolute root = true ->
  Forall (fun seg => isNormal seg = true) down ->
  resolvedSegments cwd (root ++ slash :: joinWith [slash] down)
  = resolvedSegments cwd root ++ down.
Proof.
  intros Hroot Hdown.
  assert (Habs : isAbsolute (root ++ slash :: joinWith [slash] down) = true).
  { destruct root; [discriminate|exact Hroot]. }
  unfold resolvedSegments, resolveInput.
  destruct root as [|c root]; [discriminate|].
  rewrite Hroot.
  destruct ((c :: root) ++ slash :: joinWith [slash] down) as [|c' p'] eqn:E;
    [discriminate|].
  rewrite Habs, <- E. clear E.
  rewrite <- app_assoc. cbn [app].
  change (c :: root ++ slash :: joinWith [slash] down ++ [slash])
    with ((c :: root) ++ slash :: (joinWith [slash] down ++ [slash])).
  rewrite normalizeSegments_continue.
  set (R := normalizeSegments false [] (splitOn slash ((c :: root) ++ [slash]))).
  destruct down as [|d down].
  - cbn [joinWith app splitOn normalizeSegments nonEmpty negb orb].
    change (N.eqb slash slash) with true. cbv iota.
    cbn [normalizeSegments nonEmpty negb orb].
    now rewrite rev_involutive, app_nil_r.
  - change (joinWith [slash] (d :: down) ++ [slash])
      with (joinWith [slash] (d :: down) ++ slash :: []).
    rewrite splitOn_app_sep, splitOn_joinWith;
      [|discriminate|now apply normal_noSlash].
    rewrite normalizeSegments_app.
    rewrite (normalizeSegments_push false (d :: down) (rev R) Hdown).
    rewrite rev_involutive. cbn [splitOn normalizeSegments nonEmpty negb orb].
    now rewrite rev_involutive.
Qed.

(** [resolve(root, r)] for a relative [r]. *)
Lemma resolveArgs_relative (cwd root r : jsstring) :
  isAbsolute cwd = true -> nonEmpty r = true -> isAbsolute r = false ->
  resolveArgs cwd [root; r]
  = slash :: joinWith [slash]
               (normalizeSegments false (rev (resolvedSegments cwd root))
                  (splitOn slash r ++ [[]])).
Proof.
  intros Hcwd Hn Ha.
  assert (Hc : nonEmpty cwd = true) by (destruct cwd; [discriminate|reflexivity]).
  assert (Hsplit : splitOn slash (r ++ [slash]) = splitOn slash r ++ [[]]).
  { change (r ++ [slash]) with (r ++ slash :: []). now rewrite splitOn_app_sep. }
  unfold resolveArgs, resolvedSegments, resolveInput, normalizeString.
  cbn [fold_right snd fst orb]. rewrite Hn, Ha. cbn [negb snd fst orb app].
  destruct root as [|c root].
  - cbn [nonEmpty negb snd fst orb]. rewrite Hc, Hcwd. cbn [negb app].
    f_equal. f_equal.
    change (cwd ++ slash :: r ++ [slash]) with (cwd ++ slash :: (r ++ [slash])).
    now rewrite normalizeSegments_continue, Hsplit.
  - cbn [nonEmpty negb snd fst orb].
    destruct (isAbsolute (c :: root)) eqn:Er.
    + cbn [orb negb]. f_equal. f_equal.
      change ((c :: root) ++ slash :: r ++ [slash])
        with ((c :: root) ++ slash :: (r ++ [slash])).
      now rewrite normalizeSegments_continue, Hsplit.
    + cbn [orb]. rewrite Hc, Hcwd. cbn [negb app]. f_equal. f_equal.
      change (cwd ++ slash :: c :: root ++ slash :: r ++ [slash])
        with (cwd ++ slash :: (c :: root) ++ slash :: (r ++ [slash])).
      replace (cwd ++ slash :: (c :: root) ++ slash :: r ++ [slash])
        with ((cwd ++ slash :: c :: root) ++ slash :: (r ++ [slash]))
        by (now rewrite <- app_assoc).
      rewrite normalizeSegments_continue, Hsplit. f_equal. f_equal. f_equal.
      f_equal. now rewrite <- app_assoc.
Qed.

(** The relative path from [from] to [to], resolved from [from]. *)
Lemma normalizeSegments_back (from to up down : list jsstring) :
  Forall (fun seg => isNormal seg = true) from ->
  Forall (fun seg => isNormal seg = true) to ->
  dropCommon from to = (up, down) ->
  normalizeSegments false (rev from)
    (splitOn slash
       (match ups up ++ down with
        | [] => dot
        | x :: l => joinWith [slash] (x :: l)
        end) ++ [[]])
  = to.
Proof.
  intros Hnf Hnt Ed.
  apply dropCommon_split in Ed as [common [Hf Ht]]. subst from to.
  apply Forall_app in Hnf as [Hcommon Hup].
  apply Forall_app in Hnt as [_ Hdown].
  pose proof (ups_normalish up down Hdown) as Hud.
  destruct (ups up ++ down) as [|x l] eqn:E.
  - apply app_eq_nil in E as [Eu ->]. destruct up; [|discriminate Eu].
    rewrite !app_nil_r.
    change (splitOn slash dot ++ [[]]) with [dot; []].
    cbn [normalizeSegments]. change (eqb dot dot) with true.
    rewrite orb_true_r. cbn [nonEmpty negb orb].
    now rewrite rev_involutive.
  - assert (Hne : x :: l <> []) by discriminate.
    rewrite splitOn_joinWith;
      [|exact Hne|eapply Forall_impl; [|exact Hud]; now intros ? [_ ?]].
    rewrite <- E, rev_app_distr, <- !app_assoc.
    rewrite <- (ups_rev up).
    rewrite normalizeSegments_pop by (now apply Forall_rev).
    rewrite normalizeSegments_app.
    rewrite (normalizeSegments_push false down (rev common) Hdown).
    rewrite rev_involutive. cbn [normalizeSegments nonEmpty negb orb].
    now rewrite rev_involutive.
Qed.

Lemma makeUnixStylePath_form_relative (up down : list jsstring) :
  Forall (fun seg => isNormal seg = true) down ->
  makeUnixStylePath (joinWith [slash] (ups up ++ down))
  = match ups up ++ down with
    | [] => dot
    | x :: l => joinWith [slash] (x :: l)
    end.
Proof.
  intros H. rewrite makeUnixStylePath_relative by exact H.
  now destruct (ups up ++ down).
Qed.

Lemma updateSourceMapPath_plain (cwd p root : jsstring)
    (remoteRoot localRoot : option jsstring) :
  bothGiven remoteRoot localRoot = false ->
  updateSourceMapPath cwd p root remoteRoot localRoot
  = makeUnixStylePath (relative cwd root p).
Proof.
  unfold updateSourceMapPath, bothGiven.
  destruct (given remoteRoot); [|reflexivity].
  destruct (given localRoot); [discriminate|reflexivity].
Qed.

Lemma resolveArgs_round (cwd root p : jsstring) :
  isAbsolute cwd = true ->
  resolveArgs cwd [root; makeUnixStylePath (relative cwd root p)]
  = resolve cwd p.
Proof.
  intros Hcwd.
  rewrite (resolve_absolute_cwd cwd p Hcwd).
  rewrite relative_segments, !segments_resolve by exact Hcwd.
  destruct (dropCommon (resolvedSegments cwd root) (resolvedSegments cwd p))
    as [up down] eqn:Ed.
  pose proof (resolvedSegments_normal cwd root) as Hnf.
  pose proof (resolvedSegments_normal cwd p) as Hnt.
  assert (Hdown : Forall (fun seg => isNormal seg = true) down).
  { destruct (dropCommon_split _ _ _ _ Ed) as [common [_ Ht]].
    rewrite Ht in Hnt. now apply Forall_app in Hnt as [_ ?]. }
  rewrite (makeUnixStylePath_form_relative up down Hdown).
  destruct (form_relative up down Hdown _ eq_refl) as [Hn [Ha _]].
  rewrite resolveArgs_relative by assumption.
  now rewrite (normalizeSegments_back _ _ _ _ Hnf Hnt Ed).
Qed.

Lemma relative_under (cwd root : jsstring) (down : list jsstring) :
  isAbsolute root = true ->
  Forall (fun seg => isNormal seg = true) down ->
  relative cwd root (root ++ slash :: joinWith [slash] down)
  = joinWith [slash] down.
Proof.
  intros Hroot Hdown.
  assert (Habs : isAbsolute (root ++ slash :: joinWith [slash] down) = true).
  { destruct root; [discriminate|exact Hroot]. }
  rewrite relative_segments, !segments_resolve_path by assumption.
  rewrite resolvedSegments_under by assumption.
  now rewrite dropCommon_prefix.
Qed.

End RoundTripFacts.

(** ** References and their replacement *)

Module RetargetFacts.
Import JS JSFacts Regex RegexFacts SourceMapText Direct LineFacts.
Import ReferenceFacts LocatorFacts Path Url SourceMapUtil.

(** *** Prefixes of a text that goes on *)

Lemma strip_app_Some (p a b a' : jsstring) :
  strip p a = Some a' -> strip p (a ++ b) = Some (a' ++ b).
Proof.
  intros H. apply strip_Some in H. subst a. rewrite <- app_assoc.
  apply strip_app.
Qed.

(** A unit that does not occur in [p] stops the comparison with [p]. *)
Lemma strip_app_stop (p : jsstring) : forall a c y,
  forallb (fun x => negb (N.eqb x c)) p = true ->
  strip p a = None -> strip p (a ++ c :: y) = None.
Proof.
  induction p as [|x p IH]; intros a c y Hp Ha; [discriminate Ha|].
  cbn [forallb] in Hp. apply andb_true_iff in Hp as [Hx Hp].
  apply negb_true_iff in Hx.
  destruct a as [|z a]; cbn [app strip] in *.
  - now rewrite Hx.
  - destruct (N.eqb x z); [now apply IH|reflexivity].
Qed.

Lemma startsWith_app_stop (p a : jsstring) (c : N) (y : jsstring) :
  forallb (fun x => negb (N.eqb x c)) p = true ->
  startsWith (a ++ c :: y) p = startsWith a p.
Proof.
  intros Hp. unfold startsWith. destruct (strip p a) as [a'|] eqn:E.
  - now rewrite (strip_app_Some _ _ (c :: y) _ E).
  - now rewrite (strip_app_stop _ _ _ y Hp E).
Qed.

Lemma terminator_not_in (p : jsstring) (c : N) :
  noTerminator p = true -> isLineTerminator c = true ->
  forallb (fun x => negb (N.eqb x c)) p = true.
Proof.
  intros Hp Hc. unfold noTerminator in Hp.
  apply forallb_forall. intros x Hin.
  rewrite forallb_forall in Hp. specialize (Hp x Hin).
  apply negb_true_iff in Hp. apply negb_true_iff.
  destruct (N.eqb_spec x c) as [->|]; [congruence|reflexivity].
Qed.

Lemma startsWith_app_endsLine (p a post : jsstring) :
  noTerminator p = true -> endsLine post = true ->
  startsWith (a ++ post) p = startsWith a p.
Proof.
  intros Hp Hpost. destruct post as [|c y]; [now rewrite app_nil_r|].
  cbn [endsLine] in Hpost. apply startsWith_app_stop.
  now apply terminator_not_in.
Qed.

(** *** Where a reference can start *)

Lemma lazyValue_eq (r : jsstring) :
  lazyValue r
  = match spacesToEol r with
    | Some (w, post) => Some ([], w, post)
    | None =>
        match r with
        | c :: t =>
            if isLineTerminator c then None
            else
              match lazyValue t with
              | Some (v, w, post) => Some (c :: v, w, post)
              | None => None
              end
        | [] => None
        end
    end.
Proof. destruct r; reflexivity. Qed.

(** Whether a reference starts at the head of a text is decided by the
    units up to the first one of the value. *)
Lemma referenceAt_isSome (a : jsstring) :
  isSome (referenceAt a)
  = match strip (js "//") a with
    | Some (m :: r) =>
        isMarker m
        && match strip (js " sourceMappingURL=") r with
           | Some rest =>
               negb (startsWith rest (js "data:"))
               && match rest with
                  | c :: _ => negb (isLineTerminator c)
                  | [] => false
                  end
           | None => false
           end
    | _ => false
    end.
Proof.
  unfold referenceAt.
  destruct (strip (js "//") a) as [[|m r]|]; try reflexivity.
  destruct (isMarker m); [|reflexivity]. cbn [andb].
  destruct (strip (js " sourceMappingURL=") r) as [rest|]; [|reflexivity].
  destruct (startsWith rest (js "data:")); [reflexivity|]. cbn [negb andb].
  destruct rest as [|c t]; [reflexivity|].
  destruct (isLineTerminator c); [reflexivity|].
  destruct (lazyValue_line t) as [w [post ->]]. reflexivity.
Qed.

(** A reference that starts in front of the text [//...] starts there
    whatever follows the two slashes. *)
Lemma referenceAt_inner (q z z' : jsstring) :
  q <> [] ->
  isSome (referenceAt (q ++ 47%N :: 47%N :: z))
  = isSome (referenceAt (q ++ 47%N :: 47%N :: z')).
Proof.
  intros Hq. rewrite !referenceAt_isSome.
  change (js "//") with [47%N; 47%N].
  destruct q as [|c1 [|c2 [|m r]]]; [congruence| | |].
  - cbn [app strip]. destruct (N.eqb 47 c1); reflexivity.
  - cbn [app strip]. destruct (N.eqb 47 c1); [|reflexivity].
    destruct (N.eqb 47 c2); reflexivity.
  - cbn [app strip]. destruct (N.eqb 47 c1); [|reflexivity].
    destruct (N.eqb 47 c2); [|reflexivity].
    destruct (isMarker m); [|reflexivity]. cbn [andb].
    destruct (strip (js " sourceMappingURL=") r) as [rest|] eqn:E.
    + rewrite !(strip_app_Some _ _ _ _ E).
      rewrite !startsWith_app_stop by reflexivity.
      destruct rest; reflexivity.
    + rewrite !strip_app_stop by (reflexivity || exact E). reflexivity.
Qed.

Lemma firstReference_eq (a : jsstring) :
  firstReference a
  = match referenceAt a with
    | Some ref => Some ([], ref)
    | None =>
        match a with
        | c :: t =>
            match firstReference t with
            | Some (pre, ref) => Some (c :: pre, ref)
            | None => None
            end
        | [] => None
        end
    end.
Proof. destruct a; reflexivity. Qed.

(** The first reference stays where it is when the text from its start on
    is replaced by a text that has a reference at its head. *)
Lemma firstReference_swap (pre s s' : jsstring)
    (ref ref' : N * jsstring * jsstring * jsstring) :
  (forall q, q <> [] ->
     isSome (referenceAt (q ++ s)) = isSome (referenceAt (q ++ s'))) ->
  firstReference (pre ++ s) = Some (pre, ref) ->
  referenceAt s' = Some ref' ->
  firstReference (pre ++ s') = Some (pre, ref').
Proof.
  intros Hin Hs Hs'. induction pre as [|c pre IH].
  - cbn [app]. rewrite firstReference_eq, Hs'. reflexivity.
  - cbn [app] in *. rewrite firstReference_cons in Hs |- *.
    destruct (referenceAt (c :: pre ++ s)) as [ref0|] eqn:E; [discriminate|].
    assert (E' : referenceAt (c :: pre ++ s') = None).
    { pose proof (Hin (c :: pre) ltac:(discriminate)) as H.
      cbn [app] in H. rewrite E in H.
      destruct (referenceAt (c :: pre ++ s')); [discriminate H|reflexivity]. }
    rewrite E'.
    destruct (firstReference (pre ++ s)) as [[pre0 ref0]|]; [|discriminate].
    injection Hs as -> ->. now rewrite IH.
Qed.

(** *** What is left after a reference *)

Lemma spacesToEol_settled (r : jsstring) : forall w post,
  spacesToEol r = Some (w, post) -> spacesToEol post = Some ([], post).
Proof.
  induction r as [|c t IH]; intros w post; cbn [spacesToEol].
  - now intros [= <- <-].
  - destruct (isWhiteSpace c) eqn:Ew.
    + destruct (spacesToEol t) as [[w0 post0]|] eqn:Et.
      * intros [= <- <-]. now apply (IH w0).
      * destruct (isLineTerminator c) eqn:Ec; [|discriminate].
        intros [= <- <-]. cbn [spacesToEol]. now rewrite Ew, Et, Ec.
    + destruct (isLineTerminator c) eqn:Ec; [|discriminate].
      intros [= <- <-]. cbn [spacesToEol]. now rewrite Ew, Ec.
Qed.

Lemma lazyValue_settled (r : jsstring) : forall v w post,
  lazyValue r = Some (v, w, post) -> spacesToEol post = Some ([], post).
Proof.
  induction r as [|c t IH]; intros v w post; rewrite lazyValue_eq.
  - cbn. now intros [= <- <- <-].
  - destruct (spacesToEol (c :: t)) as [[w0 post0]|] eqn:Es.
    + intros [= <- <- <-]. now apply (spacesToEol_settled _ _ _ Es).
    + destruct (isLineTerminator c); [discriminate|].
      destruct (lazyValue t) as [[[v0 w0] post0]|] eqn:El; [|discriminate].
      intros [= <- <- <-]. now apply (IH v0 w0).
Qed.

Lemma referenceAt_settled (a : jsstring) m v w post :
  referenceAt a = Some (m, v, w, post) -> spacesToEol post = Some ([], post).
Proof.
  unfold referenceAt.
  destruct (strip (js "//") a) as [[|m0 r]|]; try discriminate.
  destruct (isMarker m0); [|discriminate].
  destruct (strip (js " sourceMappingURL=") r) as [rest|]; [|discriminate].
  destruct (startsWith rest (js "data:")); [discriminate|].
  destruct rest as [|c t]; [discriminate|].
  destruct (isLineTerminator c); [discriminate|].
  destruct (lazyValue t) as [[[v0 w0] post0]|] eqn:E; [|discriminate].
  intros [= <- <- <- <-]. now apply (lazyValue_settled _ _ _ _ E).
Qed.

Lemma firstReference_settled (a : jsstring) pre m v w post :
  firstReference a = Some (pre, (m, v, w, post)) ->
  spacesToEol post = Some ([], post).
Proof.
  intros H. apply firstReference_at in H as [s Hs].
  now apply (referenceAt_settled _ _ _ _ _ Hs).
Qed.

Lemma spacesToEol_app_spaces (ws post : jsstring) :
  forallb isWhiteSpace ws = true ->
  spacesToEol post = Some ([], post) ->
  spacesToEol (ws ++ post) = Some (ws, post).
Proof.
  intros Hws Hpost. induction ws as [|c ws IH]; [exact Hpost|].
  cbn [forallb] in Hws. apply andb_true_iff in Hws as [Hc Hws].
  cbn [app spacesToEol]. now rewrite Hc, (IH Hws).
Qed.

(** The value read from a one-line text [t] that ends the line. *)
Lemma lazyValue_app_post (t post : jsstring) :
  noTerminator t = true ->
  spacesToEol post = Some ([], post) ->
  exists ws,
    t = trimEnd t ++ ws
    /\ lazyValue (t ++ post) = Some (trimEnd t, ws, post).
Proof.
  intros Ht Hpost.
  assert (Hend : endsLine post = true)
    by (now apply (spacesToEol_parts _ _ _ Hpost)).
  induction t as [|c t IH].
  - exists []. split; [reflexivity|]. cbn [app trimEnd].
    now rewrite lazyValue_eq, Hpost.
  - cbn [noTerminator forallb] in Ht. fold (noTerminator t) in Ht.
    apply andb_true_iff in Ht as [Hc Ht]. apply negb_true_iff in Hc.
    destruct (IH Ht) as [ws [Hsplit Hlazy]].
    cbn [app]. rewrite lazyValue_eq.
    destruct (forallb isWhiteSpace (c :: t)) eqn:Ews.
    + exists (c :: t). rewrite (trimEnd_spaces _ Ews). split; [reflexivity|].
      change (c :: t ++ post) with ((c :: t) ++ post).
      now rewrite (spacesToEol_app_spaces _ _ Ews Hpost).
    + pose proof (spacesToEol_line (c :: t ++ post)) as Hs.
      change (c :: t ++ post) with ((c :: t) ++ post) in Hs.
      rewrite lineOf_app_endsLine in Hs by exact Hend.
      rewrite lineOf_whole in Hs
        by (cbn [noTerminator forallb]; fold (noTerminator t); now rewrite Hc, Ht).
      rewrite Ews in Hs. cbn [app] in Hs.
      destruct (spacesToEol (c :: t ++ post)); [discriminate Hs|].
      rewrite Hc, Hlazy, (trimEnd_cons _ _ Ews).
      exists ws. split; [|reflexivity]. cbn [app]. now rewrite <- Hsplit.
Qed.

(** The reference the text [//# sourceMappingURL=name] is read as when it
    ends a line. *)
Lemma referenceAt_built (c : N) (t post : jsstring) :
  isReferenceValue (c :: t) = true ->
  spacesToEol post = Some ([], post) ->
  exists ws,
    c :: t = (c :: trimEnd t) ++ ws
    /\ referenceAt (js "//# sourceMappingURL=" ++ (c :: t) ++ post)
       = Some (35%N, c :: trimEnd t, ws, post).
Proof.
  intros Hv Hpost. cbn [isReferenceValue] in Hv.
  apply andb_true_iff in Hv as [Hline Hdata]. apply negb_true_iff in Hdata.
  assert (Hend : endsLine post = true)
    by (now apply (spacesToEol_parts _ _ _ Hpost)).
  cbn [noTerminator forallb] in Hline. fold (noTerminator t) in Hline.
  apply andb_true_iff in Hline as [Hc Ht]. apply negb_true_iff in Hc.
  destruct (lazyValue_app_post t post Ht Hpost) as [ws [Hsplit Hlazy]].
  exists ws. split; [cbn [app]; now rewrite <- Hsplit|].
  unfold referenceAt.
  change (js "//# sourceMappingURL=" ++ (c :: t) ++ post)
    with (js "//" ++ 35%N :: js " sourceMappingURL=" ++ (c :: t) ++ post).
  rewrite strip_app. change (isMarker 35) with true. cbv iota.
  rewrite strip_app.
  rewrite startsWith_app_endsLine by (reflexivity || exact Hend).
  rewrite Hdata. cbn [app]. now rewrite Hc, Hlazy.
Qed.

(** The first reference after its text was replaced by
    [//# sourceMappingURL=name]. *)
Lemma firstReference_retargeted (body pre : jsstring) m v w post
    (c : N) (t : jsstring) :
  firstReference body = Some (pre, (m, v, w, post)) ->
  isReferenceValue (c :: t) = true ->
  exists ws,
    c :: t = (c :: trimEnd t) ++ ws
    /\ firstReference (pre ++ js "//# sourceMappingURL=" ++ (c :: t) ++ post)
       = Some (pre, (35%N, c :: trimEnd t, ws, post)).
Proof.
  intros Hfirst Hv.
  pose proof (firstReference_settled _ _ _ _ _ _ Hfirst) as Hpost.
  destruct (referenceAt_built c t post Hv Hpost) as [ws [Hsplit Hat]].
  exists ws. split; [exact Hsplit|].
  pose proof (firstReference_split _ _ _ _ _ _ Hfirst) as Hbody.
  rewrite Hbody in Hfirst.
  apply (firstReference_swap pre (referenceText m v w ++ post) _
           (m, v, w, post)); [|exact Hfirst|exact Hat].
  intros q Hq. apply (referenceAt_inner q _ _ Hq).
Qed.

(** [updateScriptPaths] when the base name has no [$]. *)
Lemma updateScriptPaths_plain (scriptBody : jsstring) (sourceMappingUrl : IStrictUrl) :
  noDollar (basename (strict_pathname sourceMappingUrl)) = true ->
  updateScriptPaths scriptBody sourceMappingUrl
  = match firstReference scriptBody with
    | Some (pre, (_, _, _, post)) =>
        pre ++ js "//# sourceMappingURL="
            ++ basename (strict_pathname sourceMappingUrl) ++ post
    | None => scriptBody
    end.
Proof.
  intros Hd. unfold updateScriptPaths, replaceRegex.
  rewrite exec_SourceMapURLRegex.
  destruct (firstReference scriptBody) as [[pre [[[m v] w] post]]|];
    [|reflexivity].
  cbn [m_pre m_text m_post].
  rewrite getSubstitution_noDollar.
  - now rewrite <- app_assoc.
  - unfold noDollar in *. rewrite forallb_app, Hd. reflexivity.
Qed.

Lemma updateScriptPaths_post (scriptBody : jsstring) (sourceMappingUrl : IStrictUrl) :
  match firstReference scriptBody with
  | Some (pre, (_, _, _, post)) =>
      exists x, updateScriptPaths scriptBody sourceMappingUrl = x ++ post
  | None => updateScriptPaths scriptBody sourceMappingUrl = scriptBody
  end.
Proof.
  unfold updateScriptPaths, replaceRegex.
  rewrite exec_SourceMapURLRegex.
  destruct (firstReference scriptBody) as [[pre [[[m v] w] post]]|];
    [|reflexivity].
  cbn [m_pre m_text m_post]. eexists. rewrite app_assoc. reflexivity.
Qed.

(** *** References and lines *)

Lemma locator_lines (body : jsstring) :
  getSourceMapRelativeUrl body = lastReference body.
Proof.
  rewrite getSourceMapRelativeUrl_scan.
  apply scanReferences_lastReference. lia.
Qed.

Lemma lastReference_firstReference (a : jsstring) :
  lastReference a = None -> firstReference a = None.
Proof.
  intros H. destruct (firstReference a) as [[pre [[[m v] w] post]]|] eqn:E;
    [|reflexivity].
  rewrite (firstReference_lastReference _ _ _ _ _ _ E) in H.
  destruct (lastReference post); discriminate H.
Qed.

Lemma lineComplete_cases (body : jsstring) :
  lineComplete body = true ->
  body = [] \/ exists b t, body = b ++ [t] /\ isLineTerminator t = true.
Proof.
  unfold lineComplete. intros H.
  destruct (rev body) as [|c l] eqn:E.
  - left. apply (f_equal (@rev N)) in E. now rewrite rev_involutive in E.
  - right. exists (rev l), c. split; [|exact H].
    apply (f_equal (@rev N)) in E. now rewrite rev_involutive in E.
Qed.

Lemma referenceAt_terminator (t : N) (s : jsstring) :
  isLineTerminator t = true -> referenceAt (t :: s) = None.
Proof.
  intros Ht. unfold referenceAt. change (js "//") with [47%N; 47%N].
  cbn [strip]. destruct (N.eqb_spec 47 t) as [<-|]; [discriminate Ht|reflexivity].
Qed.

Lemma referenceAt_none_line (a a' : jsstring) :
  lineOf a = lineOf a' -> referenceAt a = None -> referenceAt a' = None.
Proof.
  intros Hl Ha. pose proof (referenceAt_line a) as H1.
  pose proof (referenceAt_line a') as H2.
  rewrite Ha, Hl in H1. rewrite <- H1 in H2.
  destruct (referenceAt a'); [discriminate H2|reflexivity].
Qed.

(** A text without reference that ends with a line terminator adds no
    reference to the text put after it. *)
Lemma firstReference_app_terminated (b : jsstring) (t : N) (s : jsstring) :
  isLineTerminator t = true ->
  firstReference (b ++ [t]) = None ->
  firstReference (b ++ t :: s)
  = match firstReference s with
    | Some (pre, ref) => Some (b ++ t :: pre, ref)
    | None => None
    end.
Proof.
  intros Ht. induction b as [|c b IH]; cbn [app]; rewrite !firstReference_cons.
  - intros _. now rewrite (referenceAt_terminator t s Ht).
  - destruct (referenceAt (c :: b ++ [t])) as [ref0|] eqn:E; [discriminate|].
    destruct (firstReference (b ++ [t])) as [[pre0 ref0]|] eqn:E0; [discriminate|].
    intros _.
    rewrite (referenceAt_none_line (c :: b ++ [t]) (c :: b ++ t :: s)); [|
      change (c :: b ++ [t]) with ((c :: b) ++ [t]);
      change (c :: b ++ t :: s) with ((c :: b) ++ t :: s);
      rewrite !lineOf_app_endsLine by exact Ht; reflexivity | exact E].
    rewrite (IH eq_refl). now destruct (firstReference s) as [[pre ref]|].
Qed.

Lemma firstReference_app_complete (body s : jsstring) :
  lineComplete body = true ->
  firstReference body = None ->
  firstReference (body ++ s)
  = match firstReference s with
    | Some (pre, ref) => Some (body ++ pre, ref)
    | None => None
    end.
Proof.
  intros Hc Hnone. destruct (lineComplete_cases _ Hc) as [->|[b [t [-> Ht]]]].
  - cbn [app]. now destruct (firstReference s) as [[pre ref]|].
  - rewrite <- !app_assoc. cbn [app].
    rewrite (firstReference_app_terminated b t s Ht Hnone).
    destruct (firstReference s) as [[pre ref]|]; [|reflexivity].
    now rewrite <- app_assoc.
Qed.

End RetargetFacts.

(** ** The value of a reference *)

Module ValueFacts.
Import JS JSFacts Regex RegexFacts SourceMapText Direct LineFacts.
Import ReferenceFacts LocatorFacts RetargetFacts.

Lemma trimEnd_split (t : jsstring) :
  exists ws, t = trimEnd t ++ ws /\ forallb isWhiteSpace ws = true.
Proof.
  induction t as [|c t IH]; [now exists []|].
  destruct IH as [ws [Ht Hws]]. cbn [trimEnd].
  destruct (trimEnd t) as [|x y] eqn:E.
  - cbn [app] in Ht. subst ws. destruct (isWhiteSpace c) eqn:Ec.
    + exists (c :: t). split; [reflexivity|]. cbn [forallb]. now rewrite Ec.
    + now exists t.
  - exists ws. split; [|exact Hws]. cbn [app]. now rewrite Ht at 1.
Qed.

Lemma trimEnd_idem (t : jsstring) : trimEnd (trimEnd t) = trimEnd t.
Proof.
  induction t as [|c t IH]; [reflexivity|].
  cbn [trimEnd]. destruct (trimEnd t) as [|x y] eqn:E.
  - destruct (isWhiteSpace c) eqn:Ec; [reflexivity|].
    cbn [trimEnd]. now rewrite Ec.
  - change (trimEnd (c :: x :: y))
      with (match trimEnd (x :: y) with
            | [] => if isWhiteSpace c then [] else [c]
            | t' => c :: t'
            end).
    now rewrite IH.
Qed.

Lemma noTerminator_app (a b : jsstring) :
  noTerminator (a ++ b) = noTerminator a && noTerminator b.
Proof. apply forallb_app. Qed.

Lemma lineReference_eq (l : jsstring) :
  lineReference l
  = match lineReferenceAt l with
    | Some v => Some v
    | None =>
        match l with
        | _ :: t => lineReference t
        | [] => None
        end
    end.
Proof. destruct l; reflexivity. Qed.

(** What the pattern captures is a value, and capturing from it again
    gives it back. *)
Lemma capturedValue_value (rest v : jsstring) :
  noTerminator rest = true ->
  startsWith rest (js "data:") = false ->
  capturedValue rest = Some v ->
  isReferenceValue v = true /\ capturedValue v = Some v.
Proof.
  intros Hline Hdata. destruct rest as [|c t]; [discriminate|].
  cbn [capturedValue]. intros [= <-].
  destruct (trimEnd_split t) as [ws [Ht Hws]].
  cbn [noTerminator forallb] in Hline. fold (noTerminator t) in Hline.
  apply andb_true_iff in Hline as [Hc Hline].
  rewrite Ht, noTerminator_app in Hline. apply andb_true_iff in Hline as [Hv _].
  split.
  - cbn [isReferenceValue noTerminator forallb]. fold (noTerminator (trimEnd t)).
    rewrite Hc, Hv. cbn [andb]. apply negb_true_iff.
    unfold startsWith in *.
    destruct (strip (js "data:") (c :: trimEnd t)) as [x|] eqn:E; [|reflexivity].
    apply (strip_app_Some _ _ ws) in E. cbn [app] in E.
    rewrite <- Ht in E. now rewrite E in Hdata.
  - cbn [capturedValue]. now rewrite trimEnd_idem.
Qed.

Lemma lineReferenceAt_value (l v : jsstring) :
  noTerminator l = true ->
  lineReferenceAt l = Some v ->
  isReferenceValue v = true /\ capturedValue v = Some v.
Proof.
  unfold lineReferenceAt. intros Hl.
  destruct (strip (js "//") l) as [[|m r]|] eqn:E1; try discriminate.
  destruct (isMarker m); [|discriminate].
  destruct (strip (js " sourceMappingURL=") r) as [rest|] eqn:E2; [|discriminate].
  destruct (startsWith rest (js "data:")) eqn:Ed; [discriminate|].
  apply strip_Some in E1. apply strip_Some in E2. subst l r.
  change (js "//" ++ m :: js " sourceMappingURL=" ++ rest)
    with ((js "//" ++ m :: js " sourceMappingURL=") ++ rest) in Hl.
  rewrite noTerminator_app in Hl. apply andb_true_iff in Hl as [_ Hrest].
  now apply capturedValue_value.
Qed.

Lemma lineReference_value (l : jsstring) : forall v,
  noTerminator l = true ->
  lineReference l = Some v ->
  isReferenceValue v = true /\ capturedValue v = Some v.
Proof.
  induction l as [|c l IH]; intros v Hl; rewrite lineReference_eq.
  - cbn. discriminate.
  - destruct (lineReferenceAt (c :: l)) as [v0|] eqn:E.
    + intros [= <-]. now apply (lineReferenceAt_value (c :: l)).
    + apply IH. cbn [noTerminator forallb] in Hl.
      now apply andb_true_iff in Hl as [_ ?].
Qed.

Lemma lineTexts_noTerminator (s : jsstring) :
  Forall (fun l => noTerminator l = true) (lineTexts s).
Proof.
  induction s as [|c s IH]; [repeat constructor|].
  rewrite lineTexts_cons. destruct (isLineTerminator c) eqn:Ec.
  - constructor; [reflexivity|exact IH].
  - rewrite (lineTexts_head s) in IH.
    inversion IH as [|? ? Hh Ht]; subst.
    constructor; [|exact Ht].
    cbn [noTerminator forallb]. fold (noTerminator (lineOf s)).
    now rewrite Ec, Hh.
Qed.

Lemma lastReference_value (body v : jsstring) :
  lastReference body = Some v ->
  isReferenceValue v = true /\ capturedValue v = Some v.
Proof.
  unfold lastReference. pose proof (lineTexts_noTerminator body) as H.
  induction H as [|l ls Hl _ IH]; cbn [map lastSome]; [discriminate|].
  destruct (lastSome (map lineReference ls)) as [y|].
  - intros [= <-]. now apply IH.
  - now apply lineReference_value.
Qed.

(** The reference of the one-line text [//# sourceMappingURL=url]. *)
Lemma lastReference_built (url : jsstring) :
  isReferenceValue url = true ->
  lastReference (js "//# sourceMappingURL=" ++ url) = capturedValue url.
Proof.
  intros Hv. destruct url as [|c t]; [discriminate|].
  cbn [isReferenceValue] in Hv.
  apply andb_true_iff in Hv as [Hline Hdata]. apply negb_true_iff in Hdata.
  unfold lastReference. rewrite lineTexts_line.
  - cbn [map lastSome]. rewrite lineReference_eq. unfold lineReferenceAt.
    change (js "//# sourceMappingURL=" ++ c :: t)
      with (js "//" ++ 35%N :: js " sourceMappingURL=" ++ c :: t).
    rewrite strip_app. change (isMarker 35) with true. cbv iota.
    rewrite strip_app, Hdata. reflexivity.
  - rewrite noTerminator_app, Hline. reflexivity.
Qed.

End ValueFacts.

(** ** The remote-scheme pattern *)

Module RemoteFacts.
Import JS JSFacts Regex RegexFacts SourceMapText Direct.

Lemma schemeUnit_not_colon (c : N) : isSchemeUnit c = true -> N.eqb 58 c = false.
Proof.
  intros H. destruct (N.eqb_spec 58 c) as [<-|]; [|reflexivity].
  vm_compute in H. discriminate H.
Qed.

Lemma search_eq (r : regex) (bef aft : list N) :
  search r bef aft
  = match run r (MState bef aft []) Some with
    | Some fin =>
        Some (MatchResult (rev bef)
                          (consumed (MState bef aft []) fin)
                          (after fin) (caps fin))
    | None =>
        match aft with
        | c :: t => search r (c :: bef) t
        | [] => None
        end
    end.
Proof. destruct aft; reflexivity. Qed.

(** The pattern starts with [^] and has no [m] flag: it matches at the
    start of the text only. *)
Lemma search_IS_REMOTE_later (aft : list N) : forall c bef,
  search IS_REMOTE (c :: bef) aft = None.
Proof.
  induction aft as [|x t IH]; intros c bef; rewrite search_eq.
  - reflexivity.
  - change (run IS_REMOTE (MState (c :: bef) (x :: t) []) Some)
      with (@None mstate).
    apply IH.
Qed.

(** The quantifier once its minimum is reached, followed by [://]. *)
Lemma repUnits_scheme (a : jsstring) : forall b cs,
  isSome (repUnits isSchemeUnit true 0 None
            (fun st' => run (Lit (js "://")) st' Some) b a cs)
  = startsWith (dropScheme a) (js "://").
Proof.
  induction a as [|x t IH]; intros b cs; rewrite repUnits_unfold.
  - reflexivity.
  - cbn [isZeroMax Nat.ltb Nat.leb pred option_map dropScheme].
    destruct (isSchemeUnit x) eqn:Ex.
    + rewrite run_Lit. cbn [after]. change (js "://") with [58%N; 47%N; 47%N].
      cbn [strip]. rewrite (schemeUnit_not_colon _ Ex).
      change [58%N; 47%N; 47%N] with (js "://").
      rewrite <- (IH (x :: b) cs).
      now destruct (repUnits isSchemeUnit true 0 None _ (x :: b) t cs).
    + cbn [orElse]. rewrite run_Lit. cbn [after]. unfold startsWith.
      now destruct (strip (js "://") (x :: t)).
Qed.

Lemma run_IS_REMOTE (s : jsstring) :
  isSome (run IS_REMOTE (MState [] s []) Some) = isRemote s.
Proof.
  unfold IS_REMOTE.
  change (run (Seq (Bol false) ?r) (MState [] s []) Some)
    with (run r (MState [] s []) Some).
  change (run (Seq (Rep true 2 None (Cls false [(97, 122); (65, 122)]%N))
                   (Lit (js "://"))) (MState [] s []) Some)
    with (run (Rep true 2 None (Cls false [(97, 122); (65, 122)]%N))
              (MState [] s [])
              (fun st' => run (Lit (js "://")) st' Some)).
  rewrite run_Rep_Cls. cbn [before after caps].
  change (classTest false [(97, 122); (65, 122)]%N) with isSchemeUnit.
  rewrite repUnits_unfold. cbn [isZeroMax Nat.ltb Nat.leb pred option_map].
  destruct s as [|c [|d t]]; [reflexivity| |].
  - destruct (isSchemeUnit c); [|reflexivity].
    rewrite repUnits_unfold. reflexivity.
  - cbn [isRemote]. destruct (isSchemeUnit c); [|reflexivity].
    rewrite repUnits_unfold. cbn [isZeroMax Nat.ltb Nat.leb pred option_map].
    destruct (isSchemeUnit d); [|reflexivity].
    cbn [andb]. apply repUnits_scheme.
Qed.

Lemma test_IS_REMOTE (s : jsstring) : test IS_REMOTE s = isRemote s.
Proof.
  unfold test, exec. rewrite search_eq, <- run_IS_REMOTE.
  destruct (run IS_REMOTE (MState [] s []) Some); [reflexivity|].
  destruct s as [|c t]; [reflexivity|].
  now rewrite search_IS_REMOTE_later.
Qed.

Lemma dropScheme_split (t : jsstring) :
  exists l, t = l ++ dropScheme t /\ forallb isSchemeUnit l = true.
Proof.
  induction t as [|c t [l [Ht Hl]]]; [now exists []|].
  cbn [dropScheme]. destruct (isSchemeUnit c) eqn:Ec.
  - exists (c :: l). split; [cbn [app]; now rewrite <- Ht|].
    cbn [forallb]. now rewrite Ec, Hl.
  - now exists [].
Qed.

Lemma dropScheme_app (l rest : jsstring) :
  forallb isSchemeUnit l = true ->
  dropScheme (l ++ js "://" ++ rest) = js "://" ++ rest.
Proof.
  induction l as [|c l IH]; [reflexivity|].
  cbn [forallb]. intros H. apply andb_true_iff in H as [Hc Hl].
  cbn [app dropScheme]. rewrite Hc. now apply IH.
Qed.

Lemma isRemote_spec (s : jsstring) :
  isRemote s = true
  <-> exists l rest,
        s = l ++ js "://" ++ rest
        /\ 2 <= length l /\ forallb isSchemeUnit l = true.
Proof.
  split.
  - destruct s as [|c [|d t]]; try discriminate. cbn [isRemote].
    intros H. apply andb_true_iff in H as [H Hs].
    apply andb_true_iff in H as [Hc Hd].
    destruct (dropScheme_split t) as [l [Ht Hl]].
    unfold startsWith in Hs.
    destruct (strip (js "://") (dropScheme t)) as [rest|] eqn:E; [|discriminate].
    apply strip_Some in E.
    exists (c :: d :: l), rest. repeat split.
    + cbn [app]. rewrite Ht at 1. now rewrite E.
    + cbn [length]. lia.
    + cbn [forallb]. now rewrite Hc, Hd, Hl.
  - intros [l [rest [-> [Hlen Hl]]]].
    destruct l as [|c [|d l]]; cbn [length] in Hlen; try lia.
    cbn [forallb] in Hl. apply andb_true_iff in Hl as [Hc Hl].
    apply andb_true_iff in Hl as [Hd Hl].
    cbn [app isRemote]. rewrite Hc, Hd, (dropScheme_app _ _ Hl).
    reflexivity.
Qed.

End RemoteFacts.

(** ** Comment lines, and the steps of the rewrite *)

Module CommentFacts.
Import JS JSFacts Regex SourceMapText Direct LineFacts SourceURLFacts LocatorFacts.

Lemma removeSourceURL_lines (body : jsstring) :
  removeSourceURL body = stripSourceURLComment body.
Proof.
  rewrite removeSourceURL_first.
  pose proof (firstSourceURL_lines body true) as Hl.
  unfold stripSourceURLComment. cbn [andb] in Hl. exact Hl.
Qed.

Lemma textLines_wf (s : jsstring) :
  noTerminator (fst (textLines s)) = true
  /\ Forall (fun p => isLineTerminator (fst p) = true
                      /\ noTerminator (snd p) = true)
            (snd (textLines s)).
Proof.
  induction s as [|c t [Hl Hls]]; [now split|].
  cbn [textLines]. destruct (textLines t) as [l ls]. cbn [fst snd] in *.
  destruct (isLineTerminator c) eqn:Ec; cbn [fst snd].
  - split; [reflexivity|]. constructor; [now split|exact Hls].
  - split; [|exact Hls]. cbn [noTerminator forallb]. fold (noTerminator l).
    now rewrite Ec, Hl.
Qed.

Lemma lineTexts_joinLines (ls : list (N * jsstring)) : forall l,
  noTerminator l = true ->
  Forall (fun p => isLineTerminator (fst p) = true
                   /\ noTerminator (snd p) = true) ls ->
  lineTexts (joinLines l ls) = l :: map snd ls.
Proof.
  induction ls as [|[c x] ls IH]; intros l Hl Hls.
  - unfold joinLines. cbn [flat_map map]. rewrite app_nil_r.
    now apply lineTexts_line.
  - inversion Hls as [|? ? [Hc Hx] Hrest]; subst. cbn [fst snd] in *.
    change (joinLines l ((c, x) :: ls)) with (l ++ c :: joinLines x ls).
    rewrite (lineTexts_app _ _ _ Hc), (lineTexts_line _ Hl), (IH x Hx Hrest).
    reflexivity.
Qed.

Lemma blankFirst_lines (p : jsstring -> bool) (ls : list (N * jsstring)) :
  map snd (blankFirst p ls) = blankFirstLine p (map snd ls).
Proof.
  induction ls as [|[c l] ls IH]; [reflexivity|].
  cbn [blankFirst map blankFirstLine snd].
  destruct (p l); [reflexivity|]. cbn [map snd]. now rewrite IH.
Qed.

Lemma blankFirst_wf (p : jsstring -> bool) (ls : list (N * jsstring)) :
  Forall (fun q => isLineTerminator (fst q) = true
                   /\ noTerminator (snd q) = true) ls ->
  Forall (fun q => isLineTerminator (fst q) = true
                   /\ noTerminator (snd q) = true) (blankFirst p ls).
Proof.
  induction 1 as [|[c l] ls [Hc Hl] Hls IH]; [constructor|].
  cbn [blankFirst]. destruct (p l); constructor; try assumption; now split.
Qed.

(** The lines of the result of [removeSourceURL]. *)
Lemma lineTexts_removeSourceURL (body : jsstring) :
  lineTexts (removeSourceURL body)
  = blankFirstLine isSourceURLLine (lineTexts body).
Proof.
  rewrite removeSourceURL_lines. unfold stripSourceURLComment, lineTexts.
  destruct (textLines_wf body) as [Hl Hls].
  destruct (textLines body) as [l ls]. cbn [fst snd] in *.
  fold (lineTexts (if isSourceURLLine l then joinLines [] ls
                   else joinLines l (blankFirst isSourceURLLine ls))).
  cbn [blankFirstLine]. destruct (isSourceURLLine l).
  - now apply lineTexts_joinLines.
  - rewrite lineTexts_joinLines; [|exact Hl|now apply blankFirst_wf].
    now rewrite blankFirst_lines.
Qed.

Lemma lineReference_blank (p : jsstring -> bool) (ls : list jsstring) :
  existsb (fun l => p l && isSome (lineReference l)) ls = false ->
  map lineReference (blankFirstLine p ls) = map lineReference ls.
Proof.
  induction ls as [|l ls IH]; [reflexivity|].
  cbn [existsb blankFirstLine]. intros H.
  apply orb_false_iff in H as [Hl Hls].
  destruct (p l); cbn [map].
  - cbn [andb] in Hl. destruct (lineReference l); [discriminate Hl|reflexivity].
  - now rewrite (IH Hls).
Qed.

End CommentFacts.

Module RewriteFacts.
Import JS JSFacts Regex SourceMapText Path PathFacts Json JsonFacts.
Import SourceMapUtil DocumentFacts.

Lemma mapM_Throw {A B : Type} (f : A -> result B) (l : list A) (x : A) :
  In x l -> f x = Throw -> mapM f l = Throw.
Proof.
  intros Hin Hx. induction l as [|a l IH]; [destruct Hin|].
  cbn [mapM]. destruct Hin as [->|Hin].
  - now rewrite Hx.
  - destruct (f a); [|reflexivity]. cbn [bind]. now rewrite (IH Hin).
Qed.

Lemma filterM_hasMap (items : list json) :
  ~ In JNull items ->
  filterM hasMap items = Ok (filter keepsSection items).
Proof.
  induction items as [|x items IH]; [reflexivity|]. intros Hin.
  cbn [filterM filter].
  rewrite IH by (intros H; apply Hin; now right).
  destruct x as [| | | | |fields]; try reflexivity.
  - exfalso. apply Hin. now left.
  - unfold hasMap. cbn [getProperty bind keepsSection].
    destruct (lookup (js "map") fields) as [[| | | | |]|]; reflexivity.
Qed.

Lemma filterM_null (items : list json) :
  In JNull items -> filterM hasMap items = Throw.
Proof.
  induction items as [|x items IH]; [intros []|].
  intros [->|Hin]; [reflexivity|].
  cbn [filterM]. destruct (hasMap x); [|reflexivity].
  cbn [bind]. now rewrite (IH Hin).
Qed.

Section Rewrite.

Variable cwd : jsstring.
Variable numberToString : jsstring -> jsstring.
Variable flattenSourceMap : json -> result json.
Variable convert : json -> result json.

Lemma updateSourceMapDocument_converted
    (sourceMapBody scriptPath sourcesRootPath : jsstring)
    (packagerRemoteRoot packagerLocalRoot : option jsstring)
    (fields converted : list (jsstring * json)) :
  parse sourceMapBody = Ok (JObject fields) ->
  lookup (js "sections") fields = None ->
  convert (JObject fields) = Ok (JObject converted) ->
  updateSourceMapDocument cwd numberToString flattenSourceMap convert
    sourceMapBody scriptPath sourcesRootPath
    packagerRemoteRoot packagerLocalRoot
  = (fs <- rewriteSourcesFields cwd numberToString sourcesRootPath
             packagerRemoteRoot packagerLocalRoot converted ;;
     Ok (JObject (finalFields scriptPath fs))).
Proof.
  intros Hp Hs Hc. unfold updateSourceMapDocument.
  rewrite Hp. cbn [bind getProperty]. rewrite Hs. cbn [truthy bind].
  rewrite Hc. cbn [bind]. apply rewrite_object.
Qed.

Lemma mapM_rewriteSource_strings (sourcesRootPath : jsstring)
    (packagerRemoteRoot packagerLocalRoot : option jsstring)
    (paths : list jsstring) :
  mapM (rewriteSource cwd numberToString sourcesRootPath
          packagerRemoteRoot packagerLocalRoot) (map JString paths)
  = Ok (map (fun p => JString (rewriteSourcePath cwd sourcesRootPath
                                 packagerRemoteRoot packagerLocalRoot p))
            paths).
Proof.
  induction paths as [|p paths IH]; [reflexivity|].
  cbn [map mapM]. rewrite IH. unfold rewriteSource, rewriteSourcePath.
  cbn [toString]. destruct (test IS_REMOTE p); reflexivity.
Qed.

Lemma rewriteSourcesFields_other (sourcesRootPath : jsstring)
    (packagerRemoteRoot packagerLocalRoot : option jsstring)
    (converted fs : list (jsstring * json)) (key : jsstring) :
  rewriteSourcesFields cwd numberToString sourcesRootPath
    packagerRemoteRoot packagerLocalRoot converted = Ok fs ->
  key <> js "sources" ->
  lookup key fs = lookup key converted.
Proof.
  unfold rewriteSourcesFields. intros H Hkey.
  destruct (lookup (js "sources") converted) as [w|]; [|now injection H as <-].
  destruct (toBoolean numberToString w); [|now injection H as <-].
  destruct w as [| | | |items|]; try discriminate.
  destruct (mapM _ items) as [items'|]; [|discriminate].
  cbn [bind] in H. injection H as <-. now apply lookup_setField_other.
Qed.

End Rewrite.

End RewriteFacts.

(** ** References to inline maps *)

Module InlineMapFacts.
Import JS JSFacts Regex SourceMapText Direct LineFacts LocatorFacts.
Import RetargetFacts ValueFacts.

Lemma lineReferenceAt_no_space (l : jsstring) :
  forallb (fun c => negb (N.eqb c 32)) l = true -> lineReferenceAt l = None.
Proof.
  intros H. unfold lineReferenceAt.
  destruct (strip (js "//") l) as [[|m r]|] eqn:E; try reflexivity.
  destruct (isMarker m); [|reflexivity].
  apply strip_Some in E. subst l.
  rewrite forallb_app in H. apply andb_true_iff in H as [_ H].
  cbn [forallb] in H. apply andb_true_iff in H as [_ H].
  destruct r as [|c r]; [reflexivity|].
  cbn [forallb] in H. apply andb_true_iff in H as [Hc _].
  apply negb_true_iff in Hc. change (js " sourceMappingURL=")
    with (32%N :: js "sourceMappingURL=").
  cbn [strip]. rewrite N.eqb_sym in Hc. now rewrite Hc.
Qed.

Lemma lineReference_no_space (l : jsstring) :
  forallb (fun c => negb (N.eqb c 32)) l = true -> lineReference l = None.
Proof.
  induction l as [|c l IH]; intros H; rewrite lineReference_eq.
  - reflexivity.
  - rewrite (lineReferenceAt_no_space _ H).
    cbn [forallb] in H. apply andb_true_iff in H as [_ H]. now apply IH.
Qed.

(** A line that is a reference to an inline [data:] map, with a payload
    without space, has no reference the pattern accepts. *)
Lemma lineReference_inline (x : jsstring) :
  forallb (fun c => negb (N.eqb c 32)) x = true ->
  lineReference (js "//# sourceMappingURL=data:" ++ x) = None.
Proof.
  intros H.
  let l := eval vm_compute in (js "//# sourceMappingURL=data:") in
  change (js "//# sourceMappingURL=data:") with l.
  cbn [app].
  do 26 (rewrite lineReference_eq;
         match goal with
         | |- context [lineReferenceAt ?a] =>
             replace (lineReferenceAt a) with (@None jsstring)
               by (vm_compute; reflexivity)
         end).
  now apply lineReference_no_space.
Qed.

End InlineMapFacts.

(* ================================================================= *)
(** * The properties X1 to X20 *)

Import PathFacts LocatorFacts DocumentFacts.
Import NormalFormFacts FixpointFacts RoundTripFacts RetargetFacts ValueFacts.
Import RemoteFacts CommentFacts RewriteFacts InlineMapFacts.

(** X1: whatever its argument, [makeUnixStylePath] returns a relative path
    in normal form: it is not empty, does not start or end with a
    separator, and is [.] or some [..] segments followed by ordinary
    segments. An absolute argument loses its leading separator. *)
Theorem makeUnixStylePath_relative_form (p : jsstring) :
  isRelativeForm (makeUnixStylePath p) = true
  /\ nonEmpty (makeUnixStylePath p) = true
  /\ isAbsolute (makeUnixStylePath p) = false
  /\ endsWithSlash (makeUnixStylePath p) = false.
Proof.
  destruct (makeUnixStylePath_form p) as [up [down [Hdown ->]]].
  split; [now apply form_isRelativeForm|].
  now apply (form_relative up down Hdown).
Qed.

(** X2: [makeUnixStylePath] is idempotent, and the paths it leaves as
    they are are exactly the relative paths in normal form; a unit other
    than the separator, a backslash for one, is never changed in them. *)
Theorem makeUnixStylePath_idempotent (p : jsstring) :
  makeUnixStylePath (makeUnixStylePath p) = makeUnixStylePath p
  /\ (makeUnixStylePath p = p <-> isRelativeForm p = true).
Proof.
  assert (Hform : isRelativeForm (makeUnixStylePath p) = true).
  { destruct (makeUnixStylePath_form p) as [up [down [Hdown ->]]].
    now apply form_isRelativeForm. }
  split; [now apply makeUnixStylePath_fixed|]. split.
  - intros H. now rewrite <- H.
  - apply makeUnixStylePath_fixed.
Qed.

(** X3: whatever the working directory, the roots and the path are,
    [updateSourceMapPath] returns a relative path in normal form; so the
    callback of [sources.map] returns an entry that the remote pattern
    accepts or such a relative path. *)
Theorem updateSourceMapPath_relative_form
    (cwd sourcePath sourcesRootPath : jsstring)
    (packagerRemoteRoot packagerLocalRoot : option jsstring) :
  let result :=
    updateSourceMapPath cwd sourcePath sourcesRootPath
      packagerRemoteRoot packagerLocalRoot in
  let entry :=
    rewriteSourcePath cwd sourcesRootPath packagerRemoteRoot packagerLocalRoot
      sourcePath in
  isRelativeForm result = true
  /\ isAbsolute result = false
  /\ (if test IS_REMOTE sourcePath then entry = sourcePath
      else isRelativeForm entry = true).
Proof.
  intros result entry.
  assert (H : isRelativeForm result = true /\ isAbsolute result = false).
  { unfold result, updateSourceMapPath.
    match goal with
    | |- isRelativeForm (makeUnixStylePath ?x) = true /\ _ =>
        destruct (makeUnixStylePath_form x) as [up [down [Hdown ->]]]
    end.
    split; [now apply form_isRelativeForm|].
    now apply (form_relative up down Hdown). }
  destruct H as [H1 H2]. split; [exact H1|]. split; [exact H2|].
  unfold entry, rewriteSourcePath.
  destruct (test IS_REMOTE sourcePath); [reflexivity|exact H1].
Qed.

(** X4: without packager roots, a path made of an absolute
    [sourcesRootPath], a separator and ordinary segments is rewritten to
    these segments joined by separators. *)
Theorem updateSourceMapPath_under_root
    (cwd sourcesRootPath : jsstring) (segs : list jsstring)
    (packagerRemoteRoot packagerLocalRoot : option jsstring) :
  isAbsolute sourcesRootPath = true ->
  forallb isNormal segs = true ->
  bothGiven packagerRemoteRoot packagerLocalRoot = false ->
  updateSourceMapPath cwd
    (sourcesRootPath ++ slash :: joinWith [slash] segs) sourcesRootPath
    packagerRemoteRoot packagerLocalRoot
  = match segs with
    | [] => js "."
    | _ :: _ => joinWith [slash] segs
    end.
Proof.
  intros Hroot Hsegs Hgiven.
  assert (Hn : Forall (fun seg => isNormal seg = true) segs)
    by (now apply Forall_forall, forallb_forall).
  rewrite updateSourceMapPath_plain by exact Hgiven.
  rewrite (relative_under cwd sourcesRootPath segs Hroot Hn).
  pose proof (makeUnixStylePath_relative [] segs Hn) as H.
  cbn [ups map app] in H. exact H.
Qed.

Lemma updateSourceMapPath_under_root_witness :
  updateSourceMapPath workDir (js "/root/src/a/b.js") (js "/root/src") None None
  = js "a/b.js".
Proof.
  exact (updateSourceMapPath_under_root workDir (js "/root/src")
           [js "a"; js "b.js"] None None eq_refl eq_refl eq_refl).
Defined.

(** X5: in a process whose working directory is absolute, the path that
    [updateSourceMapPath] returns, resolved from [sourcesRootPath], is the
    path it was computed from (after the substitution of the packager
    roots, when both are given): [path.resolve(sourcesRootPath, result)]
    equals [path.resolve(sourcePath)]. *)
Theorem updateSourceMapPath_resolves_back
    (cwd sourcePath sourcesRootPath : jsstring)
    (packagerRemoteRoot packagerLocalRoot : option jsstring) :
  isAbsolute cwd = true ->
  resolveArgs cwd
    [sourcesRootPath;
     updateSourceMapPath cwd sourcePath sourcesRootPath
       packagerRemoteRoot packagerLocalRoot]
  = resolve cwd
      match given packagerRemoteRoot, given packagerLocalRoot with
      | Some remote, Some local =>
          replaceString sourcePath
            (makeUnixStylePath remote) (makeUnixStylePath local)
      | _, _ => sourcePath
      end.
Proof.
  intros Hcwd. unfold updateSourceMapPath. now apply resolveArgs_round.
Qed.

Lemma updateSourceMapPath_resolves_back_witness :
  updateSourceMapPath workDir (js "/lib/c.js") (js "/root/src") None None
  = js "../../lib/c.js"
  /\ resolveArgs workDir [js "/root/src"; js "../../lib/c.js"]
     = js "/lib/c.js".
Proof.
  split; [reflexivity|].
  exact (updateSourceMapPath_resolves_back workDir (js "/lib/c.js")
           (js "/root/src") None None eq_refl).
Defined.

(** X6: [IS_REMOTE.test(s)] holds exactly when [s] starts with two or
    more units of the class [a-zA-z] (the units from [A] to [z]) followed
    by [://]; the pattern never matches further inside the text. *)
Theorem IS_REMOTE_test (s : jsstring) :
  test IS_REMOTE s = isRemote s
  /\ (test IS_REMOTE s = true
      <-> exists scheme rest,
            s = scheme ++ js "://" ++ rest
            /\ 2 <= length scheme
            /\ forallb isSchemeUnit scheme = true).
Proof.
  split; [apply test_IS_REMOTE|].
  rewrite test_IS_REMOTE. apply isRemote_spec.
Qed.

(** X7: what [getSourceMapRelativeUrl] returns is never empty, holds no
    line terminator and does not start with [data:]; it has no white
    space at its end, its first unit apart (matching the value again
    yields the same value). *)
Theorem getSourceMapRelativeUrl_value (body : jsstring) :
  match getSourceMapRelativeUrl body with
  | Some v => isReferenceValue v = true /\ capturedValue v = Some v
  | None => True
  end.
Proof.
  rewrite locator_lines.
  destruct (lastReference body) as [v|] eqn:E; [|exact I].
  now apply (lastReference_value body).
Qed.

(** X8: after [appendSourceMapPaths] on a body that is empty or ends with
    a line terminator, [getSourceMapRelativeUrl] returns the appended
    value, without the white space at its end, whatever references the
    body had: the value must be a non-empty one-line text that does not
    start with [data:]. *)
Theorem getSourceMapRelativeUrl_appended (scriptBody sourceMappingUrl : jsstring) :
  lineComplete scriptBody = true ->
  isReferenceValue sourceMappingUrl = true ->
  getSourceMapRelativeUrl (appendSourceMapPaths scriptBody sourceMappingUrl)
  = capturedValue sourceMappingUrl.
Proof.
  intros Hc Hv. rewrite locator_lines. unfold appendSourceMapPaths.
  pose proof (lastReference_built _ Hv) as Hlast.
  destruct (lineComplete_cases _ Hc) as [->|[b [t [-> Ht]]]]; [exact Hlast|].
  rewrite <- app_assoc. cbn [app].
  rewrite lastReference_app by exact Ht.
  rewrite lastReference_step by (now apply referenceAt_terminator).
  rewrite Hlast. destruct sourceMappingUrl; [discriminate Hv|reflexivity].
Qed.

Lemma getSourceMapRelativeUrl_appended_witness :
  getSourceMapRelativeUrl
    (appendSourceMapPaths (js "var a = 1;" ++ [10%N]) (js "index.map "))
  = Some (js "index.map").
Proof.
  exact (getSourceMapRelativeUrl_appended (js "var a = 1;" ++ [10%N])
           (js "index.map ") eq_refl eq_refl).
Defined.

(** X9: on a body without map reference that is empty or ends with a line
    terminator, appending a reference and retargeting it is appending the
    base name of the new location (a base name without [$]). *)
Theorem updateScriptPaths_appended
    (scriptBody sourceMappingUrl : jsstring) (newLocation : IStrictUrl) :
  lineComplete scriptBody = true ->
  getSourceMapRelativeUrl scriptBody = None ->
  isReferenceValue sourceMappingUrl = true ->
  noDollar (basename (strict_pathname newLocation)) = true ->
  updateScriptPaths (appendSourceMapPaths scriptBody sourceMappingUrl) newLocation
  = appendSourceMapPaths scriptBody (basename (strict_pathname newLocation)).
Proof.
  intros Hc Hnone Hv Hd. rewrite locator_lines in Hnone.
  apply lastReference_firstReference in Hnone.
  rewrite updateScriptPaths_plain by exact Hd. unfold appendSourceMapPaths.
  rewrite (firstReference_app_complete _ _ Hc Hnone).
  destruct sourceMappingUrl as [|c t]; [discriminate Hv|].
  destruct (referenceAt_built c t [] Hv eq_refl) as [ws [_ Hat]].
  rewrite !app_nil_r in Hat.
  rewrite firstReference_eq, Hat. now rewrite !app_nil_r.
Qed.

Lemma updateScriptPaths_appended_witness :
  updateScriptPaths
    (appendSourceMapPaths (js "var a = 1;" ++ [10%N]) (js "index.map"))
    newMapLocation
  = js "var a = 1;" ++ [10%N] ++ js "//# sourceMappingURL=new.map".
Proof.
  exact (updateScriptPaths_appended (js "var a = 1;" ++ [10%N])
           (js "index.map") newMapLocation eq_refl eq_refl eq_refl eq_refl).
Defined.

(** X10: [updateScriptPaths] is idempotent when the base name of the new
    location has no [$] and is a non-empty one-line text that does not
    start with [data:]. *)
Theorem updateScriptPaths_idempotent
    (scriptBody : jsstring) (sourceMappingUrl : IStrictUrl) :
  noDollar (basename (strict_pathname sourceMappingUrl)) = true ->
  isReferenceValue (basename (strict_pathname sourceMappingUrl)) = true ->
  updateScriptPaths (updateScriptPaths scriptBody sourceMappingUrl)
    sourceMappingUrl
  = updateScriptPaths scriptBody sourceMappingUrl.
Proof.
  intros Hd Hv. rewrite (updateScriptPaths_plain scriptBody) by exact Hd.
  destruct (firstReference scriptBody) as [[pre [[[m v] w] post]]|] eqn:E.
  - destruct (basename (strict_pathname sourceMappingUrl)) as [|c t] eqn:En;
      [discriminate Hv|].
    destruct (firstReference_retargeted _ _ _ _ _ _ c t E Hv) as [ws [_ Hf]].
    rewrite updateScriptPaths_plain by (now rewrite En).
    now rewrite Hf, En.
  - rewrite updateScriptPaths_plain by exact Hd. now rewrite E.
Qed.

Lemma updateScriptPaths_idempotent_witness :
  updateScriptPaths (js "f(); //@ sourceMappingURL=old.map  ") newMapLocation
  = js "f(); //# sourceMappingURL=new.map"
  /\ updateScriptPaths (js "f(); //# sourceMappingURL=new.map") newMapLocation
     = js "f(); //# sourceMappingURL=new.map".
Proof.
  split; [reflexivity|].
  exact (updateScriptPaths_idempotent (js "f(); //@ sourceMappingURL=old.map  ")
           newMapLocation eq_refl eq_refl).
Defined.

(** X11: when the body has exactly one map reference, after
    [updateScriptPaths] the locator [getSourceMapRelativeUrl] returns the
    base name of the new location (without the white space at its end),
    for a base name without [$] that is a non-empty one-line text not
    starting with [data:]. *)
Theorem getSourceMapRelativeUrl_retargeted_single
    (scriptBody : jsstring) (sourceMappingUrl : IStrictUrl)
    (pre : jsstring) (m : N) (v w post : jsstring) :
  firstReference scriptBody = Some (pre, (m, v, w, post)) ->
  getSourceMapRelativeUrl post = None ->
  noDollar (basename (strict_pathname sourceMappingUrl)) = true ->
  isReferenceValue (basename (strict_pathname sourceMappingUrl)) = true ->
  getSourceMapRelativeUrl (updateScriptPaths scriptBody sourceMappingUrl)
  = capturedValue (basename (strict_pathname sourceMappingUrl)).
Proof.
  intros E Hpost Hd Hv. rewrite locator_lines in Hpost |- *.
  rewrite updateScriptPaths_plain, E by exact Hd.
  destruct (basename (strict_pathname sourceMappingUrl)) as [|c t] eqn:En;
    [discriminate Hv|].
  destruct (firstReference_retargeted _ _ _ _ _ _ c t E Hv) as [ws [_ Hf]].
  rewrite (firstReference_lastReference _ _ _ _ _ _ Hf), Hpost. reflexivity.
Qed.

Lemma getSourceMapRelativeUrl_retargeted_single_witness :
  getSourceMapRelativeUrl
    (updateScriptPaths (js "f(); //@ sourceMappingURL=old.map" ++ 10%N :: js "g();")
       newMapLocation)
  = Some (js "new.map").
Proof.
  exact (getSourceMapRelativeUrl_retargeted_single
           (js "f(); //@ sourceMappingURL=old.map" ++ 10%N :: js "g();")
           newMapLocation (js "f(); ") 64%N (js "old.map") []
           (10%N :: js "g();") eq_refl eq_refl eq_refl eq_refl).
Defined.

(** X12: [updateScriptPaths] rewrites the first map reference while
    [getSourceMapRelativeUrl] reads the last one: when the text after the
    first reference holds another reference, the locator returns the same
    value before and after [updateScriptPaths], whatever the new location
    is. *)
Theorem getSourceMapRelativeUrl_retargeted_later
    (scriptBody : jsstring) (sourceMappingUrl : IStrictUrl)
    (pre : jsstring) (m : N) (v w post later : jsstring) :
  firstReference scriptBody = Some (pre, (m, v, w, post)) ->
  getSourceMapRelativeUrl post = Some later ->
  getSourceMapRelativeUrl scriptBody = Some later
  /\ getSourceMapRelativeUrl (updateScriptPaths scriptBody sourceMappingUrl)
     = Some later.
Proof.
  intros E Hpost. rewrite !locator_lines in *. split.
  - now rewrite (firstReference_lastReference _ _ _ _ _ _ E), Hpost.
  - pose proof (updateScriptPaths_post scriptBody sourceMappingUrl) as Hx.
    rewrite E in Hx. destruct Hx as [x ->].
    destruct (firstReference_at _ _ _ E) as [s Hs].
    destruct (referenceAt_parts _ _ _ _ _ Hs) as [_ [_ Hend]].
    now rewrite lastReference_app, Hpost by exact Hend.
Qed.

Lemma getSourceMapRelativeUrl_retargeted_later_witness :
  updateScriptPaths
    (js "//# sourceMappingURL=a.map" ++ 10%N :: js "//# sourceMappingURL=b.map")
    newMapLocation
  = js "//# sourceMappingURL=new.map" ++ 10%N :: js "//# sourceMappingURL=b.map"
  /\ getSourceMapRelativeUrl
       (js "//# sourceMappingURL=a.map" ++ 10%N :: js "//# sourceMappingURL=b.map")
     = Some (js "b.map")
  /\ getSourceMapRelativeUrl
       (updateScriptPaths
          (js "//# sourceMappingURL=a.map" ++ 10%N :: js "//# sourceMappingURL=b.map")
          newMapLocation)
     = Some (js "b.map").
Proof.
  split; [reflexivity|].
  exact (getSourceMapRelativeUrl_retargeted_later
           (js "//# sourceMappingURL=a.map" ++ 10%N :: js "//# sourceMappingURL=b.map")
           newMapLocation [] 35%N (js "a.map") []
           (10%N :: js "//# sourceMappingURL=b.map") (js "b.map")
           eq_refl eq_refl).
Defined.

(** X13: [removeSourceURL] does not change what [getSourceMapRelativeUrl]
    returns, as long as no [sourceURL] comment line carries a map
    reference itself. *)
Theorem removeSourceURL_keeps_reference (scriptBody : jsstring) :
  existsb (fun l => isSourceURLLine l && isSome (lineReference l))
          (lineTexts scriptBody) = false ->
  getSourceMapRelativeUrl (removeSourceURL scriptBody)
  = getSourceMapRelativeUrl scriptBody.
Proof.
  intros H. rewrite !locator_lines. unfold lastReference.
  rewrite lineTexts_removeSourceURL. now rewrite lineReference_blank.
Qed.

Lemma removeSourceURL_keeps_reference_witness :
  removeSourceURL
    (js "f();" ++ 10%N :: js "//# sourceURL=http://localhost:8081/index.bundle"
       ++ 10%N :: js "//# sourceMappingURL=index.map")
  = js "f();" ++ 10%N :: 10%N :: js "//# sourceMappingURL=index.map"
  /\ getSourceMapRelativeUrl
       (removeSourceURL
          (js "f();" ++ 10%N :: js "//# sourceURL=http://localhost:8081/index.bundle"
             ++ 10%N :: js "//# sourceMappingURL=index.map"))
     = Some (js "index.map").
Proof.
  split; [reflexivity|].
  rewrite (removeSourceURL_keeps_reference
             (js "f();" ++ 10%N :: js "//# sourceURL=http://localhost:8081/index.bundle"
                ++ 10%N :: js "//# sourceMappingURL=index.map") eq_refl).
  reflexivity.
Defined.

(** X14: a document without [sections] whose [sources], after the
    combinator, is an array of strings is always rewritten (the raw text
    is not returned): every entry the remote pattern accepts is kept,
    every other entry is replaced by its normalized path, in the same
    order; then [sourcesContent] is deleted and [sourceRoot] and [file]
    are set. *)
Theorem updateSourceMapFile_string_sources
    (cwd : jsstring) (numberToString : jsstring -> jsstring)
    (flattenSourceMap convert : json -> result json)
    (sourceMapBody scriptPath sourcesRootPath : jsstring)
    (packagerRemoteRoot packagerLocalRoot : option jsstring)
    (fields converted : list (jsstring * json)) (paths : list jsstring) :
  parse sourceMapBody = Ok (JObject fields) ->
  lookup (js "sections") fields = None ->
  convert (JObject fields) = Ok (JObject converted) ->
  lookup (js "sources") converted = Some (JArray (map JString paths)) ->
  updateSourceMapFile cwd numberToString flattenSourceMap convert
    sourceMapBody scriptPath sourcesRootPath
    packagerRemoteRoot packagerLocalRoot
  = stringify numberToString
      (JObject
         (finalFields scriptPath
            (setField (js "sources")
               (JArray
                  (map (fun p =>
                          JString
                            (rewriteSourcePath cwd sourcesRootPath
                               packagerRemoteRoot packagerLocalRoot p))
                       paths))
               converted))).
Proof.
  intros Hp Hs Hc Hsrc. unfold updateSourceMapFile.
  rewrite (updateSourceMapDocument_converted cwd numberToString
             flattenSourceMap convert _ scriptPath sourcesRootPath
             packagerRemoteRoot packagerLocalRoot fields converted Hp Hs Hc).
  unfold rewriteSourcesFields. rewrite Hsrc. cbn [toBoolean].
  rewrite mapM_rewriteSource_strings. reflexivity.
Qed.

Lemma updateSourceMapFile_string_sources_witness :
  updateSourceMapFile workDir plainNumber noFlatten flatConvert
    (jsq "{'version':3,'sources':['webpack:///x.js','/root/src/a/b.js'],'sourcesContent':['x','y']}")
    (js "/out/index.bundle") (js "/root/src") None None
  = jsq "{'version':3,'sources':['webpack:///x.js','a/b.js'],'sourceRoot':'','file':'/out/index.bundle'}".
Proof.
  exact (updateSourceMapFile_string_sources workDir plainNumber noFlatten
           flatConvert
           (jsq "{'version':3,'sources':['webpack:///x.js','/root/src/a/b.js'],'sourcesContent':['x','y']}")
           (js "/out/index.bundle") (js "/root/src") None None
           [(js "version", JNumber (js "3"));
            (js "sources",
             JArray [JString (js "webpack:///x.js");
                     JString (js "/root/src/a/b.js")]);
            (js "sourcesContent", JArray [JString (js "x"); JString (js "y")])]
           [(js "version", JNumber (js "3"));
            (js "sources",
             JArray [JString (js "webpack:///x.js");
                     JString (js "/root/src/a/b.js")]);
            (js "sourcesContent", JArray [JString (js "x"); JString (js "y")])]
           [js "webpack:///x.js"; js "/root/src/a/b.js"]
           eq_refl eq_refl eq_refl eq_refl).
Defined.

(** X15: when the rewrite of a document without [sections] completes,
    its result is an object in which every field other than [sources],
    [sourcesContent], [sourceRoot] and [file] is the field the combinator
    returned: [version], [names], [mappings] and any other field are not
    touched, and a [sources] that is missing or falsy ([null], [false],
    [0], the empty string) is left as it is. *)
Theorem updateSourceMapFile_other_fields
    (cwd : jsstring) (numberToString : jsstring -> jsstring)
    (flattenSourceMap convert : json -> result json)
    (sourceMapBody scriptPath sourcesRootPath : jsstring)
    (packagerRemoteRoot packagerLocalRoot : option jsstring)
    (fields converted : list (jsstring * json)) (document : json) :
  parse sourceMapBody = Ok (JObject fields) ->
  lookup (js "sections") fields = None ->
  convert (JObject fields) = Ok (JObject converted) ->
  updateSourceMapDocument cwd numberToString flattenSourceMap convert
    sourceMapBody scriptPath sourcesRootPath
    packagerRemoteRoot packagerLocalRoot = Ok document ->
  exists out,
    document = JObject out
    /\ updateSourceMapFile cwd numberToString flattenSourceMap convert
         sourceMapBody scriptPath sourcesRootPath
         packagerRemoteRoot packagerLocalRoot
       = stringify numberToString (JObject out)
    /\ (forall key,
          key <> js "sources" -> key <> js "sourcesContent" ->
          key <> js "sourceRoot" -> key <> js "file" ->
          lookup key out = lookup key converted)
    /\ (match lookup (js "sources") converted with
        | Some w => toBoolean numberToString w = false
        | None => True
        end ->
        lookup (js "sources") out = lookup (js "sources") converted).
Proof.
  intros Hp Hs Hc Hdoc. unfold updateSourceMapFile. rewrite Hdoc.
  rewrite (updateSourceMapDocument_converted cwd numberToString
             flattenSourceMap convert _ scriptPath sourcesRootPath
             packagerRemoteRoot packagerLocalRoot fields converted Hp Hs Hc)
    in Hdoc.
  destruct (rewriteSourcesFields cwd numberToString sourcesRootPath
              packagerRemoteRoot packagerLocalRoot converted) as [fs|] eqn:E;
    [|discriminate].
  cbn [bind] in Hdoc. injection Hdoc as <-.
  exists (finalFields scriptPath fs). split; [reflexivity|].
  split; [reflexivity|]. split.
  - intros key H1 H2 H3 H4. rewrite finalFields_other by assumption.
    now apply (rewriteSourcesFields_other cwd numberToString sourcesRootPath
                 packagerRemoteRoot packagerLocalRoot converted fs key E).
  - intros Hfalsy. rewrite finalFields_other by (apply string_neq; reflexivity).
    unfold rewriteSourcesFields in E.
    destruct (lookup (js "sources") converted) as [w|] eqn:El;
      [rewrite Hfalsy in E|]; injection E as <-; exact El.
Qed.

Lemma updateSourceMapFile_other_fields_witness :
  exists out,
    JObject
      [(js "version", JNumber (js "3"));
       (js "sources", JArray [JString (js "a.js")]);
       (js "mappings", JString (js "AAAA"));
       (js "sourceRoot", JString []);
       (js "file", JString (js "/out/index.bundle"))]
    = JObject out
    /\ updateSourceMapFile workDir plainNumber noFlatten flatConvert
         (jsq "{'version':3,'sources':['/root/src/a.js'],'mappings':'AAAA'}")
         (js "/out/index.bundle") (js "/root/src") None None
       = stringify plainNumber (JObject out)
    /\ (forall key,
          key <> js "sources" -> key <> js "sourcesContent" ->
          key <> js "sourceRoot" -> key <> js "file" ->
          lookup key out
          = lookup key
              [(js "version", JNumber (js "3"));
               (js "sources", JArray [JString (js "/root/src/a.js")]);
               (js "mappings", JString (js "AAAA"))])
    /\ (match
          lookup (js "sources")
            [(js "version", JNumber (js "3"));
             (js "sources", JArray [JString (js "/root/src/a.js")]);
             (js "mappings", JString (js "AAAA"))]
        with
        | Some w => toBoolean plainNumber w = false
        | None => True
        end ->
        lookup (js "sources") out
        = lookup (js "sources")
            [(js "version", JNumber (js "3"));
             (js "sources", JArray [JString (js "/root/src/a.js")]);
             (js "mappings", JString (js "AAAA"))]).
Proof.
  exact (updateSourceMapFile_other_fields workDir plainNumber noFlatten
           flatConvert
           (jsq "{'version':3,'sources':['/root/src/a.js'],'mappings':'AAAA'}")
           (js "/out/index.bundle") (js "/root/src") None None
           [(js "version", JNumber (js "3"));
            (js "sources", JArray [JString (js "/root/src/a.js")]);
            (js "mappings", JString (js "AAAA"))]
           [(js "version", JNumber (js "3"));
            (js "sources", JArray [JString (js "/root/src/a.js")]);
            (js "mappings", JString (js "AAAA"))]
           (JObject
              [(js "version", JNumber (js "3"));
               (js "sources", JArray [JString (js "a.js")]);
               (js "mappings", JString (js "AAAA"));
               (js "sourceRoot", JString []);
               (js "file", JString (js "/out/index.bundle"))])
           eq_refl eq_refl eq_refl eq_refl).
Defined.

(** X16: one entry of [sources] that is not a string and that the remote
    pattern does not accept (a number, [null], an object) makes the path
    functions throw: the whole raw text is returned unchanged, whatever
    the other entries are. *)
Theorem updateSourceMapFile_bad_entry
    (cwd : jsstring) (numberToString : jsstring -> jsstring)
    (flattenSourceMap convert : json -> result json)
    (sourceMapBody scriptPath sourcesRootPath : jsstring)
    (packagerRemoteRoot packagerLocalRoot : option jsstring)
    (fields converted : list (jsstring * json))
    (items : list json) (entry : json) :
  parse sourceMapBody = Ok (JObject fields) ->
  lookup (js "sections") fields = None ->
  convert (JObject fields) = Ok (JObject converted) ->
  lookup (js "sources") converted = Some (JArray items) ->
  In entry items ->
  (forall p, entry <> JString p) ->
  test IS_REMOTE (toString numberToString entry) = false ->
  updateSourceMapFile cwd numberToString flattenSourceMap convert
    sourceMapBody scriptPath sourcesRootPath
    packagerRemoteRoot packagerLocalRoot
  = sourceMapBody.
Proof.
  intros Hp Hs Hc Hsrc Hin Hstr Hremote. unfold updateSourceMapFile.
  rewrite (updateSourceMapDocument_converted cwd numberToString
             flattenSourceMap convert _ scriptPath sourcesRootPath
             packagerRemoteRoot packagerLocalRoot fields converted Hp Hs Hc).
  unfold rewriteSourcesFields. rewrite Hsrc. cbn [toBoolean].
  rewrite (mapM_Throw _ items entry Hin); [reflexivity|].
  unfold rewriteSource. rewrite Hremote.
  destruct entry; try reflexivity. now destruct (Hstr s).
Qed.

Lemma updateSourceMapFile_bad_entry_witness :
  updateSourceMapFile workDir plainNumber noFlatten flatConvert
    (jsq "{'sources':['/root/src/a.js',1]}")
    (js "/out/index.bundle") (js "/root/src") None None
  = jsq "{'sources':['/root/src/a.js',1]}".
Proof.
  apply (updateSourceMapFile_bad_entry workDir plainNumber noFlatten
           flatConvert (jsq "{'sources':['/root/src/a.js',1]}")
           (js "/out/index.bundle") (js "/root/src") None None
           [(js "sources",
             JArray [JString (js "/root/src/a.js"); JNumber (js "1")])]
           [(js "sources",
             JArray [JString (js "/root/src/a.js"); JNumber (js "1")])]
           [JString (js "/root/src/a.js"); JNumber (js "1")]
           (JNumber (js "1")));
    try reflexivity.
  - right. left. reflexivity.
  - intros p. discriminate.
Defined.

(** X17: on a document whose [sections] is an array, the sections without
    [map] (or with a [null] one) are dropped, in place, before
    [flatten-source-map] is called: the result depends on the flattening
    routine through its result on that filtered document only, and the
    raw text is returned when the routine throws on it. A section that is
    [null] makes the raw text come back. *)
Theorem updateSourceMapFile_sections
    (cwd : jsstring) (numberToString : jsstring -> jsstring)
    (flattenSourceMap otherFlatten convert : json -> result json)
    (sourceMapBody scriptPath sourcesRootPath : jsstring)
    (packagerRemoteRoot packagerLocalRoot : option jsstring)
    (fields : list (jsstring * json)) (items : list json) :
  parse sourceMapBody = Ok (JObject fields) ->
  lookup (js "sections") fields = Some (JArray items) ->
  let run flatten :=
    updateSourceMapFile cwd numberToString flatten convert
      sourceMapBody scriptPath sourcesRootPath
      packagerRemoteRoot packagerLocalRoot in
  (In JNull items -> run flattenSourceMap = sourceMapBody)
  /\ (~ In JNull items ->
      (flattenSourceMap (filteredSections fields items) = Throw ->
       run flattenSourceMap = sourceMapBody)
      /\ (flattenSourceMap (filteredSections fields items)
          = otherFlatten (filteredSections fields items) ->
          run flattenSourceMap = run otherFlatten)).
Proof.
  intros Hp Hs run.
  assert (Hdoc : forall flatten,
    updateSourceMapDocument cwd numberToString flatten convert
      sourceMapBody scriptPath sourcesRootPath
      packagerRemoteRoot packagerLocalRoot
    = (sourceMap <-
         (kept <- filterM hasMap items ;;
          sourceMap <- setProperty (JObject fields) (js "sections") (JArray kept) ;;
          flatten sourceMap) ;;
       sourceMap <- convert sourceMap ;;
       sources <- getProperty sourceMap (js "sources") ;;
       sourceMap <-
         (if truthy numberToString sources then
            match sources with
            | Own (JArray items) =>
                items' <- mapM (rewriteSource cwd numberToString sourcesRootPath
                                  packagerRemoteRoot packagerLocalRoot) items ;;
                setProperty sourceMap (js "sources") (JArray items')
            | _ => Throw
            end
          else Ok sourceMap) ;;
       sourceMap <- deleteProperty sourceMap (js "sourcesContent") ;;
       sourceMap <- setProperty sourceMap (js "sourceRoot") (JString []) ;;
       sourceMap <- setProperty sourceMap (js "file") (JString scriptPath) ;;
       Ok sourceMap)).
  { intros flatten. unfold updateSourceMapDocument.
    rewrite Hp. cbn [bind getProperty]. rewrite Hs. reflexivity. }
  split.
  - intros Hnull. unfold run, updateSourceMapFile.
    rewrite Hdoc, (filterM_null items Hnull). reflexivity.
  - intros Hnull. split.
    + intros Hthrow. unfold run, updateSourceMapFile.
      rewrite Hdoc, (filterM_hasMap items Hnull). cbn [bind setProperty].
      fold (filteredSections fields items). rewrite Hthrow. reflexivity.
    + intros Hsame. unfold run, updateSourceMapFile.
      rewrite !Hdoc, (filterM_hasMap items Hnull). cbn [bind setProperty].
      fold (filteredSections fields items). now rewrite Hsame.
Qed.

Lemma updateSourceMapFile_sections_witness :
  filteredSections
    [(js "version", JNumber (js "3"));
     (js "sections",
      JArray [JObject [(js "offset", JNumber (js "0"))];
              JObject [(js "map", JObject [])]])]
    [JObject [(js "offset", JNumber (js "0"))];
     JObject [(js "map", JObject [])]]
  = JObject [(js "version", JNumber (js "3"));
             (js "sections", JArray [JObject [(js "map", JObject [])]])]
  /\ updateSourceMapFile workDir plainNumber noFlatten flatConvert
       (jsq "{'version':3,'sections':[{'offset':0},{'map':{}}]}")
       (js "/out/index.bundle") (js "/root/src") None None
     = jsq "{'version':3,'sections':[{'offset':0},{'map':{}}]}".
Proof.
  split; [reflexivity|].
  destruct (updateSourceMapFile_sections workDir plainNumber noFlatten
              noFlatten flatConvert
              (jsq "{'version':3,'sections':[{'offset':0},{'map':{}}]}")
              (js "/out/index.bundle") (js "/root/src") None None
              [(js "version", JNumber (js "3"));
               (js "sections",
                JArray [JObject [(js "offset", JNumber (js "0"))];
                        JObject [(js "map", JObject [])]])]
              [JObject [(js "offset", JNumber (js "0"))];
               JObject [(js "map", JObject [])]]
              eq_refl eq_refl) as [_ H].
  destruct H as [H _].
  - intros [E|[E|[]]]; discriminate E.
  - apply H. reflexivity.
Defined.

(** X18: [getSourceMapURL] returns [null] exactly when
    [getSourceMapRelativeUrl] does: a value that is found is never the
    empty string, so the truth test of the code never drops one; the
    value goes through [url.parse], receives the protocol and the host of
    the script, and goes through [url.format] and [url.parse] again. *)
Theorem getSourceMapURL_null
    (url_parse : jsstring -> Url) (url_format : Url -> jsstring)
    (scriptUrl : Url) (scriptBody : jsstring) :
  match getSourceMapRelativeUrl scriptBody with
  | Some value =>
      value <> []
      /\ getSourceMapURL url_parse url_format scriptUrl scriptBody
         = Some (url_parse
                   (url_format
                      (withProtocolAndHost (url_parse value)
                         (protocol scriptUrl) (host scriptUrl))))
  | None => getSourceMapURL url_parse url_format scriptUrl scriptBody = None
  end.
Proof.
  unfold getSourceMapURL.
  destruct (getSourceMapRelativeUrl scriptBody) as [v|] eqn:E; [|reflexivity].
  rewrite locator_lines in E. apply UrlFacts.lastReference_nonEmpty in E.
  destruct v as [|c t]; [congruence|]. split; [discriminate|reflexivity].
Qed.

(** X19: a reference to an inline map is not seen: after
    [appendSourceMapPaths] of a [data:] value on one line and without
    space, on a body that is empty or ends with a line terminator,
    [getSourceMapRelativeUrl] returns what it returns on the body. *)
Theorem getSourceMapRelativeUrl_inline_map (scriptBody payload : jsstring) :
  lineComplete scriptBody = true ->
  noTerminator payload = true ->
  forallb (fun c => negb (N.eqb c 32)) payload = true ->
  getSourceMapRelativeUrl
    (appendSourceMapPaths scriptBody (js "data:" ++ payload))
  = getSourceMapRelativeUrl scriptBody.
Proof.
  intros Hc Hline Hspace. rewrite !locator_lines. unfold appendSourceMapPaths.
  assert (Hlast :
    lastReference (js "//# sourceMappingURL=" ++ js "data:" ++ payload) = None).
  { unfold lastReference. rewrite lineTexts_line.
    - cbn [map lastSome]. rewrite app_assoc.
      now apply (lineReference_inline payload).
    - rewrite !noTerminator_app, Hline. reflexivity. }
  destruct (lineComplete_cases _ Hc) as [->|[b [t [-> Ht]]]]; [exact Hlast|].
  rewrite <- app_assoc. cbn [app].
  rewrite !lastReference_app by exact Ht.
  rewrite !lastReference_step by (now apply referenceAt_terminator).
  now rewrite Hlast.
Qed.

Lemma getSourceMapRelativeUrl_inline_map_witness :
  getSourceMapRelativeUrl
    (appendSourceMapPaths
       (js "//# sourceMappingURL=index.map" ++ [10%N])
       (js "data:application/json;base64,e30="))
  = Some (js "index.map").
Proof.
  exact (getSourceMapRelativeUrl_inline_map
           (js "//# sourceMappingURL=index.map" ++ [10%N])
           (js "application/json;base64,e30=") eq_refl eq_refl eq_refl).
Defined.


